(** * c-vector: arena allocator and dynamic array

    A shallow embedding of [arena.c] (the arena allocator) and of the
    dynamic array that follows it in the same source file, over a
    block-structured C memory: a pointer is a block and a byte offset,
    a block is a list of bytes, [size_t] is a 64-bit unsigned integer
    whose arithmetic wraps, and an access outside a live block is
    undefined behaviour, reported as [None]. *)

From Stdlib Require Import ZArith Lia.
From Stdlib Require Strings.Byte.
From stdpp Require Import base list.

Open Scope Z_scope.
Import Init.Byte.

Abbreviation byte := Init.Byte.byte.

(** ** Machine integers *)

Definition SIZE_MAX : Z := 2 ^ 64 - 1.
Definition PTRDIFF_MAX : Z := 2 ^ 63 - 1.
Definition INT_MAX : Z := 2 ^ 31 - 1.
Definition INT_MIN : Z := - 2 ^ 31.

(** [size_t] arithmetic: the result of an operation, reduced modulo 2^64. *)
Definition wrap (z : Z) : Z := z mod 2 ^ 64.

(** [int] arithmetic: signed overflow is undefined behaviour. *)
Definition int_op (z : Z) : option Z :=
  if (INT_MIN <=? z) && (z <=? INT_MAX) then Some z else None.

(** The value of a byte read as [unsigned char]. *)
Definition byte_val (b : byte) : Z := Z.of_N (Strings.Byte.to_N b).

(** ** Pointers and the heap *)

Abbreviation block := nat.

(** A pointer: the block it points into ([None] for a pointer derived from
    the null pointer) and the byte offset in it. *)
Record pointer : Type := mkptr { pbase : option block; poff : Z }.

Definition NULL : pointer := mkptr None 0.

Definition ptr_add (p : pointer) (d : Z) : pointer :=
  mkptr (pbase p) (poff p + d).

Definition ptr_eqb (p q : pointer) : bool :=
  match pbase p, pbase q with
  | Some a, Some b => Nat.eqb a b && (poff p =? poff q)
  | None, None => poff p =? poff q
  | _, _ => false
  end.

Definition is_null (p : pointer) : bool := ptr_eqb p NULL.

(** The heap: block [b] is the [b]-th entry; a released block is [None]. *)
Abbreviation heap A := (list (option A)).

Definition live {A} (h : heap A) (b : block) : option A :=
  match h !! b with Some (Some x) => Some x | _ => None end.

(** ** The monad of heap computations that may go wrong *)

Definition M (S A : Type) : Type := S -> option (A * S).

Definition ret {S A} (a : A) : M S A := fun s => Some (a, s).

Definition bind {S A B} (m : M S A) (k : A -> M S B) : M S B :=
  fun s => match m s with Some (a, s') => k a s' | None => None end.

Definition undefined {S A} : M S A := fun _ => None.

(** The value of an [int] expression, undefined when it overflowed. *)
Definition int_val {S} (o : option Z) : M S Z :=
  fun s => match o with Some z => Some (z, s) | None => None end.

Notation "x <- m ;; k" := (bind m (fun x => k))
  (at level 100, m at next level, right associativity).
Notation "m ;;; k" := (bind m (fun _ => k))
  (at level 100, right associativity).

(** ** The C library on byte blocks *)

Section Libc.

(** What a fresh allocation holds: byte [i] of block [b] is [junk b i]. *)
Variable junk : block -> nat -> byte.
(** Whether [realloc] of block [b] to [n] bytes moves it. *)
Variable moves : block -> Z -> bool.

Definition fresh_bytes (b : block) (from n : nat) : list byte :=
  map (junk b) (seq from n).

(** [malloc]: no object is larger than [PTRDIFF_MAX] bytes, such a
    request fails with the null pointer; any other request succeeds. *)
Definition malloc (n : Z) : M (heap (list byte)) pointer := fun h =>
  if PTRDIFF_MAX <? n then Some (NULL, h)
  else let b := length h in
       Some (mkptr (Some b) 0, h ++ [Some (fresh_bytes b 0 (Z.to_nat n))]).

(** The bytes of a block resized to [n]: the old ones up to [n], then
    fresh ones. *)
Definition resized (b : block) (bs : list byte) (n : nat) : list byte :=
  take n bs ++ fresh_bytes b (length bs) (n - length bs).

Definition realloc (p : pointer) (n : Z) : M (heap (list byte)) pointer :=
  fun h =>
  if is_null p then malloc n h
  else match pbase p with
       | Some b =>
           match live h b with
           | Some bs =>
               if negb (poff p =? 0) then None
               else if PTRDIFF_MAX <? n then Some (NULL, h)
               else if moves b n then
                 let b' := length h in
                 Some (mkptr (Some b') 0,
                       <[b := None]> h ++ [Some (resized b' bs (Z.to_nat n))])
               else Some (p, <[b := Some (resized b bs (Z.to_nat n))]> h)
           | None => None
           end
       | None => None
       end.

Definition free (p : pointer) : M (heap (list byte)) unit := fun h =>
  if is_null p then Some (tt, h)
  else match pbase p with
       | Some b =>
           match live h b with
           | Some _ => if poff p =? 0 then Some (tt, <[b := None]> h) else None
           | None => None
           end
       | None => None
       end.

(** An automatic array of [n] bytes, and its end of life. *)
Definition stack_alloc (n : Z) : M (heap (list byte)) pointer := fun h =>
  let b := length h in
  Some (mkptr (Some b) 0, h ++ [Some (fresh_bytes b 0 (Z.to_nat n))]).

Definition stack_free (p : pointer) : M (heap (list byte)) unit := fun h =>
  match pbase p with
  | Some b => Some (tt, <[b := None]> h)
  | None => None
  end.

End Libc.

(** Reading [n] bytes at [p]; a read of no byte touches nothing. *)
Definition load (p : pointer) (n : Z) (h : heap (list byte)) : option (list byte) :=
  if n =? 0 then Some []
  else match pbase p with
       | Some b =>
           match live h b with
           | Some bs =>
               if (0 <=? poff p) && (poff p + n <=? Z.of_nat (length bs))
               then Some (take (Z.to_nat n) (drop (Z.to_nat (poff p)) bs))
               else None
           | None => None
           end
       | None => None
       end.

(** Writing the bytes [l] at [p]. *)
Definition store (p : pointer) (l : list byte) (h : heap (list byte))
  : option (heap (list byte)) :=
  match l with
  | [] => Some h
  | _ =>
      match pbase p with
      | Some b =>
          match live h b with
          | Some bs =>
              if (0 <=? poff p) && (poff p + Z.of_nat (length l) <=? Z.of_nat (length bs))
              then Some (<[b := Some (take (Z.to_nat (poff p)) bs ++ l
                                      ++ drop (Z.to_nat (poff p) + length l) bs)]> h)
              else None
          | None => None
          end
      | None => None
      end
  end.

(** [memcpy] and [memmove]: the source bytes are read, then written. *)
Definition memmove (dest src : pointer) (n : Z) : M (heap (list byte)) unit :=
  fun h => match load src n h with
           | Some l => match store dest l h with
                       | Some h' => Some (tt, h')
                       | None => None
                       end
           | None => None
           end.

Definition memcpy (dest src : pointer) (n : Z) : M (heap (list byte)) unit :=
  memmove dest src n.

Definition memset (dest : pointer) (c : byte) (n : Z) : M (heap (list byte)) unit :=
  fun h => match store dest (replicate (Z.to_nat n) c) h with
           | Some h' => Some (tt, h')
           | None => None
           end.

(** [memcmp] on two byte sequences: the difference of the first two bytes
    that differ, read as [unsigned char]. *)
Fixpoint cmp_bytes (l1 l2 : list byte) : Z :=
  match l1, l2 with
  | a :: l1', b :: l2' =>
      if byte_val a =? byte_val b then cmp_bytes l1' l2'
      else byte_val a - byte_val b
  | _, _ => 0
  end.

Definition memcmp (p q : pointer) (n : Z) : M (heap (list byte)) Z :=
  fun h => match load p n h, load q n h with
           | Some l1, Some l2 => Some (cmp_bytes l1 l2, h)
           | _, _ => None
           end.

(** ** The dynamic array *)

(** Modelled from the spec: [struct Vec] is declared in [vector.h]; its
    fields are those the code reads and writes: the buffer, the capacity and
    the length in elements, and the size of an element in bytes. *)
Record Vec : Type := mkVec { ptr : pointer; cap : Z; len : Z; size : Z }.

Definition GROWTH_FACTOR : Z := 2.

Abbreviation Heap := (heap (list byte)).

Section Vector.

Variable junk : block -> nat -> byte.
Variable moves : block -> Z -> bool.

Definition v_at (v : Vec) (pos : Z) : pointer :=
  ptr_add (ptr v) (wrap (pos * size v)).

Definition v_set (v : Vec) (pos n : Z) : M Heap unit :=
  memset (v_at v pos) Byte.x00 (wrap (n * size v)).

Definition v_cpy (v : Vec) (pos : Z) (source : pointer) (n : Z) : M Heap unit :=
  memcpy (v_at v pos) source (wrap (n * size v)).

Definition v_cpy_to (dest : pointer) (v : Vec) (pos n : Z) : M Heap unit :=
  memcpy dest (v_at v pos) (wrap (n * size v)).

Definition v_move (v : Vec) (pos : Z) (source : pointer) (n : Z) : M Heap unit :=
  memmove (v_at v pos) source (wrap (n * size v)).

Definition v_cmp (v : Vec) (pos : Z) (ptr2 : pointer) (n : Z) : M Heap Z :=
  memcmp (v_at v pos) ptr2 (wrap (n * size v)).

Definition v_alloc (v : Vec) (n : Z) : M Heap Vec :=
  p <- malloc junk (wrap (n * size v)) ;;
  ret (mkVec p n (len v) (size v)).

Definition v_realloc (v : Vec) (n : Z) : M Heap Vec :=
  p <- realloc junk moves (ptr v) (wrap (n * size v)) ;;
  ret (mkVec p n (len v) (size v)).

Definition v_resize (v : Vec) (n : Z) : M Heap Vec :=
  if negb (cap v =? 0) then
    if (n <? cap v) || (wrap (cap v * GROWTH_FACTOR) <? n) then v_realloc v n
    else if cap v <? n then v_realloc v (wrap (cap v * GROWTH_FACTOR))
    else ret v
  else v_alloc v (if GROWTH_FACTOR <? n then n else GROWTH_FACTOR).

(** [vec_new] writes three fields; [ptr] keeps whatever it held. *)
Definition vec_new (v : Vec) (size' : Z) : Vec :=
  mkVec (ptr v) 0 0 size'.

Definition vec_reserve (v : Vec) (n : Z) : M Heap Vec :=
  if cap v <? n then v_resize v n else ret v.

Definition vec_new_with (v : Vec) (size' n : Z) : M Heap Vec :=
  vec_reserve (vec_new v size') n.

(** The call in the source is [vec_new_with(v, n, size)]. *)
Definition vec_init (v : Vec) (size' n : Z) : M Heap Vec :=
  v1 <- vec_new_with v n size' ;;
  v_set v1 0 n ;;;
  ret (mkVec (ptr v1) (cap v1) n (size v1)).

Definition vec_clear (v : Vec) : M Heap Vec :=
  (if negb (cap v =? 0) then free (ptr v) else ret tt) ;;;
  ret (mkVec (ptr v) 0 0 (size v)).

Definition vec_shrink_to_fit (v : Vec) : M Heap Vec :=
  if negb (cap v =? 0) then v_resize v (len v) else ret v.

Definition vec_insert_n (v : Vec) (elems : pointer) (n pos : Z) : M Heap Vec :=
  if pos <=? len v then
    v1 <- vec_reserve v (wrap (len v + n)) ;;
    v_move v1 (wrap (pos + n)) (v_at v1 pos) (wrap (len v1 - pos)) ;;;
    v_cpy v1 pos elems n ;;;
    ret (mkVec (ptr v1) (cap v1) (wrap (len v1 + n)) (size v1))
  else ret v.

Definition vec_insert (v : Vec) (elem : pointer) (pos : Z) : M Heap Vec :=
  vec_insert_n v elem 1 pos.

Definition vec_push (v : Vec) (elem : pointer) : M Heap Vec :=
  vec_insert v elem (len v).

(** The call in the source is [vec_insert_n(v, arr, 0, n)]. *)
Definition vec_from (v : Vec) (size' : Z) (arr : pointer) (n : Z) : M Heap Vec :=
  vec_insert_n (vec_new v size') arr 0 n.

Definition vec_pop (v : Vec) (elem : pointer) : M Heap Vec :=
  if negb (len v =? 0) then
    (if negb (is_null elem) then v_cpy_to elem v (wrap (len v - 1)) 1 else ret tt) ;;;
    ret (mkVec (ptr v) (cap v) (wrap (len v - 1)) (size v))
  else ret v.

Definition vec_remove_n (v : Vec) (pos : Z) (elems : pointer) (n : Z) : M Heap Vec :=
  if wrap (pos + n - 1) <? len v then
    (if negb (is_null elems) then v_cpy_to elems v pos n else ret tt) ;;;
    (if wrap (pos + n) <? len v
     then v_move v pos (v_at v (wrap (pos + n))) (wrap (len v - wrap (pos + n)))
     else ret tt) ;;;
    ret (mkVec (ptr v) (cap v) (wrap (len v - n)) (size v))
  else ret v.

Definition vec_remove (v : Vec) (pos : Z) (elem : pointer) : M Heap Vec :=
  vec_remove_n v pos elem 1.

Definition vec_get (v : Vec) (pos : Z) (elem : pointer) : M Heap unit :=
  if pos <? len v then v_cpy_to elem v pos 1 else ret tt.

Definition vec_set (v : Vec) (elem : pointer) (pos : Z) : M Heap unit :=
  if pos <? len v then v_cpy v pos elem 1 else ret tt.

Definition vec_data (v : Vec) : pointer :=
  if negb (len v =? 0) then ptr v else NULL.

Definition vec_at (v : Vec) (pos : Z) : pointer :=
  if pos <? len v then v_at v pos else NULL.

Definition vec_len (v : Vec) : Z := len v.

Definition vec_capacity (v : Vec) : Z := cap v.

Definition vec_swap (v : Vec) (pos1 pos2 : Z) (tmp : pointer) : M Heap unit :=
  v_cpy_to tmp v pos1 1 ;;;
  v_cpy v pos1 (v_at v pos2) 1 ;;;
  v_cpy v pos2 tmp 1.

(** The inner loop of [vec_sort], from [j]; [i] and [j] are [int]s,
    converted to [size_t] where the source compares or passes them. *)
Fixpoint sort_inner (fuel : nat) (v : Vec) (order : Z) (pval : pointer)
    (i j : Z) : M Heap unit :=
  match fuel with
  | O => undefined
  | S fuel' =>
      if wrap j <? len v then
        c <- v_cmp v (wrap i) (v_at v (wrap j)) 1 ;;
        c' <- int_val (int_op (c * order)) ;;
        (if 0 <? c' then vec_swap v (wrap i) (wrap j) pval else ret tt) ;;;
        j' <- int_val (int_op (j + 1)) ;;
        sort_inner fuel' v order pval i j'
      else ret tt
  end.

(** The outer loop of [vec_sort], from [i]. *)
Fixpoint sort_outer (fuel : nat) (v : Vec) (order : Z) (pval : pointer)
    (i : Z) : M Heap unit :=
  match fuel with
  | O => undefined
  | S fuel' =>
      if wrap i <? len v then
        j <- int_val (int_op (i + 1)) ;;
        sort_inner (S (Z.to_nat (len v))) v order pval i j ;;;
        i' <- int_val (int_op (i + 1)) ;;
        sort_outer fuel' v order pval i'
      else ret tt
  end.

Definition vec_sort (v : Vec) (order : Z) : M Heap unit :=
  if size v <? 256 then
    pval <- stack_alloc junk 256 ;;
    sort_outer (S (Z.to_nat (len v))) v order pval 0 ;;;
    stack_free pval
  else
    pval <- malloc junk (size v) ;;
    sort_outer (S (Z.to_nat (len v))) v order pval 0 ;;;
    free pval.

(** Modelled from the spec: [YES] and [NO] come with [vector.h], which is
    not among the sources; [vec_iter] reports with [NO] that it is done. *)
Definition YES : bool := true.
Definition NO : bool := false.

(** [vec_iter]: the [static] counter [i] is the first component of the
    state, and a null [v] is [None]. *)
Definition vec_iter (v : option Vec) (elem : pointer) : M (Z * Heap) bool :=
  fun s =>
  let i := fst s in
  match v with
  | Some v =>
      if i <? len v then
        match vec_get v i elem (snd s) with
        | Some (_, h') => Some (YES, (wrap (i + 1), h'))
        | None => None
        end
      else Some (NO, s)
  | None => Some (NO, (0, snd s))
  end.

End Vector.

(** ** The arena *)

(** Modelled from the spec: [arena.h] is not among the sources.  A node is
    a link followed by the payload handed to the caller, and an arena is
    the pointer to its first node.  A node block is kept with the number
    of bytes it was allocated with; its link is [None] until it is
    written. *)
Record ArenaNode : Type :=
  mkNode { bsize : Z; next : option pointer; payload : list byte }.

Record Arena : Type := mkArena { head : pointer }.

(** [sizeof(ArenaNode)]: one pointer. *)
Definition sizeof_ArenaNode : Z := 8.

Abbreviation AHeap := (heap ArenaNode).

Section ArenaModel.

Variable junk : block -> nat -> byte.
Variable moves : block -> Z -> bool.

(** [malloc] of a block that is used as a node. *)
Definition node_malloc (n : Z) : M AHeap pointer := fun h =>
  if PTRDIFF_MAX <? n then Some (NULL, h)
  else let b := length h in
       Some (mkptr (Some b) 0,
             h ++ [Some (mkNode n None
                           (fresh_bytes junk b 0 (Z.to_nat (n - sizeof_ArenaNode))))]).

(** [realloc] of a node block: the link and the payload are kept as far
    as the new size reaches. *)
Definition node_realloc (p : pointer) (n : Z) : M AHeap pointer := fun h =>
  if is_null p then node_malloc n h
  else match pbase p with
       | Some b =>
           match live h b with
           | Some nd =>
               if negb (poff p =? 0) then None
               else if PTRDIFF_MAX <? n then Some (NULL, h)
               else
                 let link := if sizeof_ArenaNode <=? n then next nd else None in
                 let b' := if moves b n then length h else b in
                 let nd' := mkNode n link
                              (resized junk b' (payload nd)
                                 (Z.to_nat (n - sizeof_ArenaNode))) in
                 if moves b n then
                   Some (mkptr (Some b') 0, <[b := None]> h ++ [Some nd'])
                 else Some (p, <[b := Some nd']> h)
           | None => None
           end
       | None => None
       end.

Definition node_free (p : pointer) : M AHeap unit := fun h =>
  if is_null p then Some (tt, h)
  else match pbase p with
       | Some b =>
           match live h b with
           | Some _ => if poff p =? 0 then Some (tt, <[b := None]> h) else None
           | None => None
           end
       | None => None
       end.

(** [p->next] read and written. *)
Definition get_next (p : pointer) : M AHeap pointer := fun h =>
  match pbase p with
  | Some b =>
      match live h b with
      | Some nd =>
          if (poff p =? 0) && (sizeof_ArenaNode <=? bsize nd) then
            match next nd with Some q => Some (q, h) | None => None end
          else None
      | None => None
      end
  | None => None
  end.

Definition set_next (p q : pointer) : M AHeap unit := fun h =>
  match pbase p with
  | Some b =>
      match live h b with
      | Some nd =>
          if (poff p =? 0) && (sizeof_ArenaNode <=? bsize nd) then
            Some (tt, <[b := Some (mkNode (bsize nd) (Some q) (payload nd))]> h)
          else None
      | None => None
      end
  | None => None
  end.

Definition arena_init (arena : Arena) : Arena := mkArena NULL.

Definition arena_alloc (arena : Arena) (bytes : Z) : M AHeap (Arena * pointer) :=
  nxt <- node_malloc (wrap (sizeof_ArenaNode + bytes)) ;;
  set_next nxt (head arena) ;;;
  ret (mkArena nxt, ptr_add nxt sizeof_ArenaNode).

(** The search loop of [arena_realloc]: it returns [prev] and [curr]. *)
Fixpoint find_node (fuel : nat) (needle prev curr : pointer)
    : M AHeap (pointer * pointer) :=
  match fuel with
  | O => undefined
  | S fuel' =>
      if negb (is_null curr) && negb (ptr_eqb curr needle) then
        nxt <- get_next curr ;;
        find_node fuel' needle curr nxt
      else ret (prev, curr)
  end.

Definition arena_realloc (arena : Arena) (bytes : Z) (prev_allocation : pointer)
    : M AHeap (Arena * pointer) :=
  if negb (is_null (head arena)) then
    let needle := ptr_add prev_allocation (- sizeof_ArenaNode) in
    found <- (fun h => find_node (S (length h)) needle NULL (head arena) h) ;;
    let prev := fst found in
    let curr := snd found in
    if negb (is_null curr) then
      nxt <- get_next curr ;;
      needle' <- node_realloc needle (wrap (sizeof_ArenaNode + bytes)) ;;
      set_next needle' nxt ;;;
      arena' <- (if negb (is_null prev)
                 then set_next prev needle' ;;; ret arena
                 else ret (mkArena needle')) ;;
      ret (arena', ptr_add nxt sizeof_ArenaNode)
    else ret (arena, NULL)
  else ret (arena, NULL).

(** The release loop of [arena_free], from [next]. *)
Fixpoint free_nodes (fuel : nat) (nxt : pointer) : M AHeap unit :=
  match fuel with
  | O => undefined
  | S fuel' =>
      if negb (is_null nxt) then
        let curr := nxt in
        nxt' <- get_next nxt ;;
        node_free curr ;;;
        free_nodes fuel' nxt'
      else ret tt
  end.

Definition arena_free (arena : Arena) : M AHeap Arena :=
  if negb (is_null (head arena)) then
    nxt <- get_next (head arena) ;;
    (fun h => free_nodes (S (length h)) nxt h) ;;;
    node_free (head arena) ;;;
    ret (mkArena NULL)
  else ret arena.

End ArenaModel.

(** ** What the claims are stated with *)

(** The first [k] elements of [sz] bytes each in a byte sequence. *)
Fixpoint chunks (k sz : nat) (bs : list byte) : list (list byte) :=
  match k with
  | O => []
  | S k' => take sz bs :: chunks k' sz (drop sz bs)
  end.

(** The [k] elements of [sz] bytes that are read at [p]. *)
Definition elems_at (h : Heap) (p : pointer) (sz k : Z) : option (list (list byte)) :=
  match load p (k * sz) h with
  | Some bs => Some (chunks (Z.to_nat k) (Z.to_nat sz) bs)
  | None => None
  end.

(** The element sequence of an array: its first [len] slots. *)
Definition vec_elems (h : Heap) (v : Vec) : option (list (list byte)) :=
  elems_at h (ptr v) (size v) (len v).


(** A well-formed array: its fields are [size_t] values, its length is
    within its capacity, and when it is allocated its buffer is a live
    block of exactly [cap * size] bytes. *)
Definition is_array (h : Heap) (v : Vec) : Prop :=
  0 <= size v <= SIZE_MAX /\ 0 <= len v <= cap v /\ cap v <= SIZE_MAX /\
  (cap v <> 0 ->
   exists b bs, ptr v = mkptr (Some b) 0 /\ live h b = Some bs /\
                Z.of_nat (length bs) = cap v * size v /\
                cap v * size v <= PTRDIFF_MAX).

(** A caller-owned buffer with room for [k] bytes at [p], in a block that
    is not the buffer of [v]. *)
Definition is_buffer (h : Heap) (v : Vec) (p : pointer) (k : Z) : Prop :=
  exists b bs, pbase p = Some b /\ live h b = Some bs /\
               0 <= poff p /\ poff p + k <= Z.of_nat (length bs) /\
               (cap v <> 0 -> pbase (ptr v) <> Some b).

(** The capacity that the growth policy of the spec gives to an array of
    capacity [c] asked to hold [n] elements. *)
Definition grown_cap (c n : Z) : Z :=
  if n <=? c then c
  else if c =? 0 then Z.max n 2
  else if 2 * c <? n then n
  else 2 * c.

(** An array as the operations leave it: its capacity is a [size_t]
    value, and the buffer of an allocated array is what the allocator
    answered last, the null pointer or the start of a live block.
    Nothing is asked of the stride, of the length, or of the size of the
    block. *)
Definition is_vec (h : Heap) (v : Vec) : Prop :=
  0 <= cap v <= SIZE_MAX /\
  (cap v <> 0 ->
   ptr v = NULL \/ exists b bs, ptr v = mkptr (Some b) 0 /\ live h b = Some bs).

(** The invariant of the data model. *)
Definition vec_inv (v : Vec) : Prop := 0 <= len v <= cap v.

(** Modelled from the spec: [vector.h], which gives the two order values of
    [vec_sort], is not among the sources; the spec fixes their signs. *)
Definition VEC_SORT_ASC : Z := 1.
Definition VEC_SORT_DESC : Z := -1.

(** A byte sequence is below another one when [memcmp] does not return a
    positive value on them. *)
Definition bytes_le (a b : list byte) : Prop := cmp_bytes a b <= 0.

(** Nondecreasing, and nonincreasing, under byte-content comparison. *)
Definition ascending (l : list (list byte)) : Prop :=
  forall i j a b, (i < j)%nat -> l !! i = Some a -> l !! j = Some b -> bytes_le a b.

Definition descending (l : list (list byte)) : Prop :=
  forall i j a b, (i < j)%nat -> l !! i = Some a -> l !! j = Some b -> bytes_le b a.

(** The nodes of an arena, from [p] to the end of the list. *)
Inductive arena_nodes (h : AHeap) : pointer -> list block -> Prop :=
  | nodes_nil : arena_nodes h NULL []
  | nodes_cons b nd q l :
      live h b = Some nd -> sizeof_ArenaNode <= bsize nd ->
      next nd = Some q -> arena_nodes h q l ->
      arena_nodes h (mkptr (Some b) 0) (b :: l).

(** ** What the further properties are stated with *)

(** The loop of a caller over [vec_iter],
    [while (vec_iter(v, elem)) ...], which collects what each call
    leaves at [elem]. *)
Fixpoint iter_loop (fuel : nat) (v : Vec) (elem : pointer)
    : M (Z * Heap) (list (list byte)) :=
  match fuel with
  | O => undefined
  | S fuel' =>
      more <- vec_iter (Some v) elem ;;
      if more then
        e <- (fun s => match load elem (size v) (snd s) with
                       | Some e => Some (e, s)
                       | None => None
                       end) ;;
        rest <- iter_loop fuel' v elem ;;
        ret (e :: rest)
      else ret []
  end.

(** ** What the proofs are stated with *)

(** Elements of one size. *)
Definition uniform (sz : nat) (l : list (list byte)) : Prop :=
  Forall (fun e => length e = sz) l.

(** The representation of an allocated array of positive stride: block [b]
    holds the slots [sl]. *)
Definition rep (h : Heap) (v : Vec) (b : block) (sl : list (list byte)) : Prop :=
  ptr v = mkptr (Some b) 0 /\ live h b = Some (concat sl) /\
  Z.of_nat (length sl) = cap v /\ uniform (Z.to_nat (size v)) sl /\
  0 < size v <= SIZE_MAX /\ 0 <= len v <= cap v /\ cap v * size v <= PTRDIFF_MAX.

(** A block that is live or released, and is not the buffer of [v]. *)
Definition outside (h : Heap) (v : Vec) (b0 : block) : Prop :=
  (b0 < length h)%nat /\ (cap v <> 0 -> pbase (ptr v) <> Some b0).

(** The test of [vec_sort]: the two elements are exchanged. *)
Definition sort_gt (order : Z) (a b : list byte) : bool :=
  0 <? cmp_bytes a b * order.

(** ** Exchange sort on a list *)

Section ExchangeSortDef.

Context {A : Type} (gt : A -> A -> bool).

(** One comparison of the inner loop, with its exchange. *)
Definition exchange (l : list A) (i j : nat) : list A :=
  match l !! i, l !! j with
  | Some a, Some b => if gt a b then <[j := a]> (<[i := b]> l) else l
  | _, _ => l
  end.

(** [k] turns of the inner loop from [j]. *)
Fixpoint inner_loop (k : nat) (l : list A) (i j : nat) : list A :=
  match k with
  | O => l
  | S k' => inner_loop k' (exchange l i j) i (S j)
  end.

(** [k] turns of the outer loop from [i]. *)
Fixpoint outer_loop (k : nat) (l : list A) (i : nat) : list A :=
  match k with
  | O => l
  | S k' => outer_loop k' (inner_loop (length l - S i) l i (S i)) (S i)
  end.

Definition exchange_sort (l : list A) : list A := outer_loop (length l) l 0.

(** No element after another one is to be exchanged with it. *)
Definition in_order (l : list A) : Prop :=
  forall a b x y, (a < b)%nat -> l !! a = Some x -> l !! b = Some y -> gt x y = false.

Definition in_order_upto (m : nat) (l : list A) : Prop :=
  forall a b x y, (a < m)%nat -> (a < b)%nat ->
    l !! a = Some x -> l !! b = Some y -> gt x y = false.

End ExchangeSortDef.

(** ** Sample states *)

(** A heap whose fresh bytes are all [0xaa], and a [realloc] that always
    moves the block. *)
Definition junk_aa : block -> nat -> byte := fun _ _ => xaa.
Definition realloc_moves : block -> Z -> bool := fun _ _ => true.
Definition no_vec : Vec := mkVec NULL 0 0 0.

Definition at_block (b : block) : pointer := mkptr (Some b) 0.

(** An array of capacity 2 holding the two one-byte elements 7 and 3, a
    buffer holding the element 9, and a buffer of one byte. *)
Definition two_bytes : Vec := mkVec (at_block 0) 2 2 1.
Definition two_bytes_heap : Heap := [Some [x07; x03]; Some [x09]; Some [x00]].


(** An array of [INT_MAX + 2] one-byte elements, all zero. *)
Definition many_bytes : Vec := mkVec (at_block 0) (INT_MAX + 2) (INT_MAX + 2) 1.
Definition many_bytes_heap : Heap := [Some (replicate (Z.to_nat (INT_MAX + 2)) x00)].

(** An array of capacity 2 that holds the one element 7, in the heap of
    [two_bytes]. *)
Definition one_of_two : Vec := mkVec (at_block 0) 2 1 1.

(** An unallocated array whose elements have [2^62] bytes. *)
Definition huge_stride : Vec := mkVec NULL 0 0 (2 ^ 62).

(** An arena of two nodes, with payloads of 1 and 2 bytes; the node of
    block 1 is the first one. *)
Definition two_nodes_heap : AHeap :=
  [Some (mkNode 9 (Some NULL) [x01]); Some (mkNode 10 (Some (at_block 0)) [x02; x03])].
Definition two_nodes : Arena := mkArena (at_block 1).

(** * Proofs *)

(** ** Arithmetic *)

Lemma wrap_small z : 0 <= z <= SIZE_MAX -> wrap z = z.
Proof. unfold wrap, SIZE_MAX. intros. apply Z.mod_small. lia. Qed.

Lemma wrap_range z : 0 <= wrap z <= SIZE_MAX.
Proof. unfold wrap, SIZE_MAX. pose proof (Z.mod_pos_bound z (2 ^ 64)). lia. Qed.

Lemma PTRDIFF_lt_SIZE : 2 * PTRDIFF_MAX + 1 = SIZE_MAX.
Proof. reflexivity. Qed.

(** ** Lists of elements *)

Lemma length_concat_uniform sz l :
  uniform sz l -> length (concat l) = (length l * sz)%nat.
Proof.
  induction 1 as [|e l He _ IH]; simpl; [reflexivity|].
  rewrite length_app, IH, He. reflexivity.
Qed.

Lemma chunks_concat sz l rest :
  uniform sz l -> chunks (length l) sz (concat l ++ rest) = l.
Proof.
  induction 1 as [|e l He _ IH]; simpl; [reflexivity|].
  rewrite <- app_assoc.
  rewrite (take_app_length' e) by congruence.
  rewrite (drop_app_length' e) by congruence.
  now rewrite IH.
Qed.

Lemma chunks_concat_nil sz l :
  uniform sz l -> chunks (length l) sz (concat l) = l.
Proof.
  intros. rewrite <- (app_nil_r (concat l)). now apply chunks_concat.
Qed.

Lemma length_chunks k sz bs : length (chunks k sz bs) = k.
Proof. revert bs. induction k; simpl; intros; [reflexivity|]. now rewrite IHk. Qed.

Lemma uniform_chunks k sz bs :
  (k * sz <= length bs)%nat -> uniform sz (chunks k sz bs).
Proof.
  revert bs. induction k; simpl; intros bs H; constructor.
  - rewrite length_take. lia.
  - apply IHk. rewrite length_drop. lia.
Qed.

Lemma concat_chunks k sz bs :
  (k * sz <= length bs)%nat -> concat (chunks k sz bs) = take (k * sz) bs.
Proof.
  revert bs. induction k; simpl; intros bs H; [reflexivity|].
  rewrite IHk by (rewrite length_drop; lia).
  rewrite <- (take_drop sz bs) at 3.
  rewrite take_app_ge by (rewrite length_take; lia).
  rewrite length_take. f_equal. f_equal. lia.
Qed.

Lemma concat_chunks_all k sz bs :
  length bs = (k * sz)%nat -> concat (chunks k sz bs) = bs.
Proof. intros H. rewrite concat_chunks by lia. apply take_ge. lia. Qed.

Lemma chunks_take k k' sz bs :
  (k <= k')%nat -> take k (chunks k' sz bs) = chunks k sz bs.
Proof.
  revert k' bs. induction k; intros k' bs H; [reflexivity|].
  destruct k'; [lia|]. simpl. f_equal. apply IHk. lia.
Qed.

Lemma uniform_take sz n l : uniform sz l -> uniform sz (take n l).
Proof. apply Forall_take. Qed.

Lemma uniform_drop sz n l : uniform sz l -> uniform sz (drop n l).
Proof. apply Forall_drop. Qed.

Lemma uniform_app sz l1 l2 : uniform sz l1 -> uniform sz l2 -> uniform sz (l1 ++ l2).
Proof. intros. apply Forall_app. auto. Qed.

(** ** The heap *)

Lemma live_insert_eq {A} (h : heap A) b x :
  (b < length h)%nat -> live (<[b := Some x]> h) b = Some x.
Proof. intros. unfold live. now rewrite list_lookup_insert_eq. Qed.

Lemma live_insert_ne {A} (h : heap A) b b' x :
  b <> b' -> live (<[b := x]> h) b' = live h b'.
Proof. intros. unfold live. now rewrite list_lookup_insert_ne. Qed.

Lemma live_lt {A} (h : heap A) b x : live h b = Some x -> (b < length h)%nat.
Proof.
  unfold live. destruct (h !! b) eqn:E; [|discriminate].
  intros _. apply lookup_lt_is_Some. eauto.
Qed.

Lemma live_app_new {A} (h : heap A) x : live (h ++ [Some x]) (length h) = Some x.
Proof. unfold live. rewrite lookup_app_r, Nat.sub_diag by lia. reflexivity. Qed.

(** ** Loads and stores *)

Lemma load_raw h b bs off n :
  live h b = Some bs -> 0 <= off -> 0 <= n -> off + n <= Z.of_nat (length bs) ->
  load (mkptr (Some b) off) n h = Some (take (Z.to_nat n) (drop (Z.to_nat off) bs)).
Proof.
  intros Hb Ho Hn Hle. unfold load. simpl.
  destruct (Z.eqb_spec n 0) as [->|Hn0]; [reflexivity|].
  rewrite Hb.
  destruct (Z.leb_spec 0 off); [|lia].
  destruct (Z.leb_spec (off + n) (Z.of_nat (length bs))); [|lia].
  reflexivity.
Qed.

Lemma load_length p n h l : 0 <= n -> load p n h = Some l -> Z.of_nat (length l) = n.
Proof.
  intros Hn. unfold load.
  destruct (Z.eqb_spec n 0) as [->|Hn0]; [intros [= <-]; reflexivity|].
  destruct (pbase p) as [b|]; [|discriminate].
  destruct (live h b) as [bs|]; [|discriminate].
  destruct (Z.leb_spec 0 (poff p)); [|discriminate].
  destruct (Z.leb_spec (poff p + n) (Z.of_nat (length bs))); [|discriminate].
  simpl. intros [= <-]. rewrite length_take, length_drop. lia.
Qed.

Lemma store_raw h b bs off l :
  live h b = Some bs -> 0 <= off -> off + Z.of_nat (length l) <= Z.of_nat (length bs) ->
  store (mkptr (Some b) off) l h =
    Some (<[b := Some (take (Z.to_nat off) bs ++ l
                       ++ drop (Z.to_nat off + length l) bs)]> h).
Proof.
  intros Hb Ho Hle. unfold store. simpl.
  destruct l as [|x l].
  - simpl. rewrite Nat.add_0_r, take_drop. f_equal. symmetry.
    apply list_insert_id. unfold live in Hb.
    destruct (h !! b) as [[?|]|]; congruence.
  - rewrite Hb.
    destruct (Z.leb_spec 0 off); [|lia].
    destruct (Z.leb_spec (off + Z.of_nat (length (x :: l))) (Z.of_nat (length bs))); [|lia].
    reflexivity.
Qed.

(** A load sees only the block it reads. *)
Lemma load_frame p n h h' :
  (forall b, pbase p = Some b -> h' !! b = h !! b) -> load p n h' = load p n h.
Proof.
  intros H. unfold load. destruct (n =? 0); [reflexivity|].
  destruct (pbase p) as [b|]; [|reflexivity].
  unfold live. now rewrite (H b eq_refl).
Qed.

(** ** Slots *)

Lemma concat_take_uniform sz n l :
  uniform sz l -> concat (take n l) = take (n * sz) (concat l).
Proof.
  intros H. revert n. induction H as [|e l He _ IH]; intros [|n]; simpl;
    try reflexivity.
  - now rewrite take_nil.
  - rewrite IH. rewrite take_app_ge by lia. do 2 f_equal. lia.
Qed.

Lemma concat_drop_uniform sz n l :
  uniform sz l -> concat (drop n l) = drop (n * sz) (concat l).
Proof.
  intros H. revert n. induction H as [|e l He _ IH]; intros [|n]; simpl;
    try reflexivity.
  - now rewrite drop_nil.
  - rewrite IH. rewrite drop_app_ge by lia. f_equal. lia.
Qed.

Lemma rep_bytes h v b sl :
  rep h v b sl -> Z.of_nat (length (concat sl)) = cap v * size v.
Proof.
  intros (_ & _ & Hl & Hu & Hs & _). rewrite (length_concat_uniform _ _ Hu).
  rewrite Nat2Z.inj_mul, Hl, Z2Nat.id by lia. reflexivity.
Qed.

Lemma rep_wrap h v b sl k :
  rep h v b sl -> 0 <= k <= cap v -> wrap (k * size v) = k * size v.
Proof.
  intros (_ & _ & _ & _ & Hs & _ & Hc) Hk. apply wrap_small.
  pose proof PTRDIFF_lt_SIZE. nia.
Qed.

Lemma rep_load h v b sl pos n :
  rep h v b sl -> 0 <= pos -> 0 <= n -> pos + n <= cap v ->
  load (v_at v pos) (wrap (n * size v)) h =
    Some (concat (take (Z.to_nat n) (drop (Z.to_nat pos) sl))).
Proof.
  intros R Hp Hn Hle. pose proof (rep_bytes _ _ _ _ R) as Hlen.
  destruct R as (Hptr & Hb & Hl & Hu & Hs & Hlc & Hc).
  assert (W : forall k, 0 <= k <= cap v -> wrap (k * size v) = k * size v)
    by (intros; apply wrap_small; pose proof PTRDIFF_lt_SIZE; nia).
  unfold v_at. rewrite Hptr. unfold ptr_add. simpl.
  rewrite !W by lia. rewrite Z.add_0_l.
  rewrite (load_raw _ _ _ _ _ Hb) by nia.
  f_equal. rewrite (concat_take_uniform (Z.to_nat (size v))) by now apply uniform_drop.
  rewrite (concat_drop_uniform (Z.to_nat (size v))) by assumption.
  rewrite !Z2Nat.inj_mul by lia. reflexivity.
Qed.

Lemma rep_store h v b sl pos new :
  rep h v b sl -> 0 <= pos -> pos + Z.of_nat (length new) <= cap v ->
  uniform (Z.to_nat (size v)) new ->
  store (v_at v pos) (concat new) h =
    Some (<[b := Some (concat (take (Z.to_nat pos) sl ++ new
                               ++ drop (Z.to_nat pos + length new) sl))]> h).
Proof.
  intros R Hp Hle Hn. pose proof (rep_bytes _ _ _ _ R) as Hlen.
  destruct R as (Hptr & Hb & Hl & Hu & Hs & Hlc & Hc).
  assert (W : forall k, 0 <= k <= cap v -> wrap (k * size v) = k * size v)
    by (intros; apply wrap_small; pose proof PTRDIFF_lt_SIZE; nia).
  unfold v_at. rewrite Hptr. unfold ptr_add. simpl.
  rewrite !W by lia. rewrite Z.add_0_l.
  pose proof (length_concat_uniform _ _ Hn) as Hnew.
  rewrite (store_raw _ _ _ _ _ Hb); [|nia|].
  2:{ rewrite Hnew, Nat2Z.inj_mul, Z2Nat.id by lia. nia. }
  do 3 f_equal. rewrite !concat_app.
  rewrite (concat_take_uniform (Z.to_nat (size v))) by assumption.
  rewrite (concat_drop_uniform (Z.to_nat (size v))) by assumption.
  rewrite Hnew, !Z2Nat.inj_mul by lia.
  do 3 f_equal. lia.
Qed.

(** The rewritten block still represents the array. *)
Lemma rep_update h v b sl sl' :
  rep h v b sl -> length sl' = length sl -> uniform (Z.to_nat (size v)) sl' ->
  rep (<[b := Some (concat sl')]> h) v b sl'.
Proof.
  intros (Hptr & Hb & Hl & Hu & Hs & Hlc & Hc) Hlen Hu'.
  repeat split; try assumption; try lia.
  apply live_insert_eq. eapply live_lt; eauto.
Qed.

(** Another block rewritten does not touch the array. *)
Lemma rep_frame h h' v b sl :
  rep h v b sl -> h' !! b = h !! b -> rep h' v b sl.
Proof.
  intros (Hptr & Hb & Hl & Hu & Hs & Hlc & Hc) E.
  repeat split; try assumption; try lia.
  unfold live in *. now rewrite E.
Qed.

Lemma bind_step {S A B} (m : M S A) (k : A -> M S B) s a s' :
  m s = Some (a, s') -> bind m k s = k a s'.
Proof. intros H. unfold bind. now rewrite H. Qed.

Lemma is_null_block b off : is_null (mkptr (Some b) off) = false.
Proof. reflexivity. Qed.

Lemma is_null_false p b : pbase p = Some b -> is_null p = false.
Proof. destruct p as [[?|] ?]; simpl; [reflexivity|discriminate]. Qed.

(** ** The private methods on a represented array *)

Lemma v_move_rep h v b sl pos p2 n :
  rep h v b sl -> 0 <= pos -> 0 <= p2 -> 0 <= n ->
  pos + n <= cap v -> p2 + n <= cap v ->
  v_move v pos (v_at v p2) n h =
    Some (tt, <[b := Some (concat (take (Z.to_nat pos) sl
                                   ++ take (Z.to_nat n) (drop (Z.to_nat p2) sl)
                                   ++ drop (Z.to_nat pos + Z.to_nat n) sl))]> h).
Proof.
  intros R Hpos Hp2 Hn H1 H2. unfold v_move, memmove.
  rewrite (rep_load _ _ _ _ _ _ R) by lia.
  assert (Hlen : length (take (Z.to_nat n) (drop (Z.to_nat p2) sl)) = Z.to_nat n).
  { destruct R as (_ & _ & Hl & _). rewrite length_take, length_drop. lia. }
  rewrite (rep_store _ _ _ _ _ _ R); [now rewrite Hlen|lia|lia|].
  apply uniform_take, uniform_drop. apply R.
Qed.

Lemma v_cpy_rep h v b sl pos source n new :
  rep h v b sl -> 0 <= pos -> 0 <= n -> pos + n <= cap v ->
  load source (n * size v) h = Some (concat new) ->
  length new = Z.to_nat n -> uniform (Z.to_nat (size v)) new ->
  v_cpy v pos source n h =
    Some (tt, <[b := Some (concat (take (Z.to_nat pos) sl ++ new
                                   ++ drop (Z.to_nat pos + Z.to_nat n) sl))]> h).
Proof.
  intros R Hpos Hn H1 Hload Hlen Hu. unfold v_cpy, memcpy, memmove.
  rewrite (rep_wrap _ _ _ _ _ R) by lia. rewrite Hload.
  rewrite (rep_store _ _ _ _ _ _ R); [now rewrite Hlen|lia|lia|assumption].
Qed.

Lemma v_cpy_to_rep h v b sl dest pos n bd bs :
  rep h v b sl -> 0 <= pos -> 0 <= n -> pos + n <= cap v ->
  pbase dest = Some bd -> live h bd = Some bs ->
  0 <= poff dest -> poff dest + n * size v <= Z.of_nat (length bs) ->
  exists bs',
    v_cpy_to dest v pos n h = Some (tt, <[bd := Some bs']> h) /\
    length bs' = length bs /\
    load dest (n * size v) (<[bd := Some bs']> h) =
      Some (concat (take (Z.to_nat n) (drop (Z.to_nat pos) sl))).
Proof.
  intros R Hpos Hn H1 Hd Hbd Hoff Hroom.
  set (data := concat (take (Z.to_nat n) (drop (Z.to_nat pos) sl))).
  assert (Hdata : Z.of_nat (length data) = n * size v).
  { unfold data. destruct R as (_ & _ & Hl & Hu & Hs & _).
    rewrite (length_concat_uniform (Z.to_nat (size v)))
      by now apply uniform_take, uniform_drop.
    rewrite length_take, length_drop. nia. }
  destruct dest as [db doff]. simpl in Hd, Hoff, Hroom. subst db.
  eexists. split; [|split].
  - unfold v_cpy_to, memcpy, memmove.
    rewrite (rep_load _ _ _ _ _ _ R) by lia. fold data.
    rewrite (store_raw _ _ _ _ _ Hbd) by lia. reflexivity.
  - rewrite !length_app, length_take, length_drop. lia.
  - erewrite load_raw; [| apply live_insert_eq; eapply live_lt; eauto | lia | nia |].
    + rewrite drop_app_length' by (rewrite length_take; lia).
      rewrite take_app_length' by lia. reflexivity.
    + rewrite !length_app, length_take, length_drop. lia.
Qed.

(** ** Arrays and their representation *)

Lemma is_array_rep h v :
  is_array h v -> 0 < size v -> cap v <> 0 -> exists b sl, rep h v b sl.
Proof.
  intros (Hs & Hl & Hc & Hb) Hpos Hcap.
  destruct (Hb Hcap) as (b & bs & Hptr & Hlive & Hlen & Hfit).
  exists b, (chunks (Z.to_nat (cap v)) (Z.to_nat (size v)) bs).
  assert (E : length bs = (Z.to_nat (cap v) * Z.to_nat (size v))%nat) by nia.
  repeat split; try assumption; try lia.
  - now rewrite concat_chunks_all.
  - rewrite length_chunks. lia.
  - apply uniform_chunks. lia.
Qed.

Lemma rep_is_array h v b sl : rep h v b sl -> is_array h v.
Proof.
  intros R. pose proof (rep_bytes _ _ _ _ R) as Hlen.
  destruct R as (Hptr & Hb & Hl & Hu & Hs & Hlc & Hc).
  pose proof PTRDIFF_lt_SIZE.
  repeat split; try lia; try nia.
  intros _. eauto 10.
Qed.

Lemma rep_elems h v b sl :
  rep h v b sl -> vec_elems h v = Some (take (Z.to_nat (len v)) sl).
Proof.
  intros R. unfold vec_elems, elems_at.
  pose proof (rep_load _ _ _ _ 0 (len v) R) as L.
  rewrite (rep_wrap _ _ _ _ _ R) in L by (destruct R as (_&_&_&_&_&?&_); lia).
  unfold v_at in L. rewrite Z.mul_0_l in L.
  replace (ptr_add (ptr v) (wrap 0)) with (ptr v) in L
    by (destruct (ptr v); unfold ptr_add; simpl; f_equal; rewrite Z.add_0_r; reflexivity).
  rewrite L by (destruct R as (_&_&_&_&_&?&_); lia).
  simpl. rewrite drop_0. f_equal.
  destruct R as (_ & _ & Hl & Hu & Hs & Hlc & _).
  rewrite <- (chunks_concat_nil (Z.to_nat (size v))) by now apply uniform_take.
  f_equal. rewrite length_take. lia.
Qed.

Lemma empty_elems h v : len v = 0 -> vec_elems h v = Some [].
Proof. intros E. unfold vec_elems, elems_at. now rewrite E. Qed.

Section Reserve.

Variable junk : block -> nat -> byte.
Variable moves : block -> Z -> bool.

Lemma length_fresh_bytes b from n : length (fresh_bytes junk b from n) = n.
Proof. unfold fresh_bytes. now rewrite length_map, length_seq. Qed.

Lemma vec_reserve_noop v h n :
  n <= cap v -> vec_reserve junk moves v n h = Some (v, h).
Proof.
  intros H. unfold vec_reserve. destruct (Z.ltb_spec (cap v) n); [lia|reflexivity].
Qed.

Lemma vec_reserve_alloc v h n :
  cap v = 0 -> 0 < n -> 0 < size v <= SIZE_MAX -> len v = 0 ->
  Z.max n 2 * size v <= PTRDIFF_MAX ->
  exists sl,
    vec_reserve junk moves v n h =
      Some (mkVec (mkptr (Some (length h)) 0) (Z.max n 2) 0 (size v),
            h ++ [Some (concat sl)]) /\
    rep (h ++ [Some (concat sl)])
        (mkVec (mkptr (Some (length h)) 0) (Z.max n 2) 0 (size v)) (length h) sl.
Proof.
  intros Hc Hn Hs Hl Hfit.
  set (c' := Z.max n 2) in *.
  set (bs := fresh_bytes junk (length h) 0 (Z.to_nat (c' * size v))).
  assert (Hbs : length bs = (Z.to_nat c' * Z.to_nat (size v))%nat).
  { unfold bs. rewrite length_fresh_bytes. apply Z2Nat.inj_mul; lia. }
  exists (chunks (Z.to_nat c') (Z.to_nat (size v)) bs).
  rewrite concat_chunks_all by assumption.
  split.
  - unfold vec_reserve. rewrite Hc.
    destruct (Z.ltb_spec 0 n); [|lia].
    unfold v_resize. rewrite Hc. change (negb (0 =? 0)) with false. cbv iota.
    unfold v_alloc, GROWTH_FACTOR.
    replace (if 2 <? n then n else 2) with c'
      by (unfold c'; destruct (Z.ltb_spec 2 n); lia).
    rewrite wrap_small by (pose proof PTRDIFF_lt_SIZE; nia).
    unfold bind, malloc.
    destruct (Z.ltb_spec PTRDIFF_MAX (c' * size v)); [lia|].
    simpl. rewrite Hl. reflexivity.
  - repeat split; simpl; try lia.
    + rewrite concat_chunks_all by assumption. apply live_app_new.
    + rewrite length_chunks. lia.
    + apply uniform_chunks. lia.
Qed.

Lemma vec_reserve_grow v h b sl n :
  rep h v b sl -> cap v <> 0 -> cap v < n ->
  (if 2 * cap v <? n then n else 2 * cap v) * size v <= PTRDIFF_MAX ->
  exists b' sl' h',
    vec_reserve junk moves v n h =
      Some (mkVec (mkptr (Some b') 0) (if 2 * cap v <? n then n else 2 * cap v)
                  (len v) (size v), h') /\
    rep h' (mkVec (mkptr (Some b') 0) (if 2 * cap v <? n then n else 2 * cap v)
                  (len v) (size v)) b' sl' /\
    take (Z.to_nat (cap v)) sl' = sl /\
    (length h <= length h')%nat /\ (b' = b \/ b' = length h) /\
    (forall b0, b0 <> b -> (b0 < length h)%nat -> h' !! b0 = h !! b0).
Proof.
  intros R Hc Hn Hfit. pose proof (rep_bytes _ _ _ _ R) as Hlen.
  destruct R as (Hptr & Hb & Hl & Hu & Hs & Hlc & Hcs).
  set (c' := if 2 * cap v <? n then n else 2 * cap v) in *.
  assert (Hc' : cap v < c' /\ n <= c') by (unfold c'; destruct (Z.ltb_spec (2 * cap v) n); lia).
  pose proof PTRDIFF_lt_SIZE as HPS.
  assert (Hreq : vec_reserve junk moves v n h = v_realloc junk moves v c' h).
  { unfold vec_reserve. destruct (Z.ltb_spec (cap v) n); [|lia].
    unfold v_resize. destruct (Z.eqb_spec (cap v) 0); [lia|]. simpl negb. cbv iota.
    unfold GROWTH_FACTOR. rewrite (wrap_small (cap v * 2)) by nia.
    destruct (Z.ltb_spec n (cap v)); [lia|]. simpl orb.
    unfold c'. replace (cap v * 2) with (2 * cap v) by lia.
    destruct (Z.ltb_spec (2 * cap v) n); [reflexivity|].
    destruct (Z.ltb_spec (cap v) n); [|lia]. reflexivity. }
  rewrite Hreq. unfold v_realloc, bind, realloc.
  rewrite wrap_small by nia. rewrite Hptr. simpl. rewrite Hb.
  destruct (Z.ltb_spec PTRDIFF_MAX (c' * size v)); [lia|].
  assert (Hbig : (length (concat sl) <= Z.to_nat (c' * size v))%nat) by nia.
  assert (Hres : forall b', exists sl',
             resized junk b' (concat sl) (Z.to_nat (c' * size v)) = concat sl' /\
             Z.of_nat (length sl') = c' /\ uniform (Z.to_nat (size v)) sl' /\
             take (Z.to_nat (cap v)) sl' = sl).
  { intros b'. unfold resized. rewrite take_ge by assumption.
    set (bs := concat sl ++ _).
    assert (Hbs : length bs = (Z.to_nat c' * Z.to_nat (size v))%nat).
    { unfold bs. rewrite length_app, length_fresh_bytes.
      rewrite <- Z2Nat.inj_mul by lia. lia. }
    exists (chunks (Z.to_nat c') (Z.to_nat (size v)) bs).
    repeat split.
    - now rewrite concat_chunks_all.
    - rewrite length_chunks. lia.
    - apply uniform_chunks. lia.
    - rewrite chunks_take by lia. unfold bs.
      replace (Z.to_nat (cap v)) with (length sl) by lia.
      now apply chunks_concat. }
  destruct (moves b (c' * size v)).
  - destruct (Hres (length h)) as (sl' & E & Hl' & Hu' & Ht).
    exists (length h), sl', (<[b := None]> h ++ [Some (concat sl')]).
    rewrite E. split; [reflexivity|].
    split; [|split; [assumption|split; [|split; [now right|]]]].
    + repeat split; simpl; try assumption; try lia.
      rewrite <- (length_insert h b None) at 1. apply live_app_new.
    + rewrite length_app, length_insert. lia.
    + intros b0 Hne Hlt. rewrite lookup_app_l by (rewrite length_insert; lia).
      now apply list_lookup_insert_ne.
  - destruct (Hres b) as (sl' & E & Hl' & Hu' & Ht).
    exists b, sl', (<[b := Some (concat sl')]> h).
    rewrite E. split; [reflexivity|].
    split; [|split; [assumption|split; [|split; [now left|]]]].
    + repeat split; simpl; try assumption; try lia.
      apply live_insert_eq. eapply live_lt; eauto.
    + rewrite length_insert. lia.
    + intros b0 Hne Hlt. now apply list_lookup_insert_ne.
Qed.

End Reserve.

(** ** Moving slots *)

Section Slots.
Context {A : Type}.
Implicit Types sl new : list A.

(** The tail moved right by [n] slots, then the gap filled. *)
Lemma slots_insert sl new (pos len n : nat) :
  (pos <= len)%nat -> (len + n <= length sl)%nat -> length new = n ->
  let sl2 := take (pos + n) sl ++ take (len - pos) (drop pos sl)
             ++ drop (pos + n + (len - pos)) sl in
  take (len + n) (take pos sl2 ++ new ++ drop (pos + n) sl2)
  = take pos (take len sl) ++ new ++ drop pos (take len sl).
Proof.
  intros Hp Hl Hn sl2.
  assert (E1 : take pos sl2 = take pos sl).
  { unfold sl2. rewrite take_app_le by (rewrite length_take; lia).
    rewrite take_take. f_equal. lia. }
  assert (E2 : drop (pos + n) sl2
               = take (len - pos) (drop pos sl) ++ drop (pos + n + (len - pos)) sl).
  { unfold sl2. apply drop_app_length'. rewrite length_take. lia. }
  rewrite E1, E2, take_take, Nat.min_l by lia.
  rewrite (take_drop_commute sl (len - pos) pos).
  replace (pos + (len - pos))%nat with len by lia.
  rewrite !app_assoc. apply take_app_length'.
  rewrite !length_app, length_take, length_drop, length_take. lia.
Qed.

(** The tail moved left over [n] removed slots. *)
Lemma slots_remove sl (pos len n : nat) :
  (pos + n <= len)%nat -> (len <= length sl)%nat ->
  let sl2 := take pos sl ++ take (len - (pos + n)) (drop (pos + n) sl)
             ++ drop (pos + (len - (pos + n))) sl in
  take (len - n) sl2 = take pos (take len sl) ++ drop (pos + n) (take len sl).
Proof.
  intros Hp Hl sl2. unfold sl2.
  rewrite take_take, Nat.min_l by lia.
  rewrite (take_drop_commute sl (len - (pos + n)) (pos + n)).
  replace (pos + n + (len - (pos + n)))%nat with len by lia.
  rewrite !app_assoc. apply take_app_length'.
  rewrite !length_app, length_take, length_drop, length_take. lia.
Qed.

Lemma slots_insert_length sl new (pos len n : nat) :
  (pos <= len)%nat -> (len + n <= length sl)%nat -> length new = n ->
  let sl2 := take (pos + n) sl ++ take (len - pos) (drop pos sl)
             ++ drop (pos + n + (len - pos)) sl in
  length sl2 = length sl /\
  length (take pos sl2 ++ new ++ drop (pos + n) sl2) = length sl.
Proof.
  intros Hp Hl Hn sl2.
  assert (E : length sl2 = length sl).
  { unfold sl2. rewrite !length_app, !length_take, !length_drop. lia. }
  split; [assumption|].
  rewrite !length_app, length_take, length_drop. lia.
Qed.

Lemma slots_remove_length sl (pos len n : nat) :
  (pos + n <= len)%nat -> (len <= length sl)%nat ->
  length (take pos sl ++ take (len - (pos + n)) (drop (pos + n) sl)
          ++ drop (pos + (len - (pos + n))) sl) = length sl.
Proof.
  intros Hp Hl. rewrite !length_app, !length_take, !length_drop. lia.
Qed.


End Slots.

Lemma is_buffer_outside h v p k :
  is_buffer h v p k ->
  exists b bs, pbase p = Some b /\ live h b = Some bs /\ 0 <= poff p /\
               poff p + k <= Z.of_nat (length bs) /\ outside h v b.
Proof.
  intros (b & bs & Hp & Hl & Ho & Hk & Hne). exists b, bs.
  repeat split; try assumption. eapply live_lt; eauto.
Qed.

Lemma grown_cap_ge c n : 0 <= c -> n <= grown_cap c n /\ c <= grown_cap c n.
Proof.
  intros. unfold grown_cap.
  destruct (Z.leb_spec n c); [lia|].
  destruct (Z.eqb_spec c 0); [lia|].
  destruct (Z.ltb_spec (2 * c) n); lia.
Qed.

Section Public.

Variable junk : block -> nat -> byte.
Variable moves : block -> Z -> bool.

Lemma vec_reserve_rep v h n :
  is_array h v -> 0 < size v -> 0 < n ->
  grown_cap (cap v) n * size v <= PTRDIFF_MAX ->
  exists v' h' b' sl',
    vec_reserve junk moves v n h = Some (v', h') /\ rep h' v' b' sl' /\
    cap v' = grown_cap (cap v) n /\ len v' = len v /\ size v' = size v /\
    (forall es, vec_elems h v = Some es -> take (Z.to_nat (len v)) sl' = es) /\
    (forall b0, outside h v b0 ->
                h' !! b0 = h !! b0 /\ b0 <> b' /\ (b0 < length h')%nat).
Proof.
  intros Ha Hs Hn Hfit. pose proof Ha as (Hsz & Hlen & Hcap & Hblk).
  unfold grown_cap in *.
  destruct (Z.leb_spec n (cap v)) as [Hle|Hlt].
  - destruct (is_array_rep _ _ Ha Hs) as (b & sl & R); [lia|].
    exists v, h, b, sl. rewrite vec_reserve_noop by assumption.
    split_and!; try assumption; try reflexivity.
    + intros es E. rewrite (rep_elems _ _ _ _ R) in E. congruence.
    + intros b0 [Hb0 H]. split_and!; [reflexivity| |assumption].
      destruct R as (Hptr & _). rewrite Hptr in H.
      intros ->. apply H; [lia|reflexivity].
  - destruct (Z.eqb_spec (cap v) 0) as [Hc0|Hc0].
    + destruct (vec_reserve_alloc junk moves v h n) as (sl & E & R);
        try assumption; try lia.
      eexists _, _, (length h), sl. split; [exact E|].
      split; [exact R|]. simpl.
      split_and!; try lia.
      * intros es Hes. rewrite empty_elems in Hes by lia.
        replace (len v) with 0 by lia. injection Hes as <-. reflexivity.
      * intros b0 [Hb0 _]. split_and!; [now apply lookup_app_l|lia|].
        rewrite length_app. simpl. lia.
    + destruct (is_array_rep _ _ Ha Hs Hc0) as (b & sl & R).
      destruct (vec_reserve_grow junk moves v h b sl n R Hc0 Hlt Hfit)
        as (b' & sl' & h' & E & R' & Ht & Hlh & Hb' & Hfr).
      eexists _, h', b', sl'. split; [exact E|].
      split; [exact R'|]. simpl.
      split_and!; try lia.
      * intros es Hes. rewrite (rep_elems _ _ _ _ R) in Hes.
        injection Hes as <-. rewrite <- Ht, take_take. f_equal. lia.
      * intros b0 [Hb0 H].
        assert (b0 <> b).
        { intros ->. destruct R as (Hptr & _). rewrite Hptr in H. now apply H. }
        split_and!; [now apply Hfr|lia|lia].
Qed.

End Public.

Lemma rep_set_len h v b sl l :
  rep h v b sl -> 0 <= l <= cap v ->
  rep h (mkVec (ptr v) (cap v) l (size v)) b sl.
Proof. intros (?&?&?&?&?&?&?) ?. repeat split; simpl; try assumption; lia. Qed.

Lemma elems_at_bytes h p sz k l :
  0 <= sz -> 0 <= k -> elems_at h p sz k = Some l ->
  load p (k * sz) h = Some (concat l) /\ length l = Z.to_nat k /\
  uniform (Z.to_nat sz) l.
Proof.
  intros Hs Hk. unfold elems_at.
  destruct (load p (k * sz) h) as [bs|] eqn:E; [|discriminate].
  intros [= <-]. apply load_length in E; [|nia].
  assert (length bs = (Z.to_nat k * Z.to_nat sz)%nat) by nia.
  rewrite concat_chunks_all by assumption.
  repeat split.
  - apply length_chunks.
  - apply uniform_chunks. lia.
Qed.

Section Insert.

Variable junk : block -> nat -> byte.
Variable moves : block -> Z -> bool.

Lemma vec_insert_n_spec v h elems n pos es new :
  is_array h v -> 0 < size v -> vec_elems h v = Some es ->
  0 <= pos <= len v -> 0 < n ->
  is_buffer h v elems (n * size v) -> elems_at h elems (size v) n = Some new ->
  grown_cap (cap v) (len v + n) * size v <= PTRDIFF_MAX ->
  exists v' h' b',
    vec_insert_n junk moves v elems n pos h = Some (v', h') /\
    is_array h' v' /\ ptr v' = mkptr (Some b') 0 /\ cap v' <> 0 /\
    size v' = size v /\ len v' = len v + n /\
    cap v' = grown_cap (cap v) (len v + n) /\
    vec_elems h' v' =
      Some (take (Z.to_nat pos) es ++ new ++ drop (Z.to_nat pos) es) /\
    (forall b0, outside h v b0 -> h' !! b0 = h !! b0 /\ outside h' v' b0).
Proof.
  intros Ha Hs Hes Hpos Hn Hbuf Hnew Hfit.
  pose proof Ha as (Hsz & Hlen & Hcap & _).
  pose proof (grown_cap_ge (cap v) (len v + n) ltac:(lia)) as [Hg1 Hg2].
  pose proof PTRDIFF_lt_SIZE as HPS.
  assert (Hsum : len v + n <= PTRDIFF_MAX) by nia.
  destruct (vec_reserve_rep junk moves v h (len v + n) Ha Hs ltac:(lia) Hfit)
    as (v1 & h1 & b1 & sl1 & E1 & R1 & Hc1 & Hl1 & Hs1 & Hel & Hfr1).
  pose proof R1 as (Hptr1 & Hlive1 & Hlsl1 & Hu1 & _).
  destruct (is_buffer_outside _ _ _ _ Hbuf) as (be & bse & Hpe & Hle & Hoe & Hre & Hout).
  destruct (elems_at_bytes h elems (size v) n new ltac:(lia) ltac:(lia) Hnew)
    as (Hload & Hlnew & Hunew).
  set (p := Z.to_nat pos). set (l := Z.to_nat (len v)). set (k := Z.to_nat n).
  set (sl2 := take (p + k) sl1 ++ take (l - p) (drop p sl1)
              ++ drop (p + k + (l - p)) sl1).
  set (sl3 := take p sl2 ++ new ++ drop (p + k) sl2).
  destruct (slots_insert_length sl1 new p l k) as [Hlen2 Hlen3]; try lia.
  assert (Hu2 : uniform (Z.to_nat (size v1)) sl2).
  { unfold sl2. repeat apply uniform_app;
      auto using uniform_take, uniform_drop. }
  assert (Hu3 : uniform (Z.to_nat (size v1)) sl3).
  { unfold sl3. rewrite Hs1. repeat apply uniform_app;
      rewrite <- ?Hs1; auto using uniform_take, uniform_drop.
    now rewrite Hs1. }
  pose proof (rep_update _ _ _ _ sl2 R1 Hlen2 Hu2) as R2.
  set (h2 := <[b1 := Some (concat sl2)]> h1) in *.
  assert (Hlen3' : length sl3 = length sl2)
    by (transitivity (length sl1); [exact Hlen3|symmetry; exact Hlen2]).
  pose proof (rep_update _ _ _ _ sl3 R2 Hlen3' Hu3) as R3.
  set (h3 := <[b1 := Some (concat sl3)]> h2) in *.
  assert (R4 : rep h3 (mkVec (ptr v1) (cap v1) (len v + n) (size v1)) b1 sl3)
    by (apply rep_set_len; [exact R3|lia]).
  exists (mkVec (ptr v1) (cap v1) (len v + n) (size v1)), h3, b1.
  split.
  { unfold vec_insert_n. destruct (Z.leb_spec pos (len v)); [|lia].
    rewrite (wrap_small (len v + n)) by lia.
    rewrite (bind_step _ _ _ _ _ E1).
    rewrite (wrap_small (pos + n)), Hl1, (wrap_small (len v - pos)),
      (wrap_small (len v + n)) by lia.
    rewrite (bind_step _ _ h1 tt h2).
    2:{ rewrite (v_move_rep _ _ _ _ _ _ _ R1) by lia.
        unfold h2, sl2, p, l, k. rewrite !Z2Nat.inj_add, !Z2Nat.inj_sub by lia.
        reflexivity. }
    rewrite (bind_step _ _ h2 tt h3); [reflexivity|].
    rewrite (v_cpy_rep _ _ _ _ _ _ _ new R2); try lia.
    - reflexivity.
    - rewrite Hs1, <- Hload. apply load_frame. intros b Hb.
      assert (b = be) by congruence. subst b.
      destruct (Hfr1 _ Hout) as (Hsame & Hne & _).
      unfold h2. rewrite list_lookup_insert_ne by congruence. exact Hsame.
    - now rewrite Hs1. }
  split; [eapply rep_is_array; exact R4|].
  split; [exact Hptr1|]. simpl.
  split; [lia|]. split; [exact Hs1|]. split; [reflexivity|]. split; [exact Hc1|].
  split.
  - rewrite (rep_elems _ _ _ _ R4). simpl. f_equal.
    replace (Z.to_nat (len v + n)) with (l + k)%nat by (unfold l, k; lia).
    unfold sl3, sl2. rewrite slots_insert by (unfold p, l, k; lia).
    pose proof (Hel es Hes) as Hes1. fold l in Hes1. rewrite Hes1. reflexivity.
  - intros b0 Hb0. destruct (Hfr1 _ Hb0) as (Hsame & Hne & Hlt).
    split.
    + unfold h3, h2. rewrite !list_lookup_insert_ne by congruence. exact Hsame.
    + split.
      * unfold h3, h2. rewrite !length_insert. exact Hlt.
      * simpl. rewrite Hptr1. simpl. intros _. congruence.
Qed.

End Insert.

Lemma elems_at_concat h p sz k l :
  0 <= sz -> 0 <= k -> load p (k * sz) h = Some (concat l) ->
  length l = Z.to_nat k -> uniform (Z.to_nat sz) l ->
  elems_at h p sz k = Some l.
Proof.
  intros Hs Hk Hload Hl Hu. unfold elems_at. rewrite Hload. f_equal.
  rewrite <- Hl. now apply chunks_concat_nil.
Qed.

Lemma vec_elems_length h v es :
  0 <= len v -> vec_elems h v = Some es -> length es = Z.to_nat (len v).
Proof.
  intros Hl. unfold vec_elems, elems_at.
  destruct (load _ _ _); [|discriminate]. intros [= <-]. apply length_chunks.
Qed.

Lemma vec_remove_n_spec v h out n pos es :
  is_array h v -> 0 < size v -> vec_elems h v = Some es ->
  0 <= pos -> 0 < n -> pos + n <= len v ->
  is_buffer h v out (n * size v) ->
  exists h',
    vec_remove_n v pos out n h =
      Some (mkVec (ptr v) (cap v) (len v - n) (size v), h') /\
    is_array h' (mkVec (ptr v) (cap v) (len v - n) (size v)) /\
    vec_elems h' (mkVec (ptr v) (cap v) (len v - n) (size v)) =
      Some (take (Z.to_nat pos) es ++ drop (Z.to_nat pos + Z.to_nat n) es) /\
    elems_at h' out (size v) n =
      Some (take (Z.to_nat n) (drop (Z.to_nat pos) es)) /\
    length h' = length h /\
    (forall b0, pbase out <> Some b0 -> outside h v b0 -> h' !! b0 = h !! b0).
Proof.
  intros Ha Hs Hes Hpos Hn Hle Hbuf.
  pose proof Ha as (Hsz & Hlen & Hcap & _).
  destruct (is_array_rep _ _ Ha Hs) as (b & sl & R); [lia|].
  pose proof R as (Hptr & Hlive & Hlsl & Hu & _ & _ & Hfit).
  destruct (is_buffer_outside _ _ _ _ Hbuf) as (bo & bso & Hpo & Hlo & Hoo & Hro & Hout).
  assert (Hne : bo <> b).
  { destruct Hout as [_ H]. rewrite Hptr in H. intros ->. apply H; [lia|reflexivity]. }
  destruct (v_cpy_to_rep h v b sl out pos n bo bso R) as (bs' & E1 & Hl' & Hload);
    try assumption; try lia.
  set (h1 := <[bo := Some bs']> h) in *.
  assert (R1 : rep h1 v b sl).
  { apply (rep_frame h); [assumption|]. unfold h1. now apply list_lookup_insert_ne. }
  set (p := Z.to_nat pos). set (l := Z.to_nat (len v)). set (k := Z.to_nat n).
  set (sl2 := take p sl ++ take (l - (p + k)) (drop (p + k) sl)
              ++ drop (p + (l - (p + k))) sl).
  assert (Hlen2 : length sl2 = length sl)
    by (apply slots_remove_length; unfold p, l, k; lia).
  assert (Hu2 : uniform (Z.to_nat (size v)) sl2).
  { unfold sl2. repeat apply uniform_app; auto using uniform_take, uniform_drop. }
  pose proof (rep_update _ _ _ _ sl2 R1 Hlen2 Hu2) as R2.
  set (h2 := <[b := Some (concat sl2)]> h1) in *.
  assert (Hmove : (if wrap (pos + n) <? len v
                   then v_move v pos (v_at v (wrap (pos + n)))
                          (wrap (len v - wrap (pos + n)))
                   else ret tt) h1 = Some (tt, h2)).
  { pose proof PTRDIFF_lt_SIZE. pose proof (rep_bytes _ _ _ _ R).
    assert (cap v <= PTRDIFF_MAX) by nia.
    rewrite (wrap_small (pos + n)) by lia.
    rewrite (wrap_small (len v - (pos + n))) by lia.
    destruct (Z.ltb_spec (pos + n) (len v)).
    - rewrite (v_move_rep _ _ _ _ _ _ _ R1) by lia.
      unfold h2, sl2, p, l, k. rewrite !Z2Nat.inj_sub, !Z2Nat.inj_add by lia.
      reflexivity.
    - unfold ret. do 2 f_equal. unfold h2. symmetry. apply list_insert_id.
      destruct R1 as (_ & Hb1 & _). unfold live in Hb1.
      destruct (h1 !! b) as [[x|]|]; try discriminate.
      injection Hb1 as ->. do 2 f_equal. unfold sl2.
      replace (l - (p + k))%nat with 0%nat by (unfold p, l, k; lia).
      rewrite take_0, Nat.add_0_r. simpl. now rewrite take_drop. }
  assert (R3 : rep h2 (mkVec (ptr v) (cap v) (len v - n) (size v)) b sl2)
    by (apply rep_set_len; [exact R2|lia]).
  assert (Hes' : es = take l sl).
  { rewrite (rep_elems _ _ _ _ R) in Hes. injection Hes as <-. reflexivity. }
  exists h2. split.
  { unfold vec_remove_n. pose proof PTRDIFF_lt_SIZE. pose proof (rep_bytes _ _ _ _ R).
    assert (cap v <= PTRDIFF_MAX) by nia.
    rewrite (wrap_small (pos + n - 1)) by lia.
    destruct (Z.ltb_spec (pos + n - 1) (len v)); [|lia].
    rewrite (is_null_false _ _ Hpo). simpl negb. cbv iota.
    rewrite (bind_step _ _ _ _ _ E1).
    rewrite (bind_step _ _ _ _ _ Hmove).
    rewrite (wrap_small (len v - n)) by lia. reflexivity. }
  split; [eapply rep_is_array; exact R3|].
  split; [|split; [|split]].
  - rewrite (rep_elems _ _ _ _ R3). simpl. f_equal.
    replace (Z.to_nat (len v - n)) with (l - k)%nat by (unfold l, k; lia).
    unfold sl2. rewrite slots_remove by (unfold p, l, k; lia).
    rewrite Hes'. reflexivity.
  - apply elems_at_concat; try lia.
    + replace (load out (n * size v) h2) with (load out (n * size v) h1).
      * rewrite Hload. do 2 f_equal. rewrite Hes'. fold p k.
        rewrite (take_drop_commute (take l sl)), take_take.
        rewrite (take_drop_commute sl). do 2 f_equal. unfold p, l, k. lia.
      * symmetry. apply load_frame. intros b0 Hb0.
        unfold h2. apply list_lookup_insert_ne. congruence.
    + rewrite length_take, length_drop.
      apply vec_elems_length in Hes; lia.
    + apply uniform_take, uniform_drop. rewrite Hes'. now apply uniform_take.
  - unfold h2, h1. now rewrite !length_insert.
  - intros b0 Hb0 [_ Hb0']. unfold h2, h1.
    rewrite !list_lookup_insert_ne; [reflexivity|congruence|].
    intros ->. rewrite Hptr in Hb0'. apply Hb0'; [lia|reflexivity].
Qed.

Lemma vec_pop_spec v h out es :
  is_array h v -> 0 < size v -> vec_elems h v = Some es -> 0 < len v ->
  is_buffer h v out (size v) ->
  exists h',
    vec_pop v out h = Some (mkVec (ptr v) (cap v) (len v - 1) (size v), h') /\
    is_array h' (mkVec (ptr v) (cap v) (len v - 1) (size v)) /\
    vec_elems h' (mkVec (ptr v) (cap v) (len v - 1) (size v)) =
      Some (take (Z.to_nat (len v - 1)) es) /\
    elems_at h' out (size v) 1 = Some (drop (Z.to_nat (len v - 1)) es).
Proof.
  intros Ha Hs Hes Hlen Hbuf.
  pose proof Ha as (Hsz & Hl & Hcap & _).
  destruct (is_array_rep _ _ Ha Hs) as (b & sl & R); [lia|].
  pose proof R as (Hptr & Hlive & Hlsl & Hu & _ & _ & Hfit).
  destruct (is_buffer_outside _ _ _ _ Hbuf) as (bo & bso & Hpo & Hlo & Hoo & Hro & Hout).
  assert (Hne : bo <> b).
  { destruct Hout as [_ H]. rewrite Hptr in H. intros ->. apply H; [lia|reflexivity]. }
  pose proof PTRDIFF_lt_SIZE. pose proof (rep_bytes _ _ _ _ R).
  assert (cap v <= PTRDIFF_MAX) by nia.
  destruct (v_cpy_to_rep h v b sl out (len v - 1) 1 bo bso R) as (bs' & E1 & Hl' & Hload);
    try assumption; try lia.
  set (h1 := <[bo := Some bs']> h) in *.
  assert (R1 : rep h1 (mkVec (ptr v) (cap v) (len v - 1) (size v)) b sl).
  { apply rep_set_len; [|lia]. apply (rep_frame h); [assumption|].
    unfold h1. now apply list_lookup_insert_ne. }
  assert (Hes' : es = take (Z.to_nat (len v)) sl).
  { rewrite (rep_elems _ _ _ _ R) in Hes. injection Hes as <-. reflexivity. }
  exists h1. split.
  { unfold vec_pop. destruct (Z.eqb_spec (len v) 0); [lia|]. cbn [negb].
    rewrite (is_null_false _ _ Hpo). cbn [negb].
    rewrite (wrap_small (len v - 1)) by lia.
    rewrite (bind_step _ _ _ _ _ E1). reflexivity. }
  split; [eapply rep_is_array; exact R1|].
  split.
  - rewrite (rep_elems _ _ _ _ R1). simpl. f_equal.
    rewrite Hes', take_take. f_equal. lia.
  - apply elems_at_concat; try lia.
    + rewrite Z.mul_1_l in *. rewrite Hload. do 2 f_equal. rewrite Hes'.
      rewrite (take_drop_commute sl). do 2 f_equal. lia.
    + rewrite length_drop. apply vec_elems_length in Hes; lia.
    + apply uniform_drop. rewrite Hes'. now apply uniform_take.
Qed.

(** Buffers survive an operation that leaves their block alone. *)
Lemma is_buffer_frame h h' v v' p k :
  is_buffer h v p k ->
  (forall b0, outside h v b0 -> h' !! b0 = h !! b0 /\ outside h' v' b0) ->
  is_buffer h' v' p k /\ load p k h' = load p k h.
Proof.
  intros Hbuf Hfr.
  destruct (is_buffer_outside _ _ _ _ Hbuf) as (b & bs & Hp & Hl & Ho & Hr & Hout).
  destruct (Hfr _ Hout) as [Hsame [Hlt Hne]].
  split.
  - exists b, bs. repeat split; try assumption.
    unfold live in *. now rewrite Hsame.
  - apply load_frame. intros b0 Hb0. congruence.
Qed.

Section RoundTrips.

Variable junk : block -> nat -> byte.
Variable moves : block -> Z -> bool.



End RoundTrips.

(** ** Exchange sort on a list *)

Section ExchangeSort.

Context {A : Type} (gt : A -> A -> bool) (P : A -> Prop).

Hypothesis gt_asym : forall a b, P a -> P b -> gt a b = true -> gt b a = false.
Hypothesis le_trans : forall a b c, P a -> P b -> P c ->
  gt a b = false -> gt b c = false -> gt a c = false.

Lemma length_exchange l i j : length (exchange gt l i j) = length l.
Proof.
  unfold exchange. destruct (l !! i), (l !! j); try reflexivity.
  destruct (gt _ _); [|reflexivity]. now rewrite !length_insert.
Qed.

Lemma exchange_perm l i j : exchange gt l i j ≡ₚ l.
Proof.
  unfold exchange. destruct (l !! i) eqn:Ei, (l !! j) eqn:Ej; try reflexivity.
  destruct (gt _ _); [|reflexivity]. now apply Permutation_insert_swap.
Qed.

Lemma exchange_Forall l i j : Forall P l -> Forall P (exchange gt l i j).
Proof. intros H. now rewrite exchange_perm. Qed.

Lemma length_inner_loop k l i j : length (inner_loop gt k l i j) = length l.
Proof.
  revert l j. induction k; intros; simpl; [reflexivity|].
  now rewrite IHk, length_exchange.
Qed.

Lemma inner_loop_perm k l i j : inner_loop gt k l i j ≡ₚ l.
Proof.
  revert l j. induction k; intros; simpl; [reflexivity|].
  now rewrite IHk, exchange_perm.
Qed.

Lemma length_outer_loop k l i : length (outer_loop gt k l i) = length l.
Proof.
  revert l i. induction k; intros; simpl; [reflexivity|].
  now rewrite IHk, length_inner_loop.
Qed.

Lemma outer_loop_perm k l i : outer_loop gt k l i ≡ₚ l.
Proof.
  revert l i. induction k; intros; simpl; [reflexivity|].
  now rewrite IHk, inner_loop_perm.
Qed.

Lemma exchange_sort_perm l : exchange_sort gt l ≡ₚ l.
Proof. apply outer_loop_perm. Qed.

(** What an exchange gt leaves at each place. *)
Lemma lookup_exchanged (l : list A) (i j : nat) (a b : A) (k : nat) :
  l !! i = Some a -> l !! j = Some b -> i <> j ->
  <[j := a]> (<[i := b]> l) !! k =
    if decide (k = j) then Some a else if decide (k = i) then Some b else l !! k.
Proof.
  intros Hi Hj Hne.
  apply lookup_lt_Some in Hi as Hi'. apply lookup_lt_Some in Hj as Hj'.
  destruct (decide (k = j)) as [->|].
  - apply list_lookup_insert_eq. now rewrite length_insert.
  - rewrite list_lookup_insert_ne by congruence.
    destruct (decide (k = i)) as [->|].
    + now apply list_lookup_insert_eq.
    + now rewrite list_lookup_insert_ne by congruence.
Qed.

(** The inner loop: [l !! i] is never to be exchanged with what it has
    gone over. *)
Lemma exchange_inv (l : list A) (i j : nat) :
  Forall P l -> (i < j)%nat -> (j < length l)%nat ->
  in_order_upto gt i l ->
  (forall k x y, (i < k < j)%nat -> l !! i = Some x -> l !! k = Some y -> gt x y = false) ->
  in_order_upto gt i (exchange gt l i j) /\
  (forall k x y, (i < k < S j)%nat -> exchange gt l i j !! i = Some x ->
                 exchange gt l i j !! k = Some y -> gt x y = false).
Proof.
  intros HP Hij Hj Hup Hin.
  destruct (lookup_lt_is_Some_2 l i ltac:(lia)) as [a Ha].
  destruct (lookup_lt_is_Some_2 l j Hj) as [b Hb].
  assert (Pa : P a) by (eapply Forall_lookup_1; eauto).
  assert (Pb : P b) by (eapply Forall_lookup_1; eauto).
  unfold exchange. rewrite Ha, Hb.
  destruct (gt a b) eqn:G.
  - assert (Hba : gt b a = false) by now apply gt_asym.
    split.
    + intros p q x y Hp Hpq Hx Hy.
      rewrite (lookup_exchanged l i j a b) in Hx, Hy by (assumption || lia).
      destruct (decide (p = j)); [lia|]. destruct (decide (p = i)); [lia|].
      destruct (decide (q = j)) as [->|].
      { injection Hy as <-. now apply (Hup p i x a). }
      destruct (decide (q = i)) as [->|].
      { injection Hy as <-. now apply (Hup p j x b); try lia. }
      now apply (Hup p q x y).
    + intros k x y Hk Hx Hy.
      rewrite (lookup_exchanged l i j a b) in Hx, Hy by (assumption || lia).
      destruct (decide (i = j)); [lia|]. destruct (decide (i = i)); [|lia].
      injection Hx as <-.
      destruct (decide (k = j)) as [->|].
      { now injection Hy as <-. }
      destruct (decide (k = i)); [lia|].
      assert (Py : P y) by (eapply Forall_lookup_1; eauto).
      apply (le_trans b a y); try assumption.
      apply (Hin k a y); [lia|assumption|assumption].
  - split; [assumption|].
    intros k x y Hk Hx Hy. rewrite Ha in Hx. injection Hx as <-.
    destruct (decide (k = j)) as [->|].
    + rewrite Hb in Hy. now injection Hy as <-.
    + apply (Hin k a y); [lia|assumption|assumption].
Qed.

Lemma inner_loop_inv k (l : list A) (i j : nat) :
  Forall P l -> (i < j)%nat -> (j + k = length l)%nat ->
  in_order_upto gt i l ->
  (forall m x y, (i < m < j)%nat -> l !! i = Some x -> l !! m = Some y -> gt x y = false) ->
  in_order_upto gt (S i) (inner_loop gt k l i j).
Proof.
  revert l j. induction k; intros l j HP Hij Hk Hup Hin; simpl.
  - intros a b x y Ha Hab Hx Hy.
    destruct (decide (a = i)) as [->|].
    + apply (Hin b x y); try assumption.
      apply lookup_lt_Some in Hy. lia.
    + apply (Hup a b x y); try assumption. lia.
  - destruct (exchange_inv l i j HP Hij ltac:(lia) Hup Hin) as [Hup' Hin'].
    apply IHk; try assumption.
    + now apply exchange_Forall.
    + lia.
    + rewrite length_exchange. lia.
Qed.

Lemma outer_loop_inv k l i :
  Forall P l -> (i + k = length l)%nat -> in_order_upto gt i l ->
  in_order gt (outer_loop gt k l i).
Proof.
  revert l i. induction k; intros l i HP Hk Hup; simpl.
  - intros a b x y Hab Hx Hy. apply (Hup a b x y); try assumption.
    apply lookup_lt_Some in Hy. lia.
  - apply IHk.
    + now rewrite inner_loop_perm.
    + rewrite length_inner_loop. lia.
    + apply inner_loop_inv; try assumption; try lia.
Qed.

Theorem exchange_sort_in_order l : Forall P l -> in_order gt (exchange_sort gt l).
Proof.
  intros HP. apply outer_loop_inv; [assumption|lia|].
  intros a b x y Ha. lia.
Qed.

(** A list in order is left as it is. *)
Lemma exchange_in_order l i j : in_order gt l -> (i < j)%nat -> exchange gt l i j = l.
Proof.
  intros Hs Hij. unfold exchange.
  destruct (l !! i) as [a|] eqn:Ha, (l !! j) as [b|] eqn:Hb; try reflexivity.
  now rewrite (Hs i j a b Hij Ha Hb).
Qed.

Lemma inner_loop_in_order k l i j :
  in_order gt l -> (i < j)%nat -> inner_loop gt k l i j = l.
Proof.
  revert j. induction k; intros j Hs Hij; simpl; [reflexivity|].
  rewrite exchange_in_order by assumption. apply IHk; [assumption|lia].
Qed.

Lemma outer_loop_in_order k l i : in_order gt l -> outer_loop gt k l i = l.
Proof.
  revert i. induction k; intros i Hs; simpl; [reflexivity|].
  rewrite inner_loop_in_order by (assumption || lia). now apply IHk.
Qed.

Theorem exchange_sort_idempotent l :
  Forall P l -> exchange_sort gt (exchange_sort gt l) = exchange_sort gt l.
Proof.
  intros HP. apply outer_loop_in_order. now apply exchange_sort_in_order.
Qed.

End ExchangeSort.

(** ** Comparing bytes *)

Lemma byte_val_range x : 0 <= byte_val x <= 255.
Proof.
  unfold byte_val. pose proof (Strings.Byte.to_N_bounded x). lia.
Qed.

Lemma cmp_bytes_opp a b : cmp_bytes b a = - cmp_bytes a b.
Proof.
  revert b. induction a as [|x a IH]; intros [|y b]; simpl; try reflexivity.
  rewrite (Z.eqb_sym (byte_val y)).
  destruct (Z.eqb_spec (byte_val x) (byte_val y)); [apply IH|lia].
Qed.

Lemma cmp_bytes_range a b : -255 <= cmp_bytes a b <= 255.
Proof.
  revert b. induction a as [|x a IH]; intros [|y b]; simpl; try lia.
  pose proof (byte_val_range x). pose proof (byte_val_range y).
  destruct (Z.eqb_spec (byte_val x) (byte_val y)); [apply IH|lia].
Qed.

Lemma cmp_bytes_trans a b c :
  length a = length b -> length b = length c ->
  cmp_bytes a b <= 0 -> cmp_bytes b c <= 0 -> cmp_bytes a c <= 0.
Proof.
  revert b c. induction a as [|x a IH]; intros [|y b] [|z c]; simpl;
    try lia; try discriminate.
  intros [= Hab] [= Hbc].
  destruct (Z.eqb_spec (byte_val x) (byte_val y)),
           (Z.eqb_spec (byte_val y) (byte_val z)),
           (Z.eqb_spec (byte_val x) (byte_val z)); try lia.
  now apply IH.
Qed.

Lemma sort_gt_asym order a b : sort_gt order a b = true -> sort_gt order b a = false.
Proof.
  unfold sort_gt. rewrite (cmp_bytes_opp a b).
  destruct (Z.ltb_spec 0 (cmp_bytes a b * order)); [|discriminate].
  intros _. apply Z.ltb_ge. lia.
Qed.

Lemma sort_gt_trans order sz a b c :
  length a = sz -> length b = sz -> length c = sz ->
  sort_gt order a b = false -> sort_gt order b c = false -> sort_gt order a c = false.
Proof.
  unfold sort_gt. intros La Lb Lc Hab Hbc.
  apply Z.ltb_ge in Hab, Hbc. apply Z.ltb_ge.
  destruct (Z.lt_trichotomy order 0) as [Ho|[->|Ho]]; [| lia |].
  - assert (cmp_bytes c a <= 0).
    { apply (cmp_bytes_trans c b a); try congruence;
        rewrite cmp_bytes_opp; nia. }
    rewrite (cmp_bytes_opp c a). nia.
  - assert (cmp_bytes a c <= 0) by (apply (cmp_bytes_trans a b c); try congruence; nia).
    nia.
Qed.

Lemma in_order_ascending order l :
  0 < order -> in_order (sort_gt order) l -> ascending l.
Proof.
  intros Ho H i j a b Hij Ha Hb. specialize (H i j a b Hij Ha Hb).
  unfold sort_gt in H. apply Z.ltb_ge in H. unfold bytes_le. nia.
Qed.

Lemma in_order_descending order l :
  order < 0 -> in_order (sort_gt order) l -> descending l.
Proof.
  intros Ho H i j a b Hij Ha Hb. specialize (H i j a b Hij Ha Hb).
  unfold sort_gt in H. apply Z.ltb_ge in H. unfold bytes_le.
  rewrite cmp_bytes_opp. nia.
Qed.

(** ** Comparing and exchanging slots *)

Lemma take1_drop {A} (l : list A) i a : l !! i = Some a -> take 1 (drop i l) = [a].
Proof. intros H. now rewrite (drop_S _ _ _ H). Qed.

Lemma rep_load_slot h v b sl pos s :
  rep h v b sl -> 0 <= pos -> sl !! Z.to_nat pos = Some s ->
  load (v_at v pos) (wrap (1 * size v)) h = Some s.
Proof.
  intros R Hpos Hs. apply lookup_lt_Some in Hs as Hlt.
  pose proof R as (_ & _ & Hl & _).
  rewrite (rep_load h v b sl pos 1 R) by lia.
  change (Z.to_nat 1) with 1%nat.
  rewrite (take1_drop _ _ _ Hs). simpl. now rewrite app_nil_r.
Qed.

Lemma v_cmp_rep h v b sl i j a c :
  rep h v b sl -> 0 <= i -> 0 <= j ->
  sl !! Z.to_nat i = Some a -> sl !! Z.to_nat j = Some c ->
  v_cmp v i (v_at v j) 1 h = Some (cmp_bytes a c, h).
Proof.
  intros R Hi Hj Ha Hc. unfold v_cmp, memcmp.
  rewrite (rep_load_slot _ _ _ _ _ _ R Hi Ha), (rep_load_slot _ _ _ _ _ _ R Hj Hc).
  reflexivity.
Qed.

Lemma vec_swap_rep h v b sl pos1 pos2 tmp s1 s2 bt bst :
  rep h v b sl -> 0 <= pos1 -> 0 <= pos2 ->
  sl !! Z.to_nat pos1 = Some s1 -> sl !! Z.to_nat pos2 = Some s2 ->
  pbase tmp = Some bt -> bt <> b -> live h bt = Some bst ->
  0 <= poff tmp -> poff tmp + size v <= Z.of_nat (length bst) ->
  exists bst',
    length bst' = length bst /\
    vec_swap v pos1 pos2 tmp h =
      Some (tt, <[b := Some (concat (<[Z.to_nat pos2 := s1]>
                                       (<[Z.to_nat pos1 := s2]> sl)))]>
                  (<[bt := Some bst']> h)).
Proof.
  intros R Hp1 Hp2 Hs1 Hs2 Ht Hne Hbt Hoff Hroom.
  apply lookup_lt_Some in Hs1 as Hlt1. apply lookup_lt_Some in Hs2 as Hlt2.
  pose proof R as (Hptr & Hb & Hl & Hu & Hsz & Hlc & Hfit).
  assert (Us1 : length s1 = Z.to_nat (size v))
    by (eapply (Forall_lookup_1 _ _ _ _ Hu); eauto).
  assert (Us2 : length s2 = Z.to_nat (size v))
    by (eapply (Forall_lookup_1 _ _ _ _ Hu); eauto).
  destruct (v_cpy_to_rep h v b sl tmp pos1 1 bt bst R) as (bst' & E1 & Hl' & Hload);
    try assumption; try lia.
  change (Z.to_nat 1) with 1%nat in Hload.
  rewrite (take1_drop _ _ _ Hs1) in Hload. simpl in Hload. rewrite app_nil_r in Hload.
  set (h1 := <[bt := Some bst']> h) in *.
  assert (R1 : rep h1 v b sl).
  { apply (rep_frame h); [assumption|]. unfold h1. now apply list_lookup_insert_ne. }
  set (sl1 := <[Z.to_nat pos1 := s2]> sl).
  assert (E2 : v_cpy v pos1 (v_at v pos2) 1 h1 = Some (tt, <[b := Some (concat sl1)]> h1)).
  { rewrite (v_cpy_rep h1 v b sl pos1 (v_at v pos2) 1 [s2] R1); try lia.
    - unfold sl1. rewrite (insert_take_drop sl) by assumption.
      replace (Z.to_nat pos1 + Z.to_nat 1)%nat with (S (Z.to_nat pos1)) by lia.
      reflexivity.
    - simpl. rewrite app_nil_r.
      rewrite <- (rep_wrap _ _ _ _ 1 R1) by lia.
      now apply (rep_load_slot h1 v b sl).
    - reflexivity.
    - now repeat constructor. }
  assert (R2 : rep (<[b := Some (concat sl1)]> h1) v b sl1).
  { apply (rep_update h1 v b sl); [assumption|apply length_insert|].
    unfold sl1. apply Forall_insert; assumption. }
  set (h2 := <[b := Some (concat sl1)]> h1) in *.
  assert (Hlt2' : (Z.to_nat pos2 < length sl1)%nat)
    by (unfold sl1; now rewrite length_insert).
  assert (E3 : v_cpy v pos2 tmp 1 h2 =
               Some (tt, <[b := Some (concat (<[Z.to_nat pos2 := s1]> sl1))]> h2)).
  { rewrite (v_cpy_rep h2 v b sl1 pos2 tmp 1 [s1] R2); try lia.
    - rewrite (insert_take_drop sl1) by assumption.
      replace (Z.to_nat pos2 + Z.to_nat 1)%nat with (S (Z.to_nat pos2)) by lia.
      reflexivity.
    - simpl. rewrite app_nil_r. rewrite <- Hload. apply load_frame.
      intros b0 Hb0. unfold h2. apply list_lookup_insert_ne. congruence.
    - reflexivity.
    - now repeat constructor. }
  exists bst'. split; [assumption|].
  unfold vec_swap. rewrite (bind_step _ _ _ _ _ E1), (bind_step _ _ _ _ _ E2), E3.
  unfold h2. now rewrite list_insert_insert_eq.
Qed.

Lemma int_op_in_range z : INT_MIN <= z <= INT_MAX -> int_op z = Some z.
Proof.
  intros H. unfold int_op.
  destruct (Z.leb_spec INT_MIN z); [|lia].
  destruct (Z.leb_spec z INT_MAX); [|lia]. reflexivity.
Qed.

Lemma INT_MAX_lt_SIZE : INT_MAX < SIZE_MAX /\ INT_MIN = - INT_MAX - 1 /\ 0 < INT_MAX.
Proof. repeat split. Qed.

(** ** The loops of [vec_sort] *)

Section SortLoops.

Variables (v : Vec) (b : block) (rest : list (list byte)).
Variables (order : Z) (pval : pointer) (bt : block).

Hypothesis Horder : Z.abs order * 255 <= INT_MAX.
Hypothesis Hpval : pbase pval = Some bt.
Hypothesis Hbt : bt <> b.
Hypothesis Hoff : 0 <= poff pval.

(** One turn of the inner loop: the comparison and the exchange. *)
Lemma sort_step_rep h es i j bst :
  rep h v b (es ++ rest) -> Z.of_nat (length es) = len v ->
  live h bt = Some bst -> poff pval + size v <= Z.of_nat (length bst) ->
  0 <= i < len v -> 0 <= j < len v ->
  exists c h1 bst1,
    v_cmp v i (v_at v j) 1 h = Some (c, h) /\ -255 <= c <= 255 /\
    (if 0 <? c * order then vec_swap v i j pval else ret tt) h = Some (tt, h1) /\
    rep h1 v b (exchange (sort_gt order) es (Z.to_nat i) (Z.to_nat j) ++ rest) /\
    live h1 bt = Some bst1 /\ length bst1 = length bst /\
    length h1 = length h /\
    (forall b0, b0 <> b -> b0 <> bt -> h1 !! b0 = h !! b0).
Proof.
  intros R Hes Hlive Hroom Hi' Hj'.
  assert (Hi : (Z.to_nat i < length es)%nat) by lia.
  assert (Hj : (Z.to_nat j < length es)%nat) by lia.
  destruct (lookup_lt_is_Some_2 es _ Hi) as [a Ha].
  destruct (lookup_lt_is_Some_2 es _ Hj) as [c Hc].
  assert (Ha' : (es ++ rest) !! Z.to_nat i = Some a) by now rewrite lookup_app_l.
  assert (Hc' : (es ++ rest) !! Z.to_nat j = Some c) by now rewrite lookup_app_l.
  exists (cmp_bytes a c).
  unfold exchange, sort_gt. rewrite Ha, Hc.
  destruct (0 <? cmp_bytes a c * order).
  - destruct (vec_swap_rep h v b (es ++ rest) i j pval a c bt bst R)
      as (bst' & Hl' & E); try assumption; try lia.
    eexists _, bst'.
    split; [apply (v_cmp_rep h v b (es ++ rest)); (assumption || lia)|].
    split; [apply cmp_bytes_range|].
    split; [exact E|].
    assert (Hbt_lt : (bt < length h)%nat) by (eapply live_lt; eauto).
    assert (Hb_lt : (b < length h)%nat)
      by (destruct R as (_ & Hb & _); eapply live_lt; eauto).
    split_and!.
    + rewrite <- insert_app_l by (rewrite length_insert; assumption).
      rewrite <- insert_app_l by assumption.
      apply (rep_update _ v b (es ++ rest)).
      * apply (rep_frame h); [assumption|]. now apply list_lookup_insert_ne.
      * now rewrite !length_insert.
      * destruct R as (_ & _ & _ & Hu & _).
        assert (length a = Z.to_nat (size v))
          by (eapply (Forall_lookup_1 _ _ _ _ Hu); eauto).
        assert (length c = Z.to_nat (size v))
          by (eapply (Forall_lookup_1 _ _ _ _ Hu); eauto).
        repeat apply Forall_insert; assumption.
    + rewrite live_insert_ne by congruence. now apply live_insert_eq.
    + assumption.
    + now rewrite !length_insert.
    + intros b0 H1 H2. now rewrite !list_lookup_insert_ne by congruence.
  - exists h, bst.
    split; [apply (v_cmp_rep h v b (es ++ rest)); (assumption || lia)|].
    split; [apply cmp_bytes_range|].
    split_and!; try assumption; reflexivity.
Qed.

Lemma sort_inner_rep k : forall fuel h es i j bst,
  len v <= INT_MAX ->
  rep h v b (es ++ rest) -> Z.of_nat (length es) = len v ->
  live h bt = Some bst -> poff pval + size v <= Z.of_nat (length bst) ->
  0 <= i < j -> j + Z.of_nat k = len v -> (k < fuel)%nat ->
  exists h' bst',
    sort_inner fuel v order pval i j h = Some (tt, h') /\
    rep h' v b (inner_loop (sort_gt order) k es (Z.to_nat i) (Z.to_nat j) ++ rest) /\
    live h' bt = Some bst' /\ length bst' = length bst /\
    length h' = length h /\
    (forall b0, b0 <> b -> b0 <> bt -> h' !! b0 = h !! b0).
Proof.
  pose proof INT_MAX_lt_SIZE as (HIS & HIM & HI0).
  induction k as [|k IH];
    intros fuel h es i j bst Hlen R Hes Hlive Hroom Hij Hk Hfuel.
  - destruct fuel as [|fuel]; [lia|]. simpl.
    rewrite (wrap_small j) by lia.
    destruct (Z.ltb_spec j (len v)); [lia|].
    exists h, bst. split_and!; try assumption; reflexivity.
  - destruct fuel as [|fuel]; [lia|].
    destruct (sort_step_rep h es i j bst R Hes Hlive Hroom)
      as (c & h1 & bst1 & Ec & Hc & E1 & R1 & Hlive1 & Hl1 & Hlh1 & Hfr1);
      try lia.
    destruct (IH fuel h1 (exchange (sort_gt order) es (Z.to_nat i) (Z.to_nat j))
                i (j + 1) bst1) as (h' & bst' & E' & R' & Hlive' & Hl' & Hlh' & Hfr');
      try assumption; try lia.
    { now rewrite length_exchange. }
    exists h', bst'. split_and!; try assumption; try lia.
    + cbn [sort_inner]. rewrite (wrap_small j), (wrap_small i) by lia.
      destruct (Z.ltb_spec j (len v)); [|lia].
      rewrite (bind_step _ _ _ _ _ Ec).
      rewrite int_op_in_range by nia. unfold int_val at 1. unfold bind at 1.
      rewrite (bind_step _ _ _ _ _ E1).
      rewrite int_op_in_range by lia. unfold int_val at 1. unfold bind at 1.
      exact E'.
    + simpl. replace (S (Z.to_nat j)) with (Z.to_nat (j + 1)) by lia. exact R'.
    + intros b0 H1 H2. rewrite Hfr' by assumption. now apply Hfr1.
Qed.

(** With more than [INT_MAX] elements the counter [j] overflows. *)
Lemma sort_inner_overflow k : forall fuel h es i j bst,
  INT_MAX < len v ->
  rep h v b (es ++ rest) -> Z.of_nat (length es) = len v ->
  live h bt = Some bst -> poff pval + size v <= Z.of_nat (length bst) ->
  0 <= i < j -> j + Z.of_nat k = INT_MAX -> (k < fuel)%nat ->
  sort_inner fuel v order pval i j h = None.
Proof.
  pose proof INT_MAX_lt_SIZE as (HIS & HIM & HI0).
  induction k as [|k IH];
    intros fuel h es i j bst Hlen R Hes Hlive Hroom Hij Hk Hfuel;
    (destruct fuel as [|fuel]; [lia|]);
    destruct (sort_step_rep h es i j bst R Hes Hlive Hroom)
      as (c & h1 & bst1 & Ec & Hc & E1 & R1 & Hlive1 & Hl1 & Hlh1 & Hfr1);
      try lia;
    cbn [sort_inner]; rewrite (wrap_small j), (wrap_small i) by lia;
    (destruct (Z.ltb_spec j (len v)); [|lia]);
    rewrite (bind_step _ _ _ _ _ Ec);
    rewrite int_op_in_range by nia; unfold int_val at 1; unfold bind at 1;
    rewrite (bind_step _ _ _ _ _ E1).
  - unfold int_op. destruct (Z.leb_spec (j + 1) INT_MAX); [lia|].
    now rewrite andb_false_r.
  - rewrite int_op_in_range by lia. unfold int_val at 1. unfold bind at 1.
    apply (IH fuel h1 (exchange (sort_gt order) es (Z.to_nat i) (Z.to_nat j))
             i (j + 1) bst1); try assumption; try lia.
    now rewrite length_exchange.
Qed.

Lemma sort_outer_rep k : forall fuel h es i bst,
  len v <= INT_MAX ->
  rep h v b (es ++ rest) -> Z.of_nat (length es) = len v ->
  live h bt = Some bst -> poff pval + size v <= Z.of_nat (length bst) ->
  0 <= i -> i + Z.of_nat k = len v -> (k < fuel)%nat ->
  exists h' bst',
    sort_outer fuel v order pval i h = Some (tt, h') /\
    rep h' v b (outer_loop (sort_gt order) k es (Z.to_nat i) ++ rest) /\
    live h' bt = Some bst' /\ length bst' = length bst /\
    length h' = length h /\
    (forall b0, b0 <> b -> b0 <> bt -> h' !! b0 = h !! b0).
Proof.
  pose proof INT_MAX_lt_SIZE as (HIS & HIM & HI0).
  induction k as [|k IH]; intros fuel h es i bst Hlen R Hes Hlive Hroom Hi Hk Hfuel.
  - destruct fuel as [|fuel]; [lia|]. cbn [sort_outer outer_loop].
    rewrite (wrap_small i) by lia.
    destruct (Z.ltb_spec i (len v)); [lia|].
    exists h, bst. split_and!; try assumption; reflexivity.
  - destruct fuel as [|fuel]; [lia|].
    destruct (sort_inner_rep (Z.to_nat (len v) - S (Z.to_nat i))
                (S (Z.to_nat (len v))) h es i (i + 1) bst)
      as (h1 & bst1 & E1 & R1 & Hlive1 & Hl1 & Hlh1 & Hfr1);
      try assumption; try lia.
    destruct (IH fuel h1
                (inner_loop (sort_gt order) (Z.to_nat (len v) - S (Z.to_nat i)) es
                   (Z.to_nat i) (Z.to_nat (i + 1)))
                (i + 1) bst1) as (h' & bst' & E' & R' & Hlive' & Hl' & Hlh' & Hfr');
      try assumption; try lia.
    { now rewrite length_inner_loop. }
    exists h', bst'. split_and!; try assumption; try lia.
    + cbn [sort_outer]. rewrite (wrap_small i) by lia.
      destruct (Z.ltb_spec i (len v)); [|lia].
      rewrite int_op_in_range by lia. unfold int_val at 1. unfold bind at 1.
      rewrite (bind_step _ _ _ _ _ E1).
      unfold int_val at 1. unfold bind at 1. exact E'.
    + simpl. replace (length es) with (Z.to_nat (len v)) by lia.
      replace (Z.to_nat (i + 1)) with (S (Z.to_nat i)) in R' by lia. exact R'.
    + intros b0 H1 H2. rewrite Hfr' by assumption. now apply Hfr1.
Qed.

End SortLoops.

Lemma vec_elems_uniform h v es :
  is_array h v -> 0 < size v -> vec_elems h v = Some es ->
  uniform (Z.to_nat (size v)) es.
Proof.
  intros Ha Hs Hes. destruct (Z.eq_dec (cap v) 0) as [Hc|Hc].
  - destruct Ha as (_ & Hl & _). rewrite empty_elems in Hes by lia.
    injection Hes as <-. constructor.
  - destruct (is_array_rep _ _ Ha Hs Hc) as (b & sl & R).
    rewrite (rep_elems _ _ _ _ R) in Hes. injection Hes as <-.
    apply uniform_take, R.
Qed.

Section Sort.

Variable junk : block -> nat -> byte.

Lemma vec_sort_spec v h es order :
  is_array h v -> 0 < size v -> len v <= INT_MAX ->
  Z.abs order * 255 <= INT_MAX -> vec_elems h v = Some es ->
  exists h',
    vec_sort junk v order h = Some (tt, h') /\ is_array h' v /\
    vec_elems h' v = Some (exchange_sort (sort_gt order) es).
Proof.
  intros Ha Hs Hlen Horder Hes.
  destruct (Z.eq_dec (cap v) 0) as [Hc|Hc].
  - (* an unallocated array has no element *)
    pose proof Ha as (Hsz & Hl & Hcap & _).
    assert (Hl0 : len v = 0) by lia.
    rewrite empty_elems in Hes by assumption. injection Hes as <-.
    assert (Hloop : forall p h0, sort_outer (S (Z.to_nat (len v))) v order p 0 h0
                                 = Some (tt, h0)).
    { intros p h0. cbn [sort_outer]. rewrite Hl0. reflexivity. }
    assert (Harr : forall h0, is_array h0 v).
    { intros h0. unfold is_array. split_and!; first [lia | intros; lia]. }
    unfold vec_sort. destruct (size v <? 256).
    + eexists. split_and!; [|apply Harr|now apply empty_elems].
      unfold bind, stack_alloc. rewrite Hloop. reflexivity.
    + unfold bind, malloc. destruct (PTRDIFF_MAX <? size v).
      * exists h. split_and!; [|apply Harr|now apply empty_elems].
        rewrite Hloop. reflexivity.
      * eexists. split_and!; [|apply Harr|now apply empty_elems].
        rewrite Hloop. unfold free. cbn [is_null ptr_eqb pbase poff NULL].
        rewrite live_app_new. reflexivity.
  - destruct (is_array_rep _ _ Ha Hs Hc) as (b & sl & R).
    pose proof R as (Hptr & Hb & Hl & Hu & Hsz & Hlc & Hfit).
    rewrite (rep_elems _ _ _ _ R) in Hes. injection Hes as <-.
    set (es := take (Z.to_nat (len v)) sl).
    set (rest := drop (Z.to_nat (len v)) sl).
    assert (Hsl : sl = es ++ rest) by (symmetry; apply take_drop).
    assert (Hles : Z.of_nat (length es) = len v)
      by (unfold es; rewrite length_take; lia).
    assert (Hblt : (b < length h)%nat) by (eapply live_lt; eauto).
    assert (Hrun : forall bytes,
      size v <= Z.of_nat (length bytes) ->
      exists h' bst',
        sort_outer (S (Z.to_nat (len v))) v order (mkptr (Some (length h)) 0) 0
                   (h ++ [Some bytes]) = Some (tt, h') /\
        live h' (length h) = Some bst' /\
        rep (<[length h := None]> h') v b (exchange_sort (sort_gt order) es ++ rest)).
    { intros bytes Hbytes.
      destruct (sort_outer_rep v b rest order (mkptr (Some (length h)) 0) (length h)
                  Horder eq_refl ltac:(lia) ltac:(simpl; lia)
                  (Z.to_nat (len v)) (S (Z.to_nat (len v))) (h ++ [Some bytes]) es 0 bytes)
        as (h' & bst' & E & R' & Hlive' & _ & _ & _); try lia.
      - rewrite <- Hsl. apply (rep_frame h); [assumption|]. now apply lookup_app_l.
      - apply live_app_new.
      - simpl. lia.
      - exists h', bst'. split_and!; try assumption.
        apply (rep_frame h').
        + unfold exchange_sort. replace (length es) with (Z.to_nat (len v)) by lia.
          exact R'.
        + apply list_lookup_insert_ne. lia. }
    assert (Hfin : forall h', rep h' v b (exchange_sort (sort_gt order) es ++ rest) ->
              is_array h' v /\
              vec_elems h' v = Some (exchange_sort (sort_gt order) es)).
    { intros h' R'. split; [eapply rep_is_array; eauto|].
      rewrite (rep_elems _ _ _ _ R'). f_equal.
      apply take_app_length'. unfold exchange_sort.
      rewrite length_outer_loop. lia. }
    unfold vec_sort. destruct (Z.ltb_spec (size v) 256).
    + destruct (Hrun (fresh_bytes junk (length h) 0 (Z.to_nat 256)))
        as (h' & bst' & E & Hlive' & R').
      { rewrite length_fresh_bytes. lia. }
      exists (<[length h := None]> h'). split; [|now apply Hfin].
      unfold bind, stack_alloc. rewrite E. reflexivity.
    + assert (size v <= PTRDIFF_MAX) by nia.
      destruct (Hrun (fresh_bytes junk (length h) 0 (Z.to_nat (size v))))
        as (h' & bst' & E & Hlive' & R').
      { rewrite length_fresh_bytes. lia. }
      exists (<[length h := None]> h'). split; [|now apply Hfin].
      unfold bind, malloc. destruct (Z.ltb_spec PTRDIFF_MAX (size v)); [lia|].
      rewrite E. unfold free. cbn [is_null ptr_eqb pbase poff NULL].
      rewrite Hlive'. reflexivity.
Qed.

(** With more than [INT_MAX] elements the counters of [vec_sort], which
    are [int]s, overflow. *)
Lemma vec_sort_overflows v h order :
  is_array h v -> 0 < size v -> INT_MAX < len v ->
  Z.abs order * 255 <= INT_MAX -> vec_sort junk v order h = None.
Proof.
  intros Ha Hs Hlen Horder.
  pose proof INT_MAX_lt_SIZE as (HIS & HIM & HI0).
  pose proof Ha as (_ & Hlc' & _).
  destruct (is_array_rep _ _ Ha Hs) as (b & sl & R); [lia|].
  pose proof R as (Hptr & Hb & Hl & Hu & Hsz & Hlc & Hfit).
  set (es := take (Z.to_nat (len v)) sl).
  set (rest := drop (Z.to_nat (len v)) sl).
  assert (Hsl : sl = es ++ rest) by (symmetry; apply take_drop).
  assert (Hles : Z.of_nat (length es) = len v)
    by (unfold es; rewrite length_take; lia).
  assert (Hblt : (b < length h)%nat) by (eapply live_lt; eauto).
  assert (Hrun : forall bytes,
    size v <= Z.of_nat (length bytes) ->
    sort_outer (S (Z.to_nat (len v))) v order (mkptr (Some (length h)) 0) 0
               (h ++ [Some bytes]) = None).
  { intros bytes Hbytes. cbn [sort_outer].
    rewrite (wrap_small 0) by lia.
    destruct (Z.ltb_spec 0 (len v)); [|lia].
    rewrite int_op_in_range by lia. unfold int_val at 1. unfold bind at 1.
    unfold bind at 1.
    rewrite (sort_inner_overflow v b rest order (mkptr (Some (length h)) 0) (length h)
               Horder eq_refl ltac:(lia) ltac:(simpl; lia)
               (Z.to_nat (INT_MAX - 1)) (S (Z.to_nat (len v))) (h ++ [Some bytes])
               es 0 (0 + 1) bytes); try lia.
    - reflexivity.
    - rewrite <- Hsl. apply (rep_frame h); [assumption|]. now apply lookup_app_l.
    - apply live_app_new.
    - simpl. lia. }
  unfold vec_sort. destruct (Z.ltb_spec (size v) 256).
  - unfold bind, stack_alloc. rewrite Hrun; [reflexivity|].
    rewrite length_fresh_bytes. lia.
  - assert (size v <= PTRDIFF_MAX) by nia.
    unfold bind, malloc. destruct (Z.ltb_spec PTRDIFF_MAX (size v)); [lia|].
    rewrite Hrun; [reflexivity|]. rewrite length_fresh_bytes. lia.
Qed.

(** C9, as amended: for every array of positive stride with at most
    [INT_MAX] elements, [sort] with a positive order value leaves a
    permutation of the elements that is nondecreasing under [memcmp] over
    one stride, with a negative order value a nonincreasing one, and the
    same sort applied again leaves the elements as they are. *)
Theorem sort_orders_and_is_idempotent v h es order :
  is_array h v -> 0 < size v -> len v <= INT_MAX ->
  Z.abs order * 255 <= INT_MAX -> vec_elems h v = Some es ->
  exists h1 es1,
    vec_sort junk v order h = Some (tt, h1) /\
    vec_elems h1 v = Some es1 /\ es1 ≡ₚ es /\
    (0 < order -> ascending es1) /\
    (order < 0 -> descending es1) /\
    exists h2, vec_sort junk v order h1 = Some (tt, h2) /\
               vec_elems h2 v = Some es1.
Proof.
  intros Ha Hs Hlen Horder Hes.
  pose proof (vec_elems_uniform _ _ _ Ha Hs Hes) as Hu.
  destruct (vec_sort_spec v h es order Ha Hs Hlen Horder Hes) as (h1 & E1 & Ha1 & Hes1).
  destruct (vec_sort_spec v h1 _ order Ha1 Hs Hlen Horder Hes1) as (h2 & E2 & _ & Hes2).
  assert (Hord : in_order (sort_gt order) (exchange_sort (sort_gt order) es)).
  { apply (exchange_sort_in_order _ (fun e => length e = Z.to_nat (size v))).
    - intros a b _ _. apply sort_gt_asym.
    - intros a b c. apply sort_gt_trans.
    - exact Hu. }
  exists h1, (exchange_sort (sort_gt order) es).
  split_and!; try assumption.
  - apply exchange_sort_perm.
  - intros Ho. now apply (in_order_ascending order).
  - intros Ho. now apply (in_order_descending order).
  - exists h2. split; [assumption|]. rewrite Hes2. f_equal.
    apply outer_loop_in_order. exact Hord.
Qed.

End Sort.

Section ReservePolicy.

Variable junk : block -> nat -> byte.
Variable moves : block -> Z -> bool.

(** What [malloc] and [realloc] answer is the null pointer or the start
    of a live block. *)
Lemma malloc_answer n h :
  exists p h',
    malloc junk n h = Some (p, h') /\
    (p = NULL \/ exists b bs, p = mkptr (Some b) 0 /\ live h' b = Some bs).
Proof.
  unfold malloc. destruct (PTRDIFF_MAX <? n).
  - exists NULL, h. split; [reflexivity|now left].
  - eexists _, _. split; [reflexivity|]. right. eexists _, _.
    split; [reflexivity|]. apply live_app_new.
Qed.

Lemma realloc_answer p n h :
  p = NULL \/ (exists b bs, p = mkptr (Some b) 0 /\ live h b = Some bs) ->
  exists p' h',
    realloc junk moves p n h = Some (p', h') /\
    (p' = NULL \/ exists b' bs', p' = mkptr (Some b') 0 /\ live h' b' = Some bs').
Proof.
  intros [->|(b & bs & -> & Hb)].
  - unfold realloc. change (is_null NULL) with true. cbv iota. apply malloc_answer.
  - unfold realloc. rewrite is_null_block. cbn [pbase poff].
    rewrite Hb. cbn [Z.eqb negb].
    destruct (PTRDIFF_MAX <? n).
    + exists NULL, h. split; [reflexivity|now left].
    + destruct (moves b n).
      * eexists _, _. split; [reflexivity|]. right. eexists _, _.
        split; [reflexivity|]. unfold live.
        rewrite lookup_app_r by (rewrite length_insert; lia).
        rewrite length_insert, Nat.sub_diag. reflexivity.
      * eexists _, _. split; [reflexivity|]. right. eexists _, _.
        split; [reflexivity|]. apply live_insert_eq. eapply live_lt; eauto.
Qed.

(** Twice a capacity that a larger [size_t] value does not exceed is a
    [size_t] value. *)
Lemma doubling_no_wrap c n :
  0 <= c <= SIZE_MAX -> c < n -> n <= wrap (2 * c) -> wrap (2 * c) = 2 * c.
Proof.
  intros Hc Hn Hle. destruct (Z.le_gt_cases (2 * c) SIZE_MAX) as [H|H].
  - apply wrap_small. lia.
  - exfalso. unfold wrap, SIZE_MAX in *.
    replace (2 * c) with (2 * c - 2 ^ 64 + 1 * 2 ^ 64) in Hle by lia.
    rewrite Z.mod_add in Hle by lia. rewrite Z.mod_small in Hle by lia. lia.
Qed.

(** Whatever the allocator answers, [vec_reserve] records the capacity
    that [v_resize] computes, with the doubling done in [size_t], and
    keeps the length and the stride. *)
Lemma vec_reserve_fields v h n :
  is_vec h v -> 0 <= n <= SIZE_MAX ->
  exists v' h',
    vec_reserve junk moves v n h = Some (v', h') /\ is_vec h' v' /\
    len v' = len v /\ size v' = size v /\
    (n <= cap v -> v' = v /\ h' = h) /\
    (cap v < n ->
     cap v' = if cap v =? 0 then Z.max n 2
              else if wrap (2 * cap v) <? n then n else wrap (2 * cap v)).
Proof.
  intros Hv Hn. pose proof Hv as (Hcap & Hptr).
  unfold vec_reserve.
  destruct (Z.ltb_spec (cap v) n) as [Hlt|Hge].
  2:{ exists v, h. split_and!; try reflexivity; [assumption|now split|lia]. }
  unfold v_resize, v_alloc, v_realloc, GROWTH_FACTOR.
  replace (cap v * 2) with (2 * cap v) by lia.
  destruct (Z.eqb_spec (cap v) 0) as [Hc0|Hc0]; cbn [negb].
  - destruct (malloc_answer (wrap ((if 2 <? n then n else 2) * size v)) h)
      as (p & h' & E & Hp).
    rewrite (bind_step _ _ _ _ _ E). eexists _, h'.
    split; [reflexivity|]. split_and!; try reflexivity.
    + split; simpl; [destruct (Z.ltb_spec 2 n); unfold SIZE_MAX in *; lia|].
      intros _. exact Hp.
    + lia.
    + intros _. simpl. destruct (Z.ltb_spec 2 n); lia.
  - destruct (Z.ltb_spec n (cap v)); [lia|]. cbn [orb].
    pose proof (wrap_range (2 * cap v)) as Hw.
    destruct (Z.ltb_spec (wrap (2 * cap v)) n).
    + destruct (realloc_answer (ptr v) (wrap (n * size v)) h (Hptr Hc0))
        as (p & h' & E & Hp).
      rewrite (bind_step _ _ _ _ _ E). eexists _, h'.
      split; [reflexivity|]. split_and!; try reflexivity; [|lia].
      split; simpl; [lia|]. intros _. exact Hp.
    + destruct (Z.ltb_spec (cap v) n); [|lia].
      destruct (realloc_answer (ptr v) (wrap (wrap (2 * cap v) * size v)) h (Hptr Hc0))
        as (p & h' & E & Hp).
      rewrite (bind_step _ _ _ _ _ E). eexists _, h'.
      split; [reflexivity|]. split_and!; try reflexivity; [|lia].
      split; simpl; [lia|]. intros _. exact Hp.
Qed.

(** C6, as amended: for every array and every [n], after [reserve(n)]
    the capacity is at least [n] and the length is unchanged; nothing
    changes when [n] is within the capacity, an unallocated array gets
    [max(n, 2)] slots, and an allocated one gets [n] slots when [n]
    exceeds twice its capacity, the product being the [size_t] one, and
    twice its capacity otherwise.  The array that results is an array
    again, whatever the allocator answers. *)
Theorem reserve_capacity_policy v h n :
  is_vec h v -> 0 <= n <= SIZE_MAX ->
  exists v' h',
    vec_reserve junk moves v n h = Some (v', h') /\ is_vec h' v' /\
    n <= vec_capacity v' /\ vec_len v' = vec_len v /\
    (n <= vec_capacity v -> v' = v /\ h' = h) /\
    (vec_capacity v < n -> vec_capacity v = 0 -> vec_capacity v' = Z.max n 2) /\
    (vec_capacity v < n -> vec_capacity v <> 0 ->
     wrap (2 * vec_capacity v) < n -> vec_capacity v' = n) /\
    (vec_capacity v < n -> vec_capacity v <> 0 ->
     n <= wrap (2 * vec_capacity v) -> vec_capacity v' = 2 * vec_capacity v) /\
    (2 * vec_capacity v <= SIZE_MAX ->
     wrap (2 * vec_capacity v) = 2 * vec_capacity v).
Proof.
  intros Hv Hn.
  destruct (vec_reserve_fields v h n Hv Hn)
    as (v' & h' & E & Hv' & Hl & _ & Hid & Hc).
  pose proof Hv as (Hcap & _).
  exists v', h'. unfold vec_capacity, vec_len.
  split; [exact E|]. split; [exact Hv'|].
  assert (Hnew : cap v < n -> 
            (cap v = 0 -> cap v' = Z.max n 2) /\
            (cap v <> 0 -> wrap (2 * cap v) < n -> cap v' = n) /\
            (cap v <> 0 -> n <= wrap (2 * cap v) -> cap v' = 2 * cap v)).
  { intros Hlt. specialize (Hc Hlt). split_and!.
    - intros H0. destruct (Z.eqb_spec (cap v) 0); [exact Hc|lia].
    - intros H0 Hw. destruct (Z.eqb_spec (cap v) 0); [lia|].
      destruct (Z.ltb_spec (wrap (2 * cap v)) n); [exact Hc|lia].
    - intros H0 Hw. destruct (Z.eqb_spec (cap v) 0); [lia|].
      destruct (Z.ltb_spec (wrap (2 * cap v)) n); [lia|].
      rewrite Hc. now apply (doubling_no_wrap (cap v) n). }
  split_and!.
  - destruct (Z.le_gt_cases n (cap v)) as [Hle|Hlt].
    + destruct (Hid Hle) as [-> _]. exact Hle.
    + destruct (Hnew Hlt) as (H0 & H1 & H2).
      destruct (Z.eq_dec (cap v) 0) as [Hz|Hz]; [rewrite (H0 Hz); lia|].
      destruct (Z.le_gt_cases n (wrap (2 * cap v))) as [Hw|Hw].
      * rewrite (H2 Hz Hw).
        rewrite <- (doubling_no_wrap (cap v) n) by assumption. exact Hw.
      * rewrite (H1 Hz Hw). lia.
  - exact Hl.
  - exact Hid.
  - intros Hlt. now apply Hnew.
  - intros Hlt. now apply Hnew.
  - intros Hlt. now apply Hnew.
  - intros H2. apply wrap_small. lia.
Qed.

End ReservePolicy.

(** ** The arena *)

Lemma ptr_eqb_eq p q : ptr_eqb p q = true <-> p = q.
Proof.
  destruct p as [[a|] x], q as [[b|] y]; unfold ptr_eqb; simpl.
  - rewrite andb_true_iff, Nat.eqb_eq, Z.eqb_eq. split.
    + intros [-> ->]. reflexivity.
    + intros [= -> ->]. now split.
  - split; discriminate.
  - split; discriminate.
  - rewrite Z.eqb_eq. split; [now intros ->|now intros [= ->]].
Qed.

Lemma ptr_eqb_neq p q : p <> q -> ptr_eqb p q = false.
Proof.
  intros H. destruct (ptr_eqb p q) eqn:E; [|reflexivity].
  now apply ptr_eqb_eq in E.
Qed.

Lemma arena_nodes_lt h p l :
  arena_nodes h p l -> forall b, b ∈ l -> (b < length h)%nat.
Proof.
  induction 1 as [|b nd q l Hb Hsz Hn _ IH]; intros b' Hin.
  - now apply elem_of_nil in Hin.
  - apply elem_of_cons in Hin as [->|Hin]; [eapply live_lt; eauto|now apply IH].
Qed.

Lemma arena_nodes_fun h p l :
  arena_nodes h p l -> forall l', arena_nodes h p l' -> l = l'.
Proof.
  induction 1 as [|b nd q l Hb Hsz Hn _ IH]; intros l' H'; inversion H'; subst.
  - reflexivity.
  - f_equal. apply IH. congruence.
Qed.

Lemma arena_nodes_suffix h p l :
  arena_nodes h p l -> forall b, b ∈ l ->
  exists l1 l2, l = l1 ++ b :: l2 /\ arena_nodes h (mkptr (Some b) 0) (b :: l2).
Proof.
  induction 1 as [|b nd q l Hb Hsz Hn Hq IH]; intros b' Hin.
  - now apply elem_of_nil in Hin.
  - apply elem_of_cons in Hin as [->|Hin].
    + exists [], l. split; [reflexivity|]. econstructor; eauto.
    + destruct (IH _ Hin) as (l1 & l2 & -> & H2).
      exists (b :: l1), l2. now split.
Qed.

Lemma arena_nodes_NoDup h p l : arena_nodes h p l -> NoDup l.
Proof.
  induction 1 as [|b nd q l Hb Hsz Hn Hq IH]; constructor; [|assumption].
  intros Hin.
  destruct (arena_nodes_suffix _ _ _ Hq _ Hin) as (l1 & l2 & -> & H2).
  assert (H1 : arena_nodes h (mkptr (Some b) 0) (b :: l1 ++ b :: l2))
    by (econstructor; eauto).
  pose proof (arena_nodes_fun _ _ _ H1 _ H2) as E.
  apply (f_equal length) in E. simpl in E. rewrite length_app in E.
  simpl in E. lia.
Qed.

Lemma arena_nodes_length h p l : arena_nodes h p l -> (length l <= length h)%nat.
Proof.
  intros H. transitivity (length (seq 0 (length h))); [|now rewrite length_seq].
  apply submseteq_length, NoDup_submseteq; [eapply arena_nodes_NoDup; eauto|].
  intros b Hb. apply elem_of_seq. pose proof (arena_nodes_lt _ _ _ H _ Hb). lia.
Qed.

Lemma get_next_node h b nd q :
  live h b = Some nd -> sizeof_ArenaNode <= bsize nd -> next nd = Some q ->
  get_next (mkptr (Some b) 0) h = Some (q, h).
Proof.
  intros Hb Hsz Hn. unfold get_next. simpl. rewrite Hb.
  destruct (Z.leb_spec sizeof_ArenaNode (bsize nd)); [|lia]. now rewrite Hn.
Qed.

(** The search goes to the end of the list when no node is the needle. *)
Lemma find_node_miss h p l :
  arena_nodes h p l -> forall fuel needle prev,
  (forall b, b ∈ l -> needle <> mkptr (Some b) 0) -> (length l < fuel)%nat ->
  exists prev', find_node fuel needle prev p h = Some ((prev', NULL), h).
Proof.
  induction 1 as [|b nd q l Hb Hsz Hn Hq IH]; intros fuel needle prev Hmiss Hfuel.
  - destruct fuel; [simpl in Hfuel; lia|]. exists prev. reflexivity.
  - destruct fuel; [simpl in Hfuel; lia|]. simpl in Hfuel.
    destruct (IH fuel needle (mkptr (Some b) 0)) as [prev' E].
    { intros b' Hb'. apply Hmiss. now right. }
    { lia. }
    exists prev'. cbn [find_node].
    rewrite (is_null_block b 0), ptr_eqb_neq.
    2:{ intros E'. apply (Hmiss b); [now left|congruence]. }
    cbn [negb andb].
    now rewrite (bind_step _ _ _ _ _ (get_next_node _ _ _ _ Hb Hsz Hn)).
Qed.

Section NoOps.

Variable junk : block -> nat -> byte.
Variable moves : block -> Z -> bool.

Lemma arena_realloc_empty arena bytes p (h : AHeap) :
  head arena = NULL ->
  arena_realloc junk moves arena bytes p h = Some ((arena, NULL), h).
Proof. intros E. unfold arena_realloc. now rewrite E. Qed.

Lemma arena_realloc_miss arena bytes p (h : AHeap) l :
  arena_nodes h (head arena) l ->
  (forall b, b ∈ l -> p <> mkptr (Some b) sizeof_ArenaNode) ->
  arena_realloc junk moves arena bytes p h = Some ((arena, NULL), h).
Proof.
  intros Hl Hmiss. unfold arena_realloc.
  destruct (is_null (head arena)); [reflexivity|]. cbn [negb].
  destruct (find_node_miss h _ l Hl (S (length h))
              (ptr_add p (- sizeof_ArenaNode)) NULL) as [prev' E].
  - intros b Hb E. apply (Hmiss b Hb).
    destruct p as [pb po]. unfold ptr_add in E. simpl in E.
    injection E as -> Ho. f_equal. unfold sizeof_ArenaNode in *. lia.
  - pose proof (arena_nodes_length _ _ _ Hl). lia.
  - unfold bind at 1. rewrite E. reflexivity.
Qed.

(** C5, as amended: an operation given an invalid argument -- [insertAt]
    with [pos > length], [removeAt] with [pos + n - 1 >= length] where the
    sum is the [size_t] one, [get] and [set] with [pos >= length], [pop] on
    an empty array, [reallocate] on an empty arena or with a pointer
    that is the payload of no node -- returns with the array, the heap
    and the arena exactly as they were, and [reallocate] returns the
    null pointer. *)
Theorem invalid_arguments_change_nothing :
  (forall v elems n pos h, len v < pos ->
     vec_insert_n junk moves v elems n pos h = Some (v, h)) /\
  (forall v pos elems n h, len v <= wrap (pos + n - 1) ->
     vec_remove_n v pos elems n h = Some (v, h)) /\
  (forall v pos elem h, len v <= pos -> vec_get v pos elem h = Some (tt, h)) /\
  (forall v elem pos h, len v <= pos -> vec_set v elem pos h = Some (tt, h)) /\
  (forall v elem h, len v = 0 -> vec_pop v elem h = Some (v, h)) /\
  (forall arena bytes p (h : AHeap), head arena = NULL ->
     arena_realloc junk moves arena bytes p h = Some ((arena, NULL), h)) /\
  (forall arena bytes p (h : AHeap) l,
     arena_nodes h (head arena) l ->
     (forall b, b ∈ l -> p <> mkptr (Some b) sizeof_ArenaNode) ->
     arena_realloc junk moves arena bytes p h = Some ((arena, NULL), h)).
Proof.
  split_and!.
  - intros v elems n pos h H. unfold vec_insert_n.
    destruct (Z.leb_spec pos (len v)); [lia|reflexivity].
  - intros v pos elems n h H. unfold vec_remove_n.
    destruct (Z.ltb_spec (wrap (pos + n - 1)) (len v)); [lia|reflexivity].
  - intros v pos elem h H. unfold vec_get.
    destruct (Z.ltb_spec pos (len v)); [lia|reflexivity].
  - intros v elem pos h H. unfold vec_set.
    destruct (Z.ltb_spec pos (len v)); [lia|reflexivity].
  - intros v elem h H. unfold vec_pop. rewrite H. reflexivity.
  - apply arena_realloc_empty.
  - apply arena_realloc_miss.
Qed.

End NoOps.

(** ** Exchanging two slots *)





(** ** The invariant of the data model *)

Lemma bind_inversion {S A B} (m : M S A) (k : A -> M S B) s r :
  bind m k s = Some r -> exists a s', m s = Some (a, s') /\ k a s' = Some r.
Proof.
  unfold bind. destruct (m s) as [[a s']|]; [|discriminate]. eauto.
Qed.

Section Invariant.

Variable junk : block -> nat -> byte.
Variable moves : block -> Z -> bool.

Lemma v_alloc_fields v n h v' h' :
  v_alloc junk v n h = Some (v', h') -> cap v' = n /\ len v' = len v.
Proof.
  unfold v_alloc. intros H. apply bind_inversion in H as (p & s' & _ & H).
  injection H as <- <-. now split.
Qed.

Lemma v_realloc_fields v n h v' h' :
  v_realloc junk moves v n h = Some (v', h') -> cap v' = n /\ len v' = len v.
Proof.
  unfold v_realloc. intros H. apply bind_inversion in H as (p & s' & _ & H).
  injection H as <- <-. now split.
Qed.

Lemma vec_reserve_inv v n h v' h' :
  0 <= cap v -> vec_reserve junk moves v n h = Some (v', h') ->
  len v' = len v /\ cap v <= cap v' /\ n <= cap v'.
Proof.
  intros Hc. unfold vec_reserve.
  destruct (Z.ltb_spec (cap v) n) as [Hlt|Hge].
  2:{ intros [= <- <-]. lia. }
  unfold v_resize, GROWTH_FACTOR.
  destruct (Z.eqb_spec (cap v) 0) as [Hc0|Hc0]; cbn [negb].
  - intros H. apply v_alloc_fields in H as [-> ->].
    destruct (Z.ltb_spec 2 n); lia.
  - destruct (Z.ltb_spec n (cap v)); [lia|]. cbn [orb].
    destruct (Z.ltb_spec (wrap (cap v * 2)) n).
    + intros Hx. apply v_realloc_fields in Hx as [-> ->]. lia.
    + destruct (Z.ltb_spec (cap v) n); [|lia].
      intros Hx. apply v_realloc_fields in Hx as [-> ->]. lia.
Qed.

Lemma vec_insert_n_inv v elems n pos h v' h' :
  vec_inv v -> vec_insert_n junk moves v elems n pos h = Some (v', h') ->
  vec_inv v'.
Proof.
  intros Hi. unfold vec_insert_n.
  destruct (pos <=? len v); [|now intros [= <- <-]].
  intros H. apply bind_inversion in H as (v1 & h1 & Hres & H).
  apply bind_inversion in H as (? & h2 & _ & H).
  apply bind_inversion in H as (? & h3 & _ & H).
  injection H as <- <-.
  apply vec_reserve_inv in Hres as (Hl & _ & Hn); [|unfold vec_inv in Hi; lia].
  unfold vec_inv. simpl. rewrite Hl.
  pose proof (wrap_range (len v + n)). lia.
Qed.

(** C4, as amended: [0 <= length <= capacity] holds of every array that
    [create], [createWithCapacity] and [createFrom] produce, and every
    array that [reserve], [shrinkToFit], [insert], [push], [pop] and
    [clear] return has it when the array they were given had it; so has
    the array that [remove] returns when [pos + n - 1] does not overflow
    [size_t].  ([set] writes no field.) *)
Theorem length_within_capacity :
  (forall v s, vec_inv (vec_new v s)) /\
  (forall v s n h v' h',
     vec_new_with junk moves v s n h = Some (v', h') -> vec_inv v') /\
  (forall v s arr n h v' h',
     vec_from junk moves v s arr n h = Some (v', h') -> vec_inv v') /\
  (forall v n h v' h', vec_inv v ->
     vec_reserve junk moves v n h = Some (v', h') -> vec_inv v') /\
  (forall v h v' h', vec_inv v ->
     vec_shrink_to_fit junk moves v h = Some (v', h') -> vec_inv v') /\
  (forall v elems n pos h v' h', vec_inv v ->
     vec_insert_n junk moves v elems n pos h = Some (v', h') -> vec_inv v') /\
  (forall v elem pos h v' h', vec_inv v ->
     vec_insert junk moves v elem pos h = Some (v', h') -> vec_inv v') /\
  (forall v elem h v' h', vec_inv v ->
     vec_push junk moves v elem h = Some (v', h') -> vec_inv v') /\
  (forall v pos elems n h v' h', vec_inv v -> cap v <= SIZE_MAX ->
     0 <= pos -> 0 <= n -> pos + n - 1 <= SIZE_MAX ->
     vec_remove_n v pos elems n h = Some (v', h') -> vec_inv v') /\
  (forall v pos elem h v' h', vec_inv v -> cap v <= SIZE_MAX ->
     0 <= pos <= SIZE_MAX ->
     vec_remove v pos elem h = Some (v', h') -> vec_inv v') /\
  (forall v elem h v' h', vec_inv v -> cap v <= SIZE_MAX ->
     vec_pop v elem h = Some (v', h') -> vec_inv v') /\
  (forall v h v' h', vec_clear v h = Some (v', h') -> vec_inv v').
Proof.
  assert (Hnew : forall v s, vec_inv (vec_new v s))
    by (intros; unfold vec_inv; simpl; lia).
  assert (Hres : forall v n h v' h', vec_inv v ->
            vec_reserve junk moves v n h = Some (v', h') -> vec_inv v').
  { intros v n h v' h' Hi H. unfold vec_inv in *.
    apply vec_reserve_inv in H; lia. }
  assert (Hrem : forall v pos elems n h v' h', vec_inv v -> cap v <= SIZE_MAX ->
            0 <= pos -> 0 <= n -> pos + n - 1 <= SIZE_MAX ->
            vec_remove_n v pos elems n h = Some (v', h') -> vec_inv v').
  { intros v pos elems n h v' h' Hi Hc Hp Hn Hsum. unfold vec_remove_n.
    destruct (Z.ltb_spec (wrap (pos + n - 1)) (len v)) as [Hlt|Hge];
      [|now intros [= <- <-]].
    intros H. apply bind_inversion in H as (? & h1 & _ & H).
    apply bind_inversion in H as (? & h2 & _ & H). injection H as <- <-.
    unfold vec_inv in *. simpl.
    destruct (Z.eq_dec (pos + n) 0) as [E|E].
    - replace (pos + n - 1) with (-1) in Hlt by lia.
      change (wrap (-1)) with SIZE_MAX in Hlt. lia.
    - rewrite wrap_small in Hlt by lia. rewrite wrap_small by lia. lia. }
  split_and!; try assumption.
  - intros v s n h v' h'. unfold vec_new_with. now apply Hres.
  - intros v s arr n h v' h'. unfold vec_from.
    now apply vec_insert_n_inv.
  - intros v h v' h' Hi. unfold vec_shrink_to_fit, v_resize, GROWTH_FACTOR.
    unfold vec_inv in *.
    destruct (cap v =? 0); cbn [negb]; [now intros [= <- <-]|].
    destruct ((len v <? cap v) || (wrap (cap v * 2) <? len v)).
    + intros H. apply v_realloc_fields in H as [-> ->]. lia.
    + destruct (Z.ltb_spec (cap v) (len v)); [lia|]. now intros [= <- <-].
  - apply vec_insert_n_inv.
  - intros v elem pos h v' h'. unfold vec_insert. apply vec_insert_n_inv.
  - intros v elem h v' h'. unfold vec_push, vec_insert. apply vec_insert_n_inv.
  - intros v pos elem h v' h' Hi Hc Hp. unfold vec_remove.
    apply Hrem; try assumption; lia.
  - intros v elem h v' h' Hi Hc. unfold vec_pop. unfold vec_inv in *.
    destruct (Z.eqb_spec (len v) 0); cbn [negb]; [now intros [= <- <-]|].
    intros H. apply bind_inversion in H as (? & h1 & _ & H). injection H as <- <-.
    simpl. rewrite wrap_small by lia. lia.
  - intros v h v' h' H. unfold vec_clear in H.
    apply bind_inversion in H as (? & h1 & _ & H). injection H as <- <-.
    unfold vec_inv. simpl. lia.
Qed.

End Invariant.

Lemma length_within_capacity_witness :
  vec_inv two_bytes /\
  vec_pop two_bytes (at_block 2) two_bytes_heap
    = Some (mkVec (at_block 0) 2 1 1, [Some [x07; x03]; Some [x09]; Some [x03]]) /\
  vec_inv (mkVec (at_block 0) 2 1 1).
Proof.
  destruct (length_within_capacity junk_aa realloc_moves)
    as (_ & _ & _ & _ & _ & _ & _ & _ & _ & _ & Hpop & _).
  assert (Hi : vec_inv two_bytes) by (unfold vec_inv; simpl; lia).
  split; [exact Hi|]. split; [reflexivity|].
  apply (Hpop two_bytes (at_block 2) two_bytes_heap _
           [Some [x07; x03]; Some [x09]; Some [x03]] Hi).
  - vm_compute. congruence.
  - reflexivity.
Defined.

Section CodeBugs.

Variable junk : block -> nat -> byte.
Variable moves : block -> Z -> bool.

(** C1: [createFrom] is to give an array of length [n] holding the [n]
    elements of the source buffer.  The source calls
    [vec_insert_n(v, arr, 0, n)], the count where the position is expected
    and the position where the count is: for every [n > 0] the position
    [n] is beyond the length 0 of the new array, nothing is inserted, and
    the array returned is empty and unallocated. *)
Theorem vec_from_inserts_nothing v size' arr n h :
  0 < n ->
  vec_from junk moves v size' arr n h = Some (mkVec (ptr v) 0 0 size', h).
Proof.
  intros Hn. unfold vec_from, vec_insert_n, vec_new. simpl.
  destruct (Z.leb_spec n 0); [lia|reflexivity].
Qed.

(** C3: [reallocate] is to return the payload pointer of the node it
    resized.  The source returns [((char * )next) + sizeof(ArenaNode)],
    where [next] is the link of that node.  In the scenario of the spec --
    [allocate(16)] gives [A], [allocate(32)] gives [B],
    [reallocate(64, A)] -- the resized node is the last of the list, its
    link is null, and the pointer returned is the null pointer plus
    [sizeof(ArenaNode)], whatever [realloc] answers; the resized node
    itself, of [sizeof(ArenaNode) + 64] bytes, follows the node of [B]. *)
Theorem arena_realloc_returns_link :
  exists h1 h2 h3 A',
    arena_alloc junk (arena_init (mkArena NULL)) 16 []
      = Some ((mkArena (at_block 0), mkptr (Some 0%nat) 8), h1) /\
    arena_alloc junk (mkArena (at_block 0)) 32 h1
      = Some ((mkArena (at_block 1), mkptr (Some 1%nat) 8), h2) /\
    arena_realloc junk moves (mkArena (at_block 1)) 64 (mkptr (Some 0%nat) 8) h2
      = Some ((mkArena (at_block 1), mkptr None 8), h3) /\
    get_next (at_block 1) h3 = Some (A', h3) /\
    (exists b nd, A' = at_block b /\ live h3 b = Some nd /\
                  bsize nd = sizeof_ArenaNode + 64) /\
    mkptr None 8 <> ptr_add A' sizeof_ArenaNode.
Proof.
  destruct (moves 0%nat 72) eqn:Hm.
  - do 3 eexists. exists (at_block 2). split_and!; try reflexivity.
    + vm_compute. rewrite Hm. reflexivity.
    + reflexivity.
    + eexists 2%nat, _. split_and!; reflexivity.
    + discriminate.
  - do 3 eexists. exists (at_block 0). split_and!; try reflexivity.
    + vm_compute. rewrite Hm. reflexivity.
    + reflexivity.
    + eexists 0%nat, _. split_and!; reflexivity.
    + discriminate.
Qed.

End CodeBugs.

(** ** The sample states *)

Lemma two_bytes_is_array : is_array two_bytes_heap two_bytes.
Proof.
  unfold is_array. split_and!; try (vm_compute; congruence).
  intros _. exists 0%nat, [x07; x03]. split_and!; try reflexivity.
  vm_compute; congruence.
Qed.

Lemma two_bytes_buffer b x :
  (b = 1%nat /\ x = x09) \/ (b = 2%nat /\ x = x00) ->
  is_buffer two_bytes_heap two_bytes (at_block b) 1.
Proof.
  intros [[-> ->]|[-> ->]]; eexists _, _; (split_and!; [reflexivity..| ]);
    simpl; try lia; intros _; discriminate.
Qed.

Lemma many_bytes_is_array : is_array many_bytes_heap many_bytes.
Proof.
  unfold is_array, many_bytes, many_bytes_heap. cbn [size len cap ptr].
  unfold SIZE_MAX, PTRDIFF_MAX, INT_MAX.
  split_and!; try lia.
  intros _. eexists 0%nat, _. split; [reflexivity|]. split; [reflexivity|].
  rewrite length_replicate. lia.
Qed.

(** ** The constructors that take their arguments in the wrong order *)

(** [createFrom] of one element: the array returned is empty. *)
Lemma vec_from_inserts_nothing_witness :
  vec_from junk_aa realloc_moves no_vec 1 (at_block 1) 1 two_bytes_heap
  = Some (mkVec NULL 0 0 1, two_bytes_heap).
Proof. apply (vec_from_inserts_nothing junk_aa realloc_moves); lia. Defined.

(** C2: [createZeroed(stride, n)] is to give an array of that stride, of
    length [n], whose first [n * stride] bytes are zero.  The source calls
    [vec_new_with(v, n, size)], the count where the stride is expected and
    the stride where the capacity is: [vec_init(v, 4, 2)] gives an array of
    stride 2 and capacity 4, and of the 8 bytes of its buffer only the
    first [2 * 2] are set to zero. *)
Theorem vec_init_takes_count_for_stride :
  vec_init junk_aa realloc_moves no_vec 4 2 []
  = Some (mkVec (at_block 0) 4 2 2,
          [Some [x00; x00; x00; x00; xaa; xaa; xaa; xaa]]).
Proof. reflexivity. Qed.

(** ** Where the claims fail as they are stated *)

(** C4 fails as stated.  [vec_init(v, 2, 5)] makes a buffer of 2 slots of
    5 bytes and then sets 5 slots to zero, beyond the buffer, before it
    sets the length to 5.  [vec_remove_n(v, 3, NULL, SIZE_MAX)] on an
    array of two elements passes the check, since [3 + SIZE_MAX - 1] wraps
    to 1, and sets the length to [2 - SIZE_MAX], which wraps to 3, above
    the capacity 2. *)
Lemma constructed_and_removed_break_invariant :
  (vec_new_with junk_aa realloc_moves no_vec 5 2 []
     = Some (mkVec (at_block 0) 2 0 5, [Some (replicate 10 xaa)]) /\
   vec_init junk_aa realloc_moves no_vec 2 5 [] = None) /\
  (is_array two_bytes_heap two_bytes /\ vec_inv two_bytes /\
   vec_remove_n two_bytes 3 NULL SIZE_MAX two_bytes_heap
     = Some (mkVec (at_block 0) 2 3 1, two_bytes_heap) /\
   ~ vec_inv (mkVec (at_block 0) 2 3 1)).
Proof.
  split; [split; reflexivity|].
  split_and!.
  - exact two_bytes_is_array.
  - unfold vec_inv. simpl. lia.
  - reflexivity.
  - unfold vec_inv. simpl. lia.
Qed.

(** C5 fails as stated: [removeAt] with [pos = 3] and [n = SIZE_MAX] on an
    array of length 2 has [pos + n - 1 >= length], and it is no no-op: the
    sum wraps to 1, the check passes, and the length becomes 3. *)
Lemma remove_wraps_past_the_check :
  is_array two_bytes_heap two_bytes /\
  len two_bytes <= 3 + SIZE_MAX - 1 /\
  vec_remove_n two_bytes 3 NULL SIZE_MAX two_bytes_heap
    = Some (mkVec (at_block 0) 2 3 1, two_bytes_heap) /\
  mkVec (at_block 0) 2 3 1 <> two_bytes.
Proof.
  split_and!;
    [exact two_bytes_is_array|vm_compute; congruence|reflexivity|discriminate].
Qed.

(** C6 fails as stated.  [vec_new(&v, 2)] and [vec_reserve(&v, 2^63)]
    leave an array of capacity [2^63]: the request is for [2^63 * 2]
    bytes, which is 0 in [size_t].  [vec_reserve(&v, 2^63 + 1)] on this
    array, which is allocated and whose capacity is below [n], with [n]
    no more than twice the capacity, leaves the capacity [n], where the
    policy says twice the capacity: in [size_t] twice the capacity is 0,
    and [n] exceeds it. *)
Lemma reserve_doubling_wraps :
  vec_reserve junk_aa realloc_moves (vec_new no_vec 2) (2 ^ 63) []
  = Some (mkVec (at_block 0) (2 ^ 63) 0 2, [Some []]) /\
  is_vec [Some []] (mkVec (at_block 0) (2 ^ 63) 0 2) /\
  vec_reserve junk_aa realloc_moves (mkVec (at_block 0) (2 ^ 63) 0 2)
    (2 ^ 63 + 1) [Some []]
  = Some (mkVec (at_block 1) (2 ^ 63 + 1) 0 2, [None; Some [xaa; xaa]]) /\
  vec_capacity (mkVec (at_block 0) (2 ^ 63) 0 2) <> 0 /\
  vec_capacity (mkVec (at_block 0) (2 ^ 63) 0 2) < 2 ^ 63 + 1 /\
  2 ^ 63 + 1 <= 2 * vec_capacity (mkVec (at_block 0) (2 ^ 63) 0 2) /\
  vec_capacity (mkVec (at_block 1) (2 ^ 63 + 1) 0 2)
  <> 2 * vec_capacity (mkVec (at_block 0) (2 ^ 63) 0 2).
Proof.
  split_and!; try reflexivity; try (vm_compute; congruence).
  split; [vm_compute; split; congruence|].
  intros _. right. exists 0%nat, []. split; reflexivity.
Qed.

(** C9 fails as stated: on an array of [INT_MAX + 2] elements the counter
    [j], an [int], is incremented beyond [INT_MAX], which is undefined
    behaviour: [sort] produces no result. *)
Lemma sort_overflows_its_counters :
  is_array many_bytes_heap many_bytes /\ INT_MAX < len many_bytes /\
  vec_sort junk_aa many_bytes 1 many_bytes_heap = None.
Proof.
  split; [exact many_bytes_is_array|]. split.
  - unfold many_bytes. cbn [len]. lia.
  - apply vec_sort_overflows.
    + exact many_bytes_is_array.
    + unfold many_bytes. cbn [size]. lia.
    + unfold many_bytes. cbn [len]. lia.
    + unfold INT_MAX. lia.
Qed.


(** ** The theorems at a sample state *)

(** [reserve(3)] on an array of capacity 2: the capacity becomes 4. *)
Lemma reserve_capacity_policy_witness :
  exists v' h',
    vec_reserve junk_aa realloc_moves two_bytes 3 two_bytes_heap = Some (v', h') /\
    3 <= vec_capacity v' /\ vec_len v' = 2 /\ vec_capacity v' = 4.
Proof.
  destruct (reserve_capacity_policy junk_aa realloc_moves two_bytes two_bytes_heap 3)
    as (v' & h' & E & _ & H1 & H2 & _ & _ & _ & H3 & _).
  - split; [vm_compute; split; congruence|].
    intros _. right. exists 0%nat, [x07; x03]. split; reflexivity.
  - unfold SIZE_MAX. lia.
  - exists v', h'. split_and!; try assumption.
    apply H3; [simpl; lia|simpl; lia|vm_compute; congruence].
Defined.



(** [7; 3] sorted with the order value 1. *)
Lemma sort_orders_and_is_idempotent_witness :
  exists h1 es1,
    vec_sort junk_aa two_bytes VEC_SORT_ASC two_bytes_heap = Some (tt, h1) /\
    vec_elems h1 two_bytes = Some es1 /\ es1 ≡ₚ [[x07]; [x03]] /\
    (0 < VEC_SORT_ASC -> ascending es1) /\
    (VEC_SORT_ASC < 0 -> descending es1) /\
    exists h2, vec_sort junk_aa two_bytes VEC_SORT_ASC h1 = Some (tt, h2) /\
               vec_elems h2 two_bytes = Some es1.
Proof.
  apply (sort_orders_and_is_idempotent junk_aa two_bytes two_bytes_heap
           [[x07]; [x03]] VEC_SORT_ASC).
  - exact two_bytes_is_array.
  - simpl. lia.
  - vm_compute. congruence.
  - vm_compute. congruence.
  - reflexivity.
Defined.


(** One element removed at the length, and an empty array popped. *)
Lemma invalid_arguments_change_nothing_witness :
  vec_remove_n two_bytes 2 NULL 1 two_bytes_heap = Some (two_bytes, two_bytes_heap) /\
  vec_pop (mkVec NULL 0 0 1) (at_block 2) two_bytes_heap
    = Some (mkVec NULL 0 0 1, two_bytes_heap).
Proof.
  destruct (invalid_arguments_change_nothing junk_aa realloc_moves)
    as (_ & Hrem & _ & _ & Hpop & _).
  split.
  - apply Hrem. vm_compute. congruence.
  - apply Hpop. reflexivity.
Defined.

(** * Further properties *)

(** ** Reading and writing one element *)

Lemma ptr_add_0 p : ptr_add p 0 = p.
Proof. destruct p. unfold ptr_add. simpl. f_equal. lia. Qed.

Lemma v_at_0 v : v_at v 0 = ptr v.
Proof. unfold v_at. rewrite Z.mul_0_l. apply ptr_add_0. Qed.

(** [vec_get] within the length. *)
Lemma vec_get_spec v h out pos es e :
  is_array h v -> 0 < size v -> vec_elems h v = Some es ->
  0 <= pos -> es !! Z.to_nat pos = Some e -> is_buffer h v out (size v) ->
  exists h',
    vec_get v pos out h = Some (tt, h') /\ is_array h' v /\
    vec_elems h' v = Some es /\ elems_at h' out (size v) 1 = Some [e] /\
    length h' = length h /\ is_buffer h' v out (size v) /\
    (forall b0, pbase out <> Some b0 -> h' !! b0 = h !! b0).
Proof.
  intros Ha Hs Hes Hpos He Hbuf.
  pose proof Ha as (Hsz & Hl & Hcap & _).
  assert (Hlen : length es = Z.to_nat (len v))
    by (apply (vec_elems_length h); [lia|exact Hes]).
  apply lookup_lt_Some in He as Hlt.
  destruct (is_array_rep _ _ Ha Hs) as (b & sl & R); [lia|].
  pose proof R as (Hptr & Hlive & Hlsl & Hu & _ & _ & Hfit).
  destruct (is_buffer_outside _ _ _ _ Hbuf) as (bo & bso & Hpo & Hlo & Hoo & Hro & Hout).
  assert (Hne : bo <> b).
  { destruct Hout as [_ H]. rewrite Hptr in H. intros ->. apply H; [lia|reflexivity]. }
  destruct (v_cpy_to_rep h v b sl out pos 1 bo bso R) as (bs' & E1 & Hl' & Hload);
    try assumption; try lia.
  set (h1 := <[bo := Some bs']> h) in *.
  assert (R1 : rep h1 v b sl).
  { apply (rep_frame h); [assumption|]. unfold h1. now apply list_lookup_insert_ne. }
  assert (Hes' : es = take (Z.to_nat (len v)) sl).
  { rewrite (rep_elems _ _ _ _ R) in Hes. injection Hes as <-. reflexivity. }
  assert (Hsl : sl !! Z.to_nat pos = Some e).
  { rewrite Hes' in He. rewrite lookup_take_lt in He by lia. exact He. }
  exists h1. split_and!.
  - unfold vec_get. destruct (Z.ltb_spec pos (len v)); [exact E1|lia].
  - eapply rep_is_array; exact R1.
  - rewrite (rep_elems _ _ _ _ R1). now rewrite Hes'.
  - apply elems_at_concat; try lia.
    + rewrite Hload. change (Z.to_nat 1) with 1%nat.
      now rewrite (take1_drop _ _ _ Hsl).
    + reflexivity.
    + repeat constructor. eapply (Forall_lookup_1 _ _ _ _ Hu); eauto.
  - unfold h1. now rewrite length_insert.
  - exists bo, bs'. split_and!; try assumption; try lia.
    + unfold h1. apply live_insert_eq. eapply live_lt; eauto.
    + intros _. rewrite Hptr. simpl. congruence.
  - intros b0 Hb0. unfold h1. apply list_lookup_insert_ne. congruence.
Qed.

(** [vec_set] within the length. *)
Lemma vec_set_spec v h elem pos es e :
  is_array h v -> 0 < size v -> vec_elems h v = Some es ->
  0 <= pos < len v -> is_buffer h v elem (size v) ->
  elems_at h elem (size v) 1 = Some [e] ->
  exists h',
    vec_set v elem pos h = Some (tt, h') /\ is_array h' v /\
    vec_elems h' v = Some (<[Z.to_nat pos := e]> es) /\
    length h' = length h /\
    (forall b0, outside h v b0 -> h' !! b0 = h !! b0).
Proof.
  intros Ha Hs Hes Hpos Hbuf He.
  pose proof Ha as (Hsz & Hl & Hcap & _).
  destruct (is_array_rep _ _ Ha Hs) as (b & sl & R); [lia|].
  pose proof R as (Hptr & Hlive & Hlsl & Hu & _ & _ & Hfit).
  destruct (elems_at_bytes h elem (size v) 1 [e] ltac:(lia) ltac:(lia) He)
    as (Hload & _ & Hue).
  assert (Hlt : (Z.to_nat pos < length sl)%nat) by lia.
  set (sl1 := <[Z.to_nat pos := e]> sl).
  assert (E : vec_set v elem pos h = Some (tt, <[b := Some (concat sl1)]> h)).
  { unfold vec_set. destruct (Z.ltb_spec pos (len v)); [|lia].
    rewrite (v_cpy_rep h v b sl pos elem 1 [e] R); try lia; try assumption.
    - unfold sl1. rewrite (insert_take_drop sl) by assumption.
      replace (Z.to_nat pos + Z.to_nat 1)%nat with (S (Z.to_nat pos)) by lia.
      reflexivity.
    - reflexivity. }
  assert (R1 : rep (<[b := Some (concat sl1)]> h) v b sl1).
  { apply (rep_update h v b sl); [assumption|apply length_insert|].
    unfold sl1. apply Forall_insert; [assumption|]. now inversion Hue. }
  exists (<[b := Some (concat sl1)]> h). split_and!.
  - exact E.
  - eapply rep_is_array; exact R1.
  - rewrite (rep_elems _ _ _ _ R1). f_equal. unfold sl1.
    rewrite (rep_elems _ _ _ _ R) in Hes. injection Hes as <-.
    rewrite take_insert_lt by lia. reflexivity.
  - now rewrite length_insert.
  - intros b0 [_ Hb0]. apply list_lookup_insert_ne.
    intros ->. rewrite Hptr in Hb0. apply Hb0; [lia|reflexivity].
Qed.

(** ** Releasing, shrinking and failing to allocate *)

Lemma live_released {A} (h : heap A) b x :
  live h b = Some x -> live (<[b := None]> h) b = None.
Proof.
  intros H. apply live_lt in H. unfold live. now rewrite list_lookup_insert_eq.
Qed.

(** An unallocated array is well formed in every heap. *)
Lemma empty_is_array h p sz : 0 <= sz <= SIZE_MAX -> is_array h (mkVec p 0 0 sz).
Proof.
  intros H. unfold is_array, SIZE_MAX. simpl. split_and!; try lia. intros E. now elim E.
Qed.

Lemma vec_clear_spec v h :
  is_array h v ->
  exists h',
    vec_clear v h = Some (mkVec (ptr v) 0 0 (size v), h') /\
    length h' = length h /\
    (forall b, cap v <> 0 -> pbase (ptr v) = Some b -> live h' b = None) /\
    (forall b0, outside h v b0 -> h' !! b0 = h !! b0).
Proof.
  intros (Hsz & Hl & Hcap & Hblk). unfold vec_clear.
  destruct (Z.eqb_spec (cap v) 0) as [Hc|Hc]; cbn [negb].
  - exists h. split_and!; [reflexivity|reflexivity|intros; lia|reflexivity].
  - destruct (Hblk Hc) as (b & bs & Hptr & Hb & _).
    exists (<[b := None]> h). split_and!.
    + unfold bind, free. rewrite Hptr, is_null_block. cbn [pbase poff].
      rewrite Hb. reflexivity.
    + apply length_insert.
    + intros b' _. rewrite Hptr. intros [= <-]. eapply live_released; eauto.
    + intros b0 [_ Hb0]. apply list_lookup_insert_ne.
      intros ->. rewrite Hptr in Hb0. now apply Hb0.
Qed.

Section Shrink.

Variable junk : block -> nat -> byte.
Variable moves : block -> Z -> bool.

Lemma vec_shrink_spec v h es :
  is_array h v -> 0 < size v -> vec_elems h v = Some es -> 0 < len v ->
  exists v' h',
    vec_shrink_to_fit junk moves v h = Some (v', h') /\ is_array h' v' /\
    cap v' = len v /\ len v' = len v /\ size v' = size v /\
    vec_elems h' v' = Some es /\
    (forall b0, outside h v b0 -> h' !! b0 = h !! b0).
Proof.
  intros Ha Hs Hes Hlen. pose proof Ha as (Hsz & Hl & Hcap & _).
  destruct (is_array_rep _ _ Ha Hs) as (b & sl & R); [lia|].
  pose proof (rep_bytes _ _ _ _ R) as Hbytes.
  pose proof R as (Hptr & Hb & Hlsl & Hu & _ & _ & Hfit).
  pose proof PTRDIFF_lt_SIZE as HPS.
  assert (Hes' : es = take (Z.to_nat (len v)) sl).
  { rewrite (rep_elems _ _ _ _ R) in Hes. injection Hes as <-. reflexivity. }
  unfold vec_shrink_to_fit, v_resize.
  destruct (Z.eqb_spec (cap v) 0); [lia|]. cbn [negb].
  destruct (Z.ltb_spec (len v) (cap v)) as [Hlt|Hge]; cbn [orb].
  - unfold v_realloc, bind, realloc.
    rewrite wrap_small by nia. rewrite Hptr, is_null_block. cbn [pbase poff].
    rewrite Hb. cbn [Z.eqb negb].
    destruct (Z.ltb_spec PTRDIFF_MAX (len v * size v)); [nia|].
    assert (Hres : forall b', resized junk b' (concat sl) (Z.to_nat (len v * size v))
                              = concat es).
    { intros b'. unfold resized.
      replace (Z.to_nat (len v * size v) - length (concat sl))%nat with 0%nat by nia.
      unfold fresh_bytes. simpl. rewrite app_nil_r. rewrite Hes'.
      rewrite (concat_take_uniform (Z.to_nat (size v))) by assumption.
      f_equal. apply Z2Nat.inj_mul; lia. }
    assert (Hues : uniform (Z.to_nat (size v)) es)
      by (rewrite Hes'; now apply uniform_take).
    assert (Hles : Z.of_nat (length es) = len v)
      by (rewrite Hes', length_take; lia).
    assert (Hout : forall b0, outside h v b0 -> b0 <> b).
    { intros b0 [_ Hb0] ->. rewrite Hptr in Hb0. apply Hb0; [lia|reflexivity]. }
    destruct (moves b (len v * size v)); rewrite Hres.
    + assert (R' : rep (<[b := None]> h ++ [Some (concat es)])
                       (mkVec (mkptr (Some (length h)) 0) (len v) (len v) (size v))
                       (length h) es).
      { repeat split; simpl; try assumption; try lia; try nia.
        rewrite <- (length_insert h b None) at 1. apply live_app_new. }
      eexists _, _. split; [reflexivity|].
      split; [eapply rep_is_array; exact R'|]. simpl.
      split_and!; try reflexivity.
      * rewrite (rep_elems _ _ _ _ R'). simpl. f_equal. apply take_ge. lia.
      * intros b0 Hb0. pose proof (Hout _ Hb0). destruct Hb0 as [Hb0 _].
        rewrite lookup_app_l by (rewrite length_insert; lia).
        now apply list_lookup_insert_ne.
    + assert (R' : rep (<[b := Some (concat es)]> h)
                       (mkVec (mkptr (Some b) 0) (len v) (len v) (size v)) b es).
      { repeat split; simpl; try assumption; try lia; try nia.
        apply live_insert_eq. eapply live_lt; eauto. }
      eexists _, _. split; [reflexivity|].
      split; [eapply rep_is_array; exact R'|]. simpl.
      split_and!; try reflexivity.
      * rewrite (rep_elems _ _ _ _ R'). simpl. f_equal. apply take_ge. lia.
      * intros b0 Hb0. pose proof (Hout _ Hb0).
        now apply list_lookup_insert_ne.
  - unfold GROWTH_FACTOR. rewrite (wrap_small (cap v * 2)) by nia.
    destruct (Z.ltb_spec (cap v * 2) (len v)); [lia|].
    destruct (Z.ltb_spec (cap v) (len v)); [lia|].
    exists v, h. split; [reflexivity|]. split_and!; try assumption; try lia; reflexivity.
Qed.

(** [vec_reserve] when the allocator refuses the request. *)
Lemma vec_reserve_fails v h n :
  is_array h v -> 0 < size v -> cap v < n ->
  PTRDIFF_MAX < grown_cap (cap v) n * size v <= SIZE_MAX ->
  vec_reserve junk moves v n h
  = Some (mkVec NULL (grown_cap (cap v) n) (len v) (size v), h).
Proof.
  intros Ha Hs Hn Hbig. pose proof Ha as (Hsz & Hl & Hcap & Hblk).
  unfold grown_cap in *. destruct (Z.leb_spec n (cap v)); [lia|].
  unfold vec_reserve. destruct (Z.ltb_spec (cap v) n); [|lia].
  unfold v_resize, v_alloc, v_realloc, GROWTH_FACTOR.
  destruct (Z.eqb_spec (cap v) 0) as [Hc0|Hc0]; cbn [negb].
  - replace (if 2 <? n then n else 2) with (Z.max n 2)
      by (destruct (Z.ltb_spec 2 n); lia).
    rewrite wrap_small by lia. unfold bind, malloc.
    destruct (Z.ltb_spec PTRDIFF_MAX (Z.max n 2 * size v)); [reflexivity|lia].
  - destruct (Hblk Hc0) as (b & bs & Hptr & Hb & Hlen & Hfit).
    pose proof PTRDIFF_lt_SIZE.
    rewrite (wrap_small (cap v * 2)) by nia.
    destruct (Z.ltb_spec n (cap v)); [lia|]. cbn [orb].
    replace (cap v * 2) with (2 * cap v) by lia.
    assert (Hre : forall c, PTRDIFF_MAX < c * size v <= SIZE_MAX ->
              realloc junk moves (ptr v) (wrap (c * size v)) h = Some (NULL, h)).
    { intros c Hc. rewrite wrap_small by lia. unfold realloc.
      rewrite Hptr, is_null_block. cbn [pbase poff]. rewrite Hb. cbn [Z.eqb negb].
      destruct (Z.ltb_spec PTRDIFF_MAX (c * size v)); [reflexivity|lia]. }
    destruct (Z.ltb_spec (2 * cap v) n).
    + unfold bind. now rewrite Hre.
    + destruct (Z.ltb_spec (cap v) n); [|lia]. unfold bind. now rewrite Hre.
Qed.

End Shrink.

(** ** Zeroed arrays, exchanges and raw access *)

Lemma concat_replicate {A} (n m : nat) (x : A) :
  concat (replicate n (replicate m x)) = replicate (n * m) x.
Proof.
  induction n; simpl; [reflexivity|]. rewrite IHn. symmetry. apply replicate_add.
Qed.

Section Init.

Variable junk : block -> nat -> byte.
Variable moves : block -> Z -> bool.

Lemma vec_init_spec v size' n h :
  0 < n -> 0 < size' -> Z.max size' 2 * n <= PTRDIFF_MAX ->
  (n <= Z.max size' 2 ->
   exists h',
     vec_init junk moves v size' n h
     = Some (mkVec (mkptr (Some (length h)) 0) (Z.max size' 2) n n, h') /\
     is_array h' (mkVec (mkptr (Some (length h)) 0) (Z.max size' 2) n n) /\
     vec_elems h' (mkVec (mkptr (Some (length h)) 0) (Z.max size' 2) n n)
     = Some (replicate (Z.to_nat n) (replicate (Z.to_nat n) x00))) /\
  (Z.max size' 2 < n -> n * n <= SIZE_MAX ->
   vec_init junk moves v size' n h = None).
Proof.
  intros Hn Hs Hfit. pose proof PTRDIFF_lt_SIZE as HPS.
  destruct (vec_reserve_alloc junk moves (vec_new v n) h size')
    as (sl & E & R); try reflexivity; try assumption.
  { simpl. nia. }
  cbn [size vec_new] in E, R.
  set (v1 := mkVec (mkptr (Some (length h)) 0) (Z.max size' 2) 0 n) in *.
  pose proof (rep_bytes _ _ _ _ R) as Hbytes. cbn [cap size v1] in Hbytes.
  split.
  - intros Hle.
    set (new := replicate (Z.to_nat n) (replicate (Z.to_nat n) x00)).
    assert (Hunew : uniform (Z.to_nat (size v1)) new).
    { unfold new, uniform. apply Forall_replicate. apply length_replicate. }
    assert (Hlnew : length new = Z.to_nat n) by apply length_replicate.
    assert (Hcat : concat new = replicate (Z.to_nat (n * n)) x00).
    { unfold new. rewrite concat_replicate. f_equal. symmetry. apply Z2Nat.inj_mul; lia. }
    set (sl1 := take (Z.to_nat 0) sl ++ new ++ drop (Z.to_nat 0 + length new) sl).
    assert (Hl1 : length sl1 = length sl).
    { unfold sl1. destruct R as (_ & _ & Hlsl & _). cbn [cap v1] in Hlsl.
      rewrite !length_app, length_take, length_drop. simpl. lia. }
    assert (Hu1 : uniform (Z.to_nat (size v1)) sl1).
    { pose proof R as (_ & _ & _ & Hu & _).
      unfold sl1. repeat apply uniform_app; auto using uniform_take, uniform_drop. }
    pose proof (rep_update _ _ _ _ sl1 R Hl1 Hu1) as R1.
    assert (R2 : rep (<[length h := Some (concat sl1)]> (h ++ [Some (concat sl)]))
                     (mkVec (ptr v1) (cap v1) n (size v1)) (length h) sl1).
    { apply rep_set_len; [exact R1|]. cbn [cap v1]. lia. }
    cbn [ptr cap size v1] in R2.
    eexists. split_and!.
    + unfold vec_init, vec_new_with. rewrite (bind_step _ _ _ _ _ E).
      rewrite (bind_step _ _ _ tt
                 (<[length h := Some (concat sl1)]> (h ++ [Some (concat sl)]))).
      * reflexivity.
      * unfold v_set, memset. fold v1. cbn [size v1].
        rewrite wrap_small by nia. rewrite <- Hcat.
        rewrite (rep_store _ _ _ _ 0 new R); try assumption; try lia.
        { reflexivity. }
        { cbn [cap v1]. lia. }
    + eapply rep_is_array. exact R2.
    + rewrite (rep_elems _ _ _ _ R2). cbn [len]. f_equal. unfold sl1. simpl.
      rewrite <- Hlnew at 1. apply take_app_length.
  - intros Hlt Hnn.
    unfold vec_init, vec_new_with. rewrite (bind_step _ _ _ _ _ E).
    unfold bind at 1. unfold v_set, memset. fold v1. cbn [size v1].
    rewrite wrap_small by nia. rewrite v_at_0. cbn [ptr v1].
    destruct R as (_ & Hlive & _).
    unfold store. destruct (replicate (Z.to_nat (n * n)) x00) as [|x l] eqn:El.
    { apply (f_equal length) in El. rewrite length_replicate in El. simpl in El. nia. }
    cbn [pbase poff]. rewrite Hlive.
    rewrite <- El, length_replicate.
    destruct (Z.leb_spec 0 0); [|lia].
    destruct (Z.leb_spec (0 + Z.of_nat (Z.to_nat (n * n)))
                (Z.of_nat (length (concat sl)))); [nia|reflexivity].
Qed.

End Init.

(** Two slots exchanged twice. *)
Lemma exchange_twice {A} (l : list A) (i j : nat) (a b : A) :
  l !! i = Some a -> l !! j = Some b ->
  <[j := b]> (<[i := a]> (<[j := a]> (<[i := b]> l))) = l.
Proof.
  intros Hi Hj. apply list_eq. intros k.
  apply lookup_lt_Some in Hi as Hil. apply lookup_lt_Some in Hj as Hjl.
  destruct (decide (k = j)) as [->|Hkj].
  - rewrite list_lookup_insert_eq by (rewrite !length_insert; lia). now rewrite Hj.
  - rewrite list_lookup_insert_ne by congruence.
    destruct (decide (k = i)) as [->|Hki].
    + rewrite list_lookup_insert_eq by (rewrite !length_insert; lia). now rewrite Hi.
    + now rewrite !list_lookup_insert_ne by congruence.
Qed.

(** With no exchange asked for, the exchange sort returns its input. *)
Lemma exchange_sort_never {A} (gt : A -> A -> bool) (l : list A) :
  (forall a b, gt a b = false) -> exchange_sort gt l = l.
Proof.
  intros H. apply outer_loop_in_order. intros a b x y _ _ _. apply H.
Qed.

Lemma vec_at_spec v h es pos e :
  is_array h v -> 0 < size v -> vec_elems h v = Some es ->
  0 <= pos -> es !! Z.to_nat pos = Some e ->
  vec_at v pos = mkptr (pbase (ptr v)) (pos * size v) /\
  load (vec_at v pos) (size v) h = Some e.
Proof.
  intros Ha Hs Hes Hpos He. pose proof Ha as (Hsz & Hl & Hcap & _).
  assert (Hlen : length es = Z.to_nat (len v))
    by (apply (vec_elems_length h); [lia|exact Hes]).
  apply lookup_lt_Some in He as Hlt.
  destruct (is_array_rep _ _ Ha Hs) as (b & sl & R); [lia|].
  pose proof R as (Hptr & _).
  rewrite (rep_elems _ _ _ _ R) in Hes. injection Hes as <-.
  rewrite lookup_take_lt in He by lia.
  unfold vec_at. destruct (Z.ltb_spec pos (len v)); [|lia]. split.
  - unfold v_at, ptr_add. rewrite (rep_wrap _ _ _ _ pos R) by lia.
    rewrite Hptr. reflexivity.
  - rewrite <- (Z.mul_1_l (size v)), <- (rep_wrap _ _ _ _ 1 R) by lia.
    now apply (rep_load_slot h v b sl).
Qed.

Lemma vec_data_at v : 0 <= len v -> vec_data v = vec_at v 0.
Proof.
  intros H. unfold vec_data, vec_at. rewrite v_at_0.
  destruct (Z.eqb_spec (len v) 0) as [->|]; [reflexivity|].
  destruct (Z.ltb_spec 0 (len v)); [reflexivity|lia].
Qed.

Section Fits.

Variable junk : block -> nat -> byte.
Variable moves : block -> Z -> bool.

(** An insertion that the capacity has room for keeps the buffer. *)
Lemma vec_insert_n_fits v elems n pos h v' h' :
  0 <= len v -> 0 <= n -> len v + n <= cap v -> cap v <= SIZE_MAX ->
  vec_insert_n junk moves v elems n pos h = Some (v', h') ->
  ptr v' = ptr v /\ cap v' = cap v.
Proof.
  intros Hl Hn Hfit Hcap. unfold vec_insert_n.
  destruct (pos <=? len v); [|intros [= <- <-]; now split].
  assert (Hw : wrap (len v + n) <= cap v) by (rewrite wrap_small by lia; lia).
  rewrite (bind_step _ _ _ _ _ (vec_reserve_noop junk moves v h _ Hw)).
  intros E. apply bind_inversion in E as ([] & h1 & _ & E).
  apply bind_inversion in E as ([] & h2 & _ & E).
  injection E as <- <-. now split.
Qed.

End Fits.

(** [vec_remove_n] with no buffer for the removed elements. *)
Lemma vec_remove_n_null v h n pos es :
  is_array h v -> 0 < size v -> vec_elems h v = Some es ->
  0 <= pos -> 0 < n -> pos + n <= len v ->
  exists h',
    vec_remove_n v pos NULL n h =
      Some (mkVec (ptr v) (cap v) (len v - n) (size v), h') /\
    is_array h' (mkVec (ptr v) (cap v) (len v - n) (size v)) /\
    vec_elems h' (mkVec (ptr v) (cap v) (len v - n) (size v)) =
      Some (take (Z.to_nat pos) es ++ drop (Z.to_nat pos + Z.to_nat n) es) /\
    length h' = length h /\
    (forall b0, outside h v b0 -> h' !! b0 = h !! b0).
Proof.
  intros Ha Hs Hes Hpos Hn Hle.
  pose proof Ha as (Hsz & Hlen & Hcap & _).
  destruct (is_array_rep _ _ Ha Hs) as (b & sl & R); [lia|].
  pose proof R as (Hptr & Hlive & Hlsl & Hu & _ & _ & Hfit).
  set (p := Z.to_nat pos). set (l := Z.to_nat (len v)). set (k := Z.to_nat n).
  set (sl2 := take p sl ++ take (l - (p + k)) (drop (p + k) sl)
              ++ drop (p + (l - (p + k))) sl).
  assert (Hlen2 : length sl2 = length sl)
    by (apply slots_remove_length; unfold p, l, k; lia).
  assert (Hu2 : uniform (Z.to_nat (size v)) sl2).
  { unfold sl2. repeat apply uniform_app; auto using uniform_take, uniform_drop. }
  pose proof (rep_update _ _ _ _ sl2 R Hlen2 Hu2) as R2.
  set (h2 := <[b := Some (concat sl2)]> h) in *.
  pose proof PTRDIFF_lt_SIZE. pose proof (rep_bytes _ _ _ _ R).
  assert (cap v <= PTRDIFF_MAX) by nia.
  assert (Hmove : (if wrap (pos + n) <? len v
                   then v_move v pos (v_at v (wrap (pos + n)))
                          (wrap (len v - wrap (pos + n)))
                   else ret tt) h = Some (tt, h2)).
  { rewrite (wrap_small (pos + n)) by lia.
    rewrite (wrap_small (len v - (pos + n))) by lia.
    destruct (Z.ltb_spec (pos + n) (len v)).
    - rewrite (v_move_rep _ _ _ _ _ _ _ R) by lia.
      unfold h2, sl2, p, l, k. rewrite !Z2Nat.inj_sub, !Z2Nat.inj_add by lia.
      reflexivity.
    - unfold ret. do 2 f_equal. unfold h2. symmetry. apply list_insert_id.
      unfold live in Hlive.
      destruct (h !! b) as [[x|]|]; try discriminate.
      injection Hlive as ->. do 2 f_equal. unfold sl2.
      replace (l - (p + k))%nat with 0%nat by (unfold p, l, k; lia).
      rewrite take_0, Nat.add_0_r. simpl. now rewrite take_drop. }
  assert (R3 : rep h2 (mkVec (ptr v) (cap v) (len v - n) (size v)) b sl2)
    by (apply rep_set_len; [exact R2|lia]).
  assert (Hes' : es = take l sl).
  { rewrite (rep_elems _ _ _ _ R) in Hes. injection Hes as <-. reflexivity. }
  exists h2. split.
  { unfold vec_remove_n.
    rewrite (wrap_small (pos + n - 1)) by lia.
    destruct (Z.ltb_spec (pos + n - 1) (len v)); [|lia].
    change (is_null NULL) with true. cbn [negb].
    rewrite (bind_step _ _ h tt h) by reflexivity.
    rewrite (bind_step _ _ _ _ _ Hmove).
    rewrite (wrap_small (len v - n)) by lia. reflexivity. }
  split; [eapply rep_is_array; exact R3|].
  split_and!.
  - rewrite (rep_elems _ _ _ _ R3). simpl. f_equal.
    replace (Z.to_nat (len v - n)) with (l - k)%nat by (unfold l, k; lia).
    unfold sl2. rewrite slots_remove by (unfold p, l, k; lia).
    rewrite Hes'. reflexivity.
  - unfold h2. now rewrite length_insert.
  - intros b0 [_ Hb0]. unfold h2. apply list_lookup_insert_ne.
    intros ->. rewrite Hptr in Hb0. apply Hb0; [lia|reflexivity].
Qed.

(** ** The iteration cursor *)

Lemma iter_loop_spec v elem es k : forall fuel i h,
  is_array h v -> 0 < size v -> vec_elems h v = Some es ->
  is_buffer h v elem (size v) -> 0 <= i ->
  Z.to_nat (len v - i) = k -> (k < fuel)%nat ->
  exists h',
    iter_loop fuel v elem (i, h)
    = Some (drop (Z.to_nat i) es, (Z.max i (len v), h')) /\
    is_array h' v /\ vec_elems h' v = Some es /\ is_buffer h' v elem (size v).
Proof.
  induction k as [|k IH]; intros fuel i h Ha Hs Hes Hbuf Hi Hk Hfuel;
    (destruct fuel as [|fuel]; [lia|]);
    pose proof Ha as (Hsz & Hl & Hcap & _);
    assert (Hlen : length es = Z.to_nat (len v))
      by (apply (vec_elems_length h); [lia|exact Hes]).
  - exists h. split_and!; try assumption.
    cbn [iter_loop]. unfold bind, vec_iter, YES, NO. cbn [fst snd].
    destruct (Z.ltb_spec i (len v)); [lia|].
    unfold ret. rewrite drop_ge by lia. rewrite Z.max_l by lia. reflexivity.
  - destruct (lookup_lt_is_Some_2 es (Z.to_nat i)) as [e He]; [lia|].
    destruct (vec_get_spec v h elem i es e Ha Hs Hes Hi He Hbuf)
      as (h1 & E & Ha1 & Hes1 & Hout & _ & Hbuf1 & _).
    destruct (IH fuel (i + 1) h1 Ha1 Hs Hes1 Hbuf1) as (h2 & E2 & Ha2 & Hes2 & Hbuf2);
      try lia.
    exists h2. split_and!; try assumption.
    cbn [iter_loop]. unfold bind at 1. unfold vec_iter, YES, NO. cbn [fst snd].
    destruct (Z.ltb_spec i (len v)); [|lia].
    rewrite E. rewrite wrap_small by lia.
    unfold bind at 1. cbn [snd].
    unfold elems_at in Hout. rewrite Z.mul_1_l in Hout.
    destruct (load elem (size v) h1) as [bs|] eqn:El; [|discriminate].
    assert (bs = e).
    { apply load_length in El; [|lia]. injection Hout as Hout.
      change (Z.to_nat 1) with 1%nat in Hout. simpl in Hout.
      rewrite <- Hout. symmetry. apply take_ge. lia. }
    subst bs. unfold bind. rewrite E2. unfold ret.
    rewrite (drop_S _ _ _ He).
    replace (Z.to_nat (i + 1)) with (S (Z.to_nat i)) by lia.
    do 3 f_equal. lia.
Qed.

(** ** The list of an arena *)

(** The nodes of a list are all that the list depends on. *)
Lemma arena_nodes_frame h h' p l :
  arena_nodes h p l -> (forall b, b ∈ l -> h' !! b = h !! b) -> arena_nodes h' p l.
Proof.
  induction 1 as [|b nd q l Hb Hsz Hn Hq IH]; intros Hsame; [constructor|].
  apply (nodes_cons h' b nd q l); try assumption.
  - unfold live in *. rewrite Hsame; [assumption|now left].
  - apply IH. intros b' Hb'. apply Hsame. now right.
Qed.

Lemma insert_last {A} (h : list A) x y : <[length h := y]> (h ++ [x]) = h ++ [y].
Proof. rewrite insert_app_r_alt by lia. now rewrite Nat.sub_diag. Qed.

Lemma arena_nodes_head h p l :
  arena_nodes h p l ->
  match l with [] => p = NULL | b :: _ => p = mkptr (Some b) 0 end.
Proof. now intros []. Qed.

Section ArenaProofs.

Variable junk : block -> nat -> byte.
Variable moves : block -> Z -> bool.

Lemma arena_alloc_spec arena bytes (h : AHeap) :
  0 <= bytes -> sizeof_ArenaNode + bytes <= PTRDIFF_MAX ->
  arena_alloc junk arena bytes h
  = Some ((mkArena (mkptr (Some (length h)) 0),
           mkptr (Some (length h)) sizeof_ArenaNode),
          h ++ [Some (mkNode (sizeof_ArenaNode + bytes) (Some (head arena))
                        (fresh_bytes junk (length h) 0 (Z.to_nat bytes)))]).
Proof.
  intros Hb Hfit. pose proof PTRDIFF_lt_SIZE.
  unfold arena_alloc. unfold sizeof_ArenaNode in *. rewrite wrap_small by lia.
  unfold bind, node_malloc.
  destruct (Z.ltb_spec PTRDIFF_MAX (8 + bytes)); [lia|].
  unfold set_next. cbn [pbase poff]. rewrite live_app_new. cbn [bsize payload].
  destruct (Z.leb_spec sizeof_ArenaNode (8 + bytes)); [|unfold sizeof_ArenaNode in *; lia].
  cbn [Z.eqb andb]. unfold ret, ptr_add. cbn [pbase poff].
  rewrite insert_last. unfold sizeof_ArenaNode.
  replace (8 + bytes - 8) with bytes by lia. reflexivity.
Qed.

Lemma arena_alloc_nodes arena (h : AHeap) l x :
  arena_nodes h (head arena) l -> sizeof_ArenaNode <= bsize x ->
  next x = Some (head arena) ->
  arena_nodes (h ++ [Some x]) (mkptr (Some (length h)) 0) (length h :: l) /\
  length h ∉ l.
Proof.
  intros Hl Hsz Hn. split.
  - apply (nodes_cons _ _ x (head arena)); try assumption.
    + apply live_app_new.
    + apply (arena_nodes_frame h); [assumption|].
      intros b Hb. apply lookup_app_l. eapply arena_nodes_lt; eauto.
  - intros Hin. pose proof (arena_nodes_lt _ _ _ Hl _ Hin). lia.
Qed.

Lemma node_free_node (h : AHeap) b nd :
  live h b = Some nd ->
  node_free (mkptr (Some b) 0) h = Some (tt, <[b := None]> h).
Proof. intros Hb. unfold node_free. rewrite is_null_block. simpl. now rewrite Hb. Qed.

Lemma free_nodes_spec l : forall (h : AHeap) q fuel,
  arena_nodes h q l -> (length l < fuel)%nat ->
  exists h',
    free_nodes fuel q h = Some (tt, h') /\ length h' = length h /\
    (forall b, b ∈ l -> live h' b = None) /\
    (forall b, b ∉ l -> h' !! b = h !! b).
Proof.
  induction l as [|b l IH]; intros h q fuel Hl Hfuel;
    (destruct fuel as [|fuel]; [simpl in Hfuel; lia|]).
  - inversion Hl; subst. exists h. split_and!; try reflexivity.
    intros b Hb. now apply elem_of_nil in Hb.
  - pose proof (arena_nodes_NoDup _ _ _ Hl) as Hnd. apply NoDup_cons in Hnd as [Hnb Hnd].
    inversion Hl as [|b0 nd q' l0 Hb Hsz Hn Hq]; subst.
    assert (Hq' : arena_nodes (<[b := None]> h) q' l).
    { apply (arena_nodes_frame h); [assumption|].
      intros b' Hb'. apply list_lookup_insert_ne. intros ->. contradiction. }
    destruct (IH _ q' fuel Hq') as (h' & E & Hlen & Hfreed & Hsame);
      [simpl in Hfuel; lia|].
    exists h'. split_and!.
    + cbn [free_nodes]. rewrite is_null_block. cbn [negb].
      rewrite (bind_step _ _ _ _ _ (get_next_node _ _ _ _ Hb Hsz Hn)).
      rewrite (bind_step _ _ _ _ _ (node_free_node _ _ _ Hb)). exact E.
    + now rewrite Hlen, length_insert.
    + intros b' Hb'. apply elem_of_cons in Hb' as [->|Hb']; [|now apply Hfreed].
      unfold live. rewrite (Hsame _ Hnb).
      rewrite list_lookup_insert_eq by (eapply live_lt; eauto). reflexivity.
    + intros b' Hb'. apply not_elem_of_cons in Hb' as [Hne Hb'].
      rewrite (Hsame _ Hb'). now apply list_lookup_insert_ne.
Qed.

Lemma arena_free_spec arena (h : AHeap) l :
  arena_nodes h (head arena) l ->
  exists h',
    arena_free arena h = Some (mkArena NULL, h') /\ length h' = length h /\
    (forall b, b ∈ l -> live h' b = None) /\
    (forall b, b ∉ l -> h' !! b = h !! b).
Proof.
  intros Hl. destruct arena as [hd]. cbn [head] in *. unfold arena_free. cbn [head].
  pose proof (arena_nodes_NoDup _ _ _ Hl) as Hnd.
  pose proof (arena_nodes_length _ _ _ Hl) as Hlen.
  inversion Hl as [|b nd q l0 Hb Hsz Hn Hq]; subst.
  - exists h. split_and!; try reflexivity.
    intros b Hb. now apply elem_of_nil in Hb.
  - apply NoDup_cons in Hnd as [Hnb Hnd]. simpl in Hlen.
    destruct (free_nodes_spec l0 h q (S (length h)) Hq) as (h1 & E & Hl1 & Hfreed & Hsame);
      [lia|].
    assert (Hb1 : live h1 b = Some nd) by (unfold live in *; now rewrite (Hsame _ Hnb)).
    exists (<[b := None]> h1). split_and!.
    + rewrite is_null_block. cbn [negb].
      rewrite (bind_step _ _ _ _ _ (get_next_node _ _ _ _ Hb Hsz Hn)).
      rewrite (bind_step _ _ h tt h1) by exact E.
      rewrite (bind_step _ _ _ _ _ (node_free_node _ _ _ Hb1)). reflexivity.
    + now rewrite length_insert.
    + intros b' Hb'. destruct (decide (b' = b)) as [->|Hne].
      * eapply live_released; eauto.
      * apply elem_of_cons in Hb' as [->|Hb']; [contradiction|].
        rewrite live_insert_ne by congruence. now apply Hfreed.
    + intros b' Hb'. apply not_elem_of_cons in Hb' as [Hne Hb'].
      rewrite list_lookup_insert_ne by congruence. now apply Hsame.
Qed.

End ArenaProofs.

(** ** Resizing a node *)

Lemma arena_nodes_elem h p l :
  arena_nodes h p l -> forall a, a ∈ l ->
  exists x, live h a = Some x /\ sizeof_ArenaNode <= bsize x.
Proof.
  induction 1 as [|b nd q l Hb Hsz Hn _ IH]; intros a Hin.
  - now apply elem_of_nil in Hin.
  - apply elem_of_cons in Hin as [->|Hin]; [eauto|now apply IH].
Qed.

Lemma arena_nodes_app_inv h l : forall l1 p,
  arena_nodes h p (l1 ++ l) -> exists p', arena_nodes h p' l.
Proof.
  induction l1 as [|a l1 IH]; intros p Hl; simpl in Hl; [eauto|].
  inversion Hl; subst. eauto.
Qed.

(** The search stops at the needle, with the node before it. *)
Lemma find_node_hit b l2 : forall l1 (h : AHeap) p fuel prev,
  arena_nodes h p (l1 ++ b :: l2) -> (length l1 < fuel)%nat ->
  find_node fuel (mkptr (Some b) 0) prev p h
  = Some ((match last l1 with Some b1 => mkptr (Some b1) 0 | None => prev end,
           mkptr (Some b) 0), h).
Proof.
  induction l1 as [|a l1 IH]; intros h p fuel prev Hl Hfuel;
    (destruct fuel as [|fuel]; [simpl in Hfuel; lia|]).
  - simpl in Hl. inversion Hl; subst. cbn [find_node]. rewrite is_null_block.
    rewrite (proj2 (ptr_eqb_eq _ _) eq_refl). reflexivity.
  - pose proof (arena_nodes_NoDup _ _ _ Hl) as Hnd.
    simpl in Hl. inversion Hl as [|a0 nd q l0 Ha Hsz Hn Hq]; subst.
    assert (a <> b).
    { intros ->. simpl in Hnd. apply NoDup_cons in Hnd as [Hnin _].
      apply Hnin. apply elem_of_app. right. now left. }
    cbn [find_node]. rewrite is_null_block, ptr_eqb_neq by congruence.
    cbn [negb andb].
    rewrite (bind_step _ _ _ _ _ (get_next_node _ _ _ _ Ha Hsz Hn)).
    rewrite (IH h q fuel (mkptr (Some a) 0) Hq) by (simpl in Hfuel; lia).
    rewrite last_cons. destruct (last l1); reflexivity.
Qed.

(** The node before the resized one is linked to it again. *)
Lemma arena_nodes_relink b b' l2 b1 nd1 (h h' : AHeap) : forall l1 p,
  arena_nodes h p (l1 ++ b1 :: b :: l2) ->
  (forall a, a ∈ l1 -> h' !! a = h !! a) ->
  live h b1 = Some nd1 ->
  live h' b1 = Some (mkNode (bsize nd1) (Some (mkptr (Some b') 0)) (payload nd1)) ->
  arena_nodes h' (mkptr (Some b') 0) (b' :: l2) ->
  arena_nodes h' p (l1 ++ b1 :: b' :: l2).
Proof.
  induction l1 as [|a l1 IH]; intros p Hl Hsame Hb1 Hb1' Hrest; simpl in *.
  - inversion Hl as [|? nd q ? Ha Hsz Hn Hq]; subst.
    assert (nd = nd1) by congruence. subst nd.
    eapply nodes_cons; [exact Hb1'|exact Hsz|reflexivity|exact Hrest].
  - inversion Hl as [|? nd q ? Ha Hsz Hn Hq]; subst.
    eapply nodes_cons; [|exact Hsz|exact Hn|].
    + unfold live in *. rewrite Hsame; [assumption|now left].
    + apply IH; try assumption. intros a' Ha'. apply Hsame. now right.
Qed.

Section Realloc.

Variable junk : block -> nat -> byte.
Variable moves : block -> Z -> bool.

Lemma node_realloc_spec (h : AHeap) b nd n :
  live h b = Some nd -> sizeof_ArenaNode <= n <= PTRDIFF_MAX ->
  exists b' h1,
    node_realloc junk moves (mkptr (Some b) 0) n h = Some (mkptr (Some b') 0, h1) /\
    live h1 b' = Some (mkNode n (next nd)
                         (resized junk b' (payload nd) (Z.to_nat (n - sizeof_ArenaNode)))) /\
    (forall a, a <> b -> (a < length h)%nat -> h1 !! a = h !! a) /\
    (b' = b \/ (b' = length h /\ live h1 b = None)) /\
    (length h <= length h1)%nat.
Proof.
  intros Hb Hn. unfold node_realloc. rewrite is_null_block. cbn [pbase poff].
  rewrite Hb. cbn [Z.eqb negb].
  destruct (Z.ltb_spec PTRDIFF_MAX n); [lia|].
  destruct (Z.leb_spec sizeof_ArenaNode n); [|lia].
  pose proof (live_lt _ _ _ Hb) as Hlt.
  destruct (moves b n).
  - eexists (length h), _. split; [reflexivity|]. split_and!.
    + unfold live. rewrite lookup_app_r by (rewrite length_insert; lia).
      rewrite length_insert, Nat.sub_diag. reflexivity.
    + intros a Hne Ha. rewrite lookup_app_l by (rewrite length_insert; lia).
      now apply list_lookup_insert_ne.
    + right. split; [reflexivity|]. unfold live.
      rewrite lookup_app_l by (rewrite length_insert; lia).
      now rewrite list_lookup_insert_eq.
    + rewrite length_app, length_insert. lia.
  - eexists b, _. split; [reflexivity|]. split_and!.
    + now apply live_insert_eq.
    + intros a Hne Ha. now apply list_lookup_insert_ne.
    + now left.
    + now rewrite length_insert.
Qed.

Lemma set_next_node (h : AHeap) b nd q :
  live h b = Some nd -> sizeof_ArenaNode <= bsize nd ->
  set_next (mkptr (Some b) 0) q h
  = Some (tt, <[b := Some (mkNode (bsize nd) (Some q) (payload nd))]> h).
Proof.
  intros Hb Hsz. unfold set_next. cbn [pbase poff]. rewrite Hb.
  destruct (Z.leb_spec sizeof_ArenaNode (bsize nd)); [reflexivity|lia].
Qed.

Lemma arena_realloc_hit arena bytes (h : AHeap) l1 l2 b nd q :
  arena_nodes h (head arena) (l1 ++ b :: l2) ->
  live h b = Some nd -> next nd = Some q ->
  0 <= bytes -> sizeof_ArenaNode + bytes <= PTRDIFF_MAX ->
  exists arena' h' b',
    arena_realloc junk moves arena bytes (mkptr (Some b) sizeof_ArenaNode) h
    = Some ((arena', ptr_add q sizeof_ArenaNode), h') /\
    arena_nodes h' (head arena') (l1 ++ b' :: l2) /\
    live h' b' = Some (mkNode (sizeof_ArenaNode + bytes) (Some q)
                         (resized junk b' (payload nd) (Z.to_nat bytes))) /\
    (b' = b \/ (b' = length h /\ live h' b = None)) /\
    (forall a, a ∈ l1 ++ l2 ->
       exists x x', live h a = Some x /\ live h' a = Some x' /\
                    payload x' = payload x /\ bsize x' = bsize x).
Proof.
  intros Hl Hb Hq Hbytes Hfit. pose proof PTRDIFF_lt_SIZE as HPS.
  pose proof (arena_nodes_NoDup _ _ _ Hl) as Hnd.
  pose proof (arena_nodes_length _ _ _ Hl) as Hlen.
  pose proof (arena_nodes_lt _ _ _ Hl) as Hlts.
  pose proof (arena_nodes_elem _ _ _ Hl) as Hel.
  rewrite length_app in Hlen. simpl in Hlen.
  assert (Hsuf : arena_nodes h q l2).
  { destruct (arena_nodes_app_inv h (b :: l2) l1 _ Hl) as (p' & Hs).
    inversion Hs as [|? nd0 q0 ? Hb0 _ Hn0 Hq0]; subst. congruence. }
  assert (Hbsz : sizeof_ArenaNode <= bsize nd).
  { destruct (Hel b) as (x & Hx & Hsz); [apply elem_of_app; right; now left|].
    congruence. }
  set (n := sizeof_ArenaNode + bytes).
  destruct (node_realloc_spec h b nd n Hb) as (b' & h1 & E1 & Hb1 & Hfr1 & Hb' & Hlh1).
  { unfold n, sizeof_ArenaNode in *. lia. }
  replace (Z.to_nat (n - sizeof_ArenaNode)) with (Z.to_nat bytes) in Hb1
    by (unfold n; lia).
  set (pl := resized junk b' (payload nd) (Z.to_nat bytes)) in *.
  pose proof (set_next_node h1 b' _ q Hb1) as E2. cbn [bsize payload] in E2.
  specialize (E2 ltac:(unfold n, sizeof_ArenaNode in *; lia)).
  set (h2 := <[b' := Some (mkNode n (Some q) pl)]> h1) in *.
  assert (Hb'lt : (b' < length h1)%nat) by (eapply live_lt; eauto).
  assert (Hb2 : live h2 b' = Some (mkNode n (Some q) pl))
    by (unfold h2; now apply live_insert_eq).
  assert (Hother : forall a, a ∈ l1 ++ l2 -> a <> b /\ a <> b' /\ (a < length h)%nat).
  { intros a Ha.
    assert (Halt : (a < length h)%nat).
    { apply Hlts. apply elem_of_app in Ha as [Ha|Ha]; apply elem_of_app;
        [now left|right; now right]. }
    assert (a <> b).
    { intros ->. apply NoDup_app in Hnd as (_ & Hn12 & Hn2).
      apply elem_of_app in Ha as [Ha|Ha].
      - apply (Hn12 b Ha). now left.
      - apply NoDup_cons in Hn2 as [Hnin _]. contradiction. }
    split_and!; try assumption. destruct Hb' as [->|[-> _]]; [assumption|lia]. }
  assert (Hfr2 : forall a, a ∈ l1 ++ l2 -> h2 !! a = h !! a).
  { intros a Ha. destruct (Hother a Ha) as (? & ? & ?).
    unfold h2. rewrite list_lookup_insert_ne by congruence. now apply Hfr1. }
  assert (Hhead : is_null (head arena) = false).
  { pose proof (arena_nodes_head _ _ _ Hl) as Hh.
    destruct l1; simpl in Hh; rewrite Hh; reflexivity. }
  assert (Hfind : find_node (S (length h)) (mkptr (Some b) 0) NULL (head arena) h
                  = Some ((match last l1 with
                           | Some b1 => mkptr (Some b1) 0 | None => NULL end,
                           mkptr (Some b) 0), h))
    by (apply (find_node_hit b l2 l1 h (head arena) (S (length h)) NULL Hl); lia).
  assert (Hprefix : arena_realloc junk moves arena bytes
                      (mkptr (Some b) sizeof_ArenaNode) h
                    = (arena' <- (if negb (is_null (match last l1 with
                                           | Some b1 => mkptr (Some b1) 0
                                           | None => NULL end))
                                  then set_next (match last l1 with
                                           | Some b1 => mkptr (Some b1) 0
                                           | None => NULL end)
                                         (mkptr (Some b') 0) ;;; ret arena
                                  else ret (mkArena (mkptr (Some b') 0))) ;;
                       ret (arena', ptr_add q sizeof_ArenaNode)) h2).
  { unfold arena_realloc. rewrite Hhead. cbn [negb].
    change (ptr_add (mkptr (Some b) sizeof_ArenaNode) (- sizeof_ArenaNode))
      with (mkptr (Some b) 0).
    unfold bind at 1. rewrite Hfind. cbn [fst snd].
    rewrite is_null_block. cbn [negb].
    rewrite (bind_step _ _ _ _ _ (get_next_node _ _ _ _ Hb Hbsz Hq)).
    fold n. rewrite (wrap_small n) by (unfold n, sizeof_ArenaNode in *; lia).
    rewrite (bind_step _ _ _ _ _ E1).
    rewrite (bind_step _ _ _ _ _ E2). reflexivity. }
  assert (Hrest2 : forall h3, (forall a, a ∈ l2 -> h3 !! a = h2 !! a) ->
                    live h3 b' = Some (mkNode n (Some q) pl) ->
                    arena_nodes h3 (mkptr (Some b') 0) (b' :: l2)).
  { intros h3 Hsame Hb3. eapply nodes_cons; [exact Hb3| |reflexivity|].
    - cbn [bsize]. unfold n, sizeof_ArenaNode in *. lia.
    - apply (arena_nodes_frame h); [exact Hsuf|].
      intros a Ha. rewrite Hsame by assumption. apply Hfr2.
      apply elem_of_app. now right. }
  destruct l1 as [|a0 l1'] using rev_ind.
  - (* the resized node is the first one *)
    exists (mkArena (mkptr (Some b') 0)), h2, b'. simpl in *.
    split; [rewrite Hprefix; reflexivity|].
    split; [apply Hrest2; [reflexivity|exact Hb2]|].
    split; [exact Hb2|]. split.
    + destruct Hb' as [->|[-> Hrel]]; [now left|right].
      split; [reflexivity|]. unfold h2.
      rewrite live_insert_ne by (apply live_lt in Hb; lia). exact Hrel.
    + intros a Ha. destruct (Hel a) as (x & Hx & _); [now right|].
      exists x, x. split_and!; try reflexivity; [assumption|].
      unfold live in *. now rewrite Hfr2.
  - clear IHl1'. rename a0 into b1.
    rewrite last_snoc in Hprefix. rewrite is_null_block in Hprefix. cbn [negb] in Hprefix.
    destruct (Hel b1) as (nd1 & Hnd1 & Hsz1).
    { apply elem_of_app. left. apply elem_of_app. right. now left. }
    assert (Hin1 : b1 ∈ (l1' ++ [b1]) ++ l2).
    { apply elem_of_app. left. apply elem_of_app. right. now left. }
    destruct (Hother b1 Hin1) as (Hne1 & Hne1' & Hlt1).
    assert (Hnd1' : live h2 b1 = Some nd1)
      by (unfold live in *; now rewrite (Hfr2 _ Hin1)).
    pose proof (set_next_node h2 b1 nd1 (mkptr (Some b') 0) Hnd1' Hsz1) as E3.
    set (h3 := <[b1 := Some (mkNode (bsize nd1) (Some (mkptr (Some b') 0))
                               (payload nd1))]> h2) in *.
    assert (Hb3 : live h3 b' = Some (mkNode n (Some q) pl)).
    { unfold h3. rewrite live_insert_ne by congruence. exact Hb2. }
    assert (Hnd13 : live h3 b1 = Some (mkNode (bsize nd1) (Some (mkptr (Some b') 0))
                                         (payload nd1))).
    { unfold h3. apply live_insert_eq. eapply live_lt; eauto. }
    assert (Hnd' : NoDup (l1' ++ b1 :: b :: l2)) by now rewrite <- app_assoc in Hnd.
    exists arena, h3, b'.
    split; [rewrite Hprefix; rewrite (bind_step _ _ h2 arena h3);
            [reflexivity|rewrite (bind_step _ _ _ _ _ E3); reflexivity]|].
    split.
    { rewrite <- app_assoc. simpl.
      apply (arena_nodes_relink b b' l2 b1 nd1 h h3).
      - now rewrite <- app_assoc in Hl.
      - intros a Ha. unfold h3.
        assert (a <> b1).
        { intros ->. apply NoDup_app in Hnd' as (_ & Hn12 & _).
          apply (Hn12 b1 Ha). now left. }
        rewrite list_lookup_insert_ne by congruence.
        apply Hfr2. apply elem_of_app. left. apply elem_of_app. now left.
      - exact Hnd1.
      - exact Hnd13.
      - apply Hrest2; [|exact Hb3].
        intros a Ha. unfold h3. apply list_lookup_insert_ne.
        intros <-. apply NoDup_app in Hnd' as (_ & _ & Hn2).
        apply NoDup_cons in Hn2 as [Hnin _]. apply Hnin. now right. }
    split; [exact Hb3|]. split.
    + destruct Hb' as [->|[-> Hrel]]; [now left|right].
      split; [reflexivity|]. unfold h3, h2.
      rewrite !live_insert_ne by (try congruence; apply live_lt in Hb; lia).
      exact Hrel.
    + intros a Ha. destruct (decide (a = b1)) as [->|Hne].
      * eexists nd1, _. split_and!; [exact Hnd1|exact Hnd13|reflexivity|reflexivity].
      * destruct (Hel a) as (x & Hx & _).
        { apply elem_of_app in Ha as [Ha|Ha]; apply elem_of_app;
            [now left|right; now right]. }
        exists x, x. split_and!; try reflexivity; [assumption|].
        unfold h3. rewrite live_insert_ne by congruence.
        unfold live in *. now rewrite Hfr2.
Qed.

End Realloc.

(** A move of a run of slots onto itself. *)
Lemma v_move_self h v b sl pos :
  rep h v b sl -> 0 <= pos <= len v ->
  v_move v pos (v_at v pos) (len v - pos) h = Some (tt, h).
Proof.
  intros R Hpos. pose proof R as (Hptr & Hlive & Hlsl & Hu & _ & Hlen & _).
  rewrite (v_move_rep _ _ _ _ _ _ _ R) by lia.
  do 2 f_equal. apply list_insert_id.
  unfold live in Hlive. destruct (h !! b) as [[x|]|]; try discriminate.
  injection Hlive as ->. do 3 f_equal.
  rewrite <- drop_drop, take_drop. symmetry. apply take_drop.
Qed.

Lemma vec_eta v : mkVec (ptr v) (cap v) (len v) (size v) = v.
Proof. now destruct v. Qed.

(** A heap with its last block released: the blocks before it are as
    they were, and no block from it on is live. *)
Lemma released_last (h h' : Heap) :
  length h' = S (length h) ->
  (forall b0, (length h <= b0)%nat -> live (<[length h := None]> h') b0 = None) /\
  (forall b0, (b0 < length h)%nat -> <[length h := None]> h' !! b0 = h' !! b0).
Proof.
  intros Hlen. split.
  - intros b0 Hb0. unfold live. destruct (decide (b0 = length h)) as [->|Hne].
    + rewrite list_lookup_insert_eq by lia. reflexivity.
    + rewrite lookup_ge_None_2; [reflexivity|]. rewrite length_insert. lia.
  - intros b0 Hb0. apply list_lookup_insert_ne. lia.
Qed.

(** ** The properties *)

Lemma outside_frame h h' v v' b0 :
  outside h v b0 -> length h' = length h ->
  (cap v' <> 0 -> pbase (ptr v') = pbase (ptr v) /\ cap v <> 0) ->
  outside h' v' b0.
Proof.
  intros [Hlt Hne] Hlen Hv. split; [now rewrite Hlen|].
  intros Hc. destruct (Hv Hc) as [-> Hc']. now apply Hne.
Qed.


Section FurtherVector.

Variable junk : block -> nat -> byte.
Variable moves : block -> Z -> bool.



(** X3: [vec_remove_n] with [n >= 1] elements from [pos] within the
    length copies these [n] elements to the caller's buffer and leaves a
    well-formed array, in the same buffer and of the same capacity, that
    holds the elements before [pos] followed by those from [pos + n]. *)
Theorem remove_returns_span v h out n pos es :
  is_array h v -> 0 < size v -> vec_elems h v = Some es ->
  0 <= pos -> 1 <= n -> pos + n <= len v -> is_buffer h v out (n * size v) ->
  exists v' h',
    vec_remove_n v pos out n h = Some (v', h') /\ is_array h' v' /\
    ptr v' = ptr v /\ vec_capacity v' = vec_capacity v /\
    vec_len v' = vec_len v - n /\
    vec_elems h' v'
    = Some (take (Z.to_nat pos) es ++ drop (Z.to_nat pos + Z.to_nat n) es) /\
    elems_at h' out (size v) n = Some (take (Z.to_nat n) (drop (Z.to_nat pos) es)).
Proof.
  intros Ha Hs Hes Hpos Hn Hle Hbuf.
  destruct (vec_remove_n_spec v h out n pos es)
    as (h' & E & Ha' & Hes' & Hout & _); try assumption; try lia.
  eexists _, h'. split; [exact E|]. now split_and!.
Qed.

(** X4: [vec_remove_n] and [vec_remove] given the null pointer for the
    removed elements copy nothing: the elements are removed as with a
    buffer, and no block but the buffer of the array is written. *)
Theorem remove_without_buffer v h pos es :
  is_array h v -> 0 < size v -> vec_elems h v = Some es -> 0 <= pos ->
  (forall n, 1 <= n -> pos + n <= len v ->
   exists v' h',
     vec_remove_n v pos NULL n h = Some (v', h') /\ is_array h' v' /\
     vec_len v' = vec_len v - n /\
     vec_elems h' v'
     = Some (take (Z.to_nat pos) es ++ drop (Z.to_nat pos + Z.to_nat n) es) /\
     (forall b0, outside h v b0 -> h' !! b0 = h !! b0)) /\
  (pos < len v ->
   exists v' h',
     vec_remove v pos NULL h = Some (v', h') /\
     vec_elems h' v'
     = Some (take (Z.to_nat pos) es ++ drop (S (Z.to_nat pos)) es) /\
     (forall b0, outside h v b0 -> h' !! b0 = h !! b0)).
Proof.
  intros Ha Hs Hes Hpos. split.
  - intros n Hn Hle.
    destruct (vec_remove_n_null v h n pos es)
      as (h' & E & Ha' & Hes' & _ & Hfr); try assumption; try lia.
    eexists _, h'. split; [exact E|]. now split_and!.
  - intros Hlt.
    destruct (vec_remove_n_null v h 1 pos es)
      as (h' & E & _ & Hes' & _ & Hfr); try assumption; try lia.
    eexists _, h'. split; [exact E|]. split; [|assumption].
    rewrite Hes'. do 3 f_equal. lia.
Qed.

(** X5: [vec_pop] on an array that ends with the element [e] copies [e]
    to the caller's buffer and leaves a well-formed array of the elements
    before it. *)
Theorem pop_returns_last v h out es e :
  is_array h v -> 0 < size v -> vec_elems h v = Some (es ++ [e]) ->
  is_buffer h v out (size v) ->
  exists v' h',
    vec_pop v out h = Some (v', h') /\ is_array h' v' /\
    vec_len v' = vec_len v - 1 /\ vec_elems h' v' = Some es /\
    elems_at h' out (size v) 1 = Some [e].
Proof.
  intros Ha Hs Hes Hbuf. pose proof Ha as (_ & Hlen & _).
  assert (Hl : length (es ++ [e]) = Z.to_nat (len v))
    by (apply (vec_elems_length h); [lia|exact Hes]).
  rewrite length_app in Hl. simpl in Hl.
  destruct (vec_pop_spec v h out _ Ha Hs Hes ltac:(lia) Hbuf)
    as (h' & E & Ha' & Hes' & Hout).
  replace (Z.to_nat (len v - 1)) with (length es) in Hes', Hout by lia.
  rewrite take_app_length in Hes'. rewrite drop_app_length in Hout.
  eexists _, h'. split; [exact E|]. now split_and!.
Qed.

(** X6: [vec_get] at a position within the length copies the element at
    that position to the caller's buffer; the array and its elements are
    as they were. *)
Theorem get_copies_element v h out pos es e :
  is_array h v -> 0 < size v -> vec_elems h v = Some es ->
  0 <= pos -> es !! Z.to_nat pos = Some e -> is_buffer h v out (size v) ->
  exists h',
    vec_get v pos out h = Some (tt, h') /\
    elems_at h' out (size v) 1 = Some [e] /\
    is_array h' v /\ vec_elems h' v = Some es.
Proof.
  intros Ha Hs Hes Hpos He Hbuf.
  destruct (vec_get_spec v h out pos es e Ha Hs Hes Hpos He Hbuf)
    as (h' & E & Ha' & Hes' & Hout & _).
  exists h'. now split_and!.
Qed.

(** X7: [vec_set] at a position within the length overwrites the element
    at that position with the element of the caller; the other elements,
    the length and every block but the buffer are as they were. *)
Theorem set_overwrites_element v h elem pos es e :
  is_array h v -> 0 < size v -> vec_elems h v = Some es ->
  0 <= pos < len v -> is_buffer h v elem (size v) ->
  elems_at h elem (size v) 1 = Some [e] ->
  exists h',
    vec_set v elem pos h = Some (tt, h') /\ is_array h' v /\
    vec_elems h' v = Some (<[Z.to_nat pos := e]> es) /\
    (forall b0, outside h v b0 -> h' !! b0 = h !! b0).
Proof.
  intros Ha Hs Hes Hpos Hbuf He.
  destruct (vec_set_spec v h elem pos es e Ha Hs Hes Hpos Hbuf He)
    as (h' & E & Ha' & Hes' & _ & Hfr).
  exists h'. now split_and!.
Qed.

(** X8: an element written with [vec_set] at a position within the
    length is the element that [vec_get] reads at that position. *)
Theorem set_then_get v h elem out pos es e :
  is_array h v -> 0 < size v -> vec_elems h v = Some es ->
  0 <= pos < len v -> is_buffer h v elem (size v) ->
  elems_at h elem (size v) 1 = Some [e] -> is_buffer h v out (size v) ->
  exists h1 h2,
    vec_set v elem pos h = Some (tt, h1) /\
    vec_get v pos out h1 = Some (tt, h2) /\
    elems_at h2 out (size v) 1 = Some [e].
Proof.
  intros Ha Hs Hes Hpos Hbuf He Hout. pose proof Ha as (_ & Hlen & _).
  assert (Hl : length es = Z.to_nat (len v))
    by (apply (vec_elems_length h); [lia|exact Hes]).
  destruct (vec_set_spec v h elem pos es e Ha Hs Hes Hpos Hbuf He)
    as (h1 & E1 & Ha1 & Hes1 & Hl1 & Hfr).
  assert (Hout1 : is_buffer h1 v out (size v)).
  { apply (is_buffer_frame h h1 v v out (size v) Hout).
    intros b0 Hb0. split; [now apply Hfr|].
    apply (outside_frame h h1 v v b0 Hb0 Hl1). intros Hc. now split. }
  destruct (vec_get_spec v h1 out pos _ e Ha1 Hs Hes1) as (h2 & E2 & _ & _ & Hget & _);
    try assumption; try lia.
  { apply list_lookup_insert_eq. lia. }
  exists h1, h2. now split_and!.
Qed.

(** X9: for a position within the length [vec_at] is the address of the
    element at that position, for any other position it is the null
    pointer, and [vec_data] is [vec_at] at position 0: the buffer when
    the array has an element, and the null pointer when it has none. *)
Theorem at_points_to_element v h es :
  is_array h v -> 0 < size v -> vec_elems h v = Some es ->
  (forall pos e, 0 <= pos -> es !! Z.to_nat pos = Some e ->
     load (vec_at v pos) (size v) h = Some e) /\
  (forall pos, len v <= pos -> vec_at v pos = NULL) /\
  vec_data v = vec_at v 0 /\
  (vec_data v = NULL <-> (len v = 0 \/ ptr v = NULL)).
Proof.
  intros Ha Hs Hes. pose proof Ha as (_ & Hlen & _). split_and!.
  - intros pos e Hpos He. now apply (vec_at_spec v h es pos e).
  - intros pos Hpos. unfold vec_at. destruct (Z.ltb_spec pos (len v)); [lia|reflexivity].
  - apply vec_data_at. lia.
  - unfold vec_data. destruct (Z.eqb_spec (len v) 0); cbn [negb]; split; auto.
    intros [?|?]; [lia|assumption].
Qed.

(** X10: [vec_shrink_to_fit] on an array that holds an element leaves a
    well-formed array whose capacity is its length, with the elements it
    had; every block but the buffer is as it was. *)
Theorem shrink_to_fit_exact v h es :
  is_array h v -> 0 < size v -> vec_elems h v = Some es -> 0 < len v ->
  exists v' h',
    vec_shrink_to_fit junk moves v h = Some (v', h') /\ is_array h' v' /\
    vec_capacity v' = vec_len v /\ vec_len v' = vec_len v /\
    vec_elems h' v' = Some es /\
    (forall b0, outside h v b0 -> h' !! b0 = h !! b0).
Proof.
  intros Ha Hs Hes Hlen.
  destruct (vec_shrink_spec junk moves v h es Ha Hs Hes Hlen)
    as (v' & h' & E & Ha' & Hc & Hl & _ & Hes' & Hfr).
  exists v', h'. now split_and!.
Qed.

(** X11: [vec_clear] releases the buffer of an allocated array and
    leaves the array empty and unallocated, with its stride; every other
    block is as it was, and a second [vec_clear] releases nothing. *)
Theorem clear_releases_buffer v h :
  is_array h v ->
  exists v' h',
    vec_clear v h = Some (v', h') /\
    vec_capacity v' = 0 /\ vec_len v' = 0 /\ size v' = size v /\
    is_array h' v' /\
    (forall b, cap v <> 0 -> pbase (ptr v) = Some b -> live h' b = None) /\
    (forall b0, outside h v b0 -> h' !! b0 = h !! b0) /\
    vec_clear v' h' = Some (v', h').
Proof.
  intros Ha. destruct (vec_clear_spec v h Ha) as (h' & E & _ & Hrel & Hfr).
  eexists _, h'. split; [exact E|]. split_and!; try assumption; try reflexivity.
  apply empty_is_array. apply Ha.
Qed.

(** X12: [vec_reserve], when the allocation it needs succeeds, leaves a
    well-formed array of the same stride with the elements it had,
    whether the buffer moves or not; every block but the buffer is as it
    was. *)
Theorem reserve_keeps_elements v h n es :
  is_array h v -> 0 < size v -> 0 <= n -> vec_elems h v = Some es ->
  grown_cap (cap v) n * size v <= PTRDIFF_MAX ->
  exists v' h',
    vec_reserve junk moves v n h = Some (v', h') /\ is_array h' v' /\
    size v' = size v /\ vec_elems h' v' = Some es /\
    (forall b0, outside h v b0 -> h' !! b0 = h !! b0).
Proof.
  intros Ha Hs Hn Hes Hfit. pose proof Ha as (_ & Hlen & _).
  destruct (Z.eq_dec n 0) as [->|Hn0].
  - exists v, h. rewrite vec_reserve_noop by lia. now split_and!.
  - destruct (vec_reserve_rep junk moves v h n Ha Hs ltac:(lia) Hfit)
      as (v' & h' & b' & sl' & E & R & _ & Hl & Hsz & Hel & Hfr).
    exists v', h'. split_and!; try assumption.
    + eapply rep_is_array; exact R.
    + rewrite (rep_elems _ _ _ _ R), Hl. f_equal. now apply Hel.
    + intros b0 Hb0. now apply Hfr.
Qed.

(** X13: an insertion that the capacity has room for does not
    reallocate: the array keeps its buffer and its capacity. *)
Theorem insert_with_room_keeps_buffer v h elems n pos es new :
  is_array h v -> 0 < size v -> vec_elems h v = Some es ->
  0 <= pos <= len v -> 1 <= n -> len v + n <= cap v ->
  is_buffer h v elems (n * size v) -> elems_at h elems (size v) n = Some new ->
  exists v' h',
    vec_insert_n junk moves v elems n pos h = Some (v', h') /\
    ptr v' = ptr v /\ vec_capacity v' = vec_capacity v /\
    vec_elems h' v'
    = Some (take (Z.to_nat pos) es ++ new ++ drop (Z.to_nat pos) es).
Proof.
  intros Ha Hs Hes Hpos Hn Hroom Hbuf Hnew.
  pose proof Ha as (_ & Hlen & Hcap & Hblk).
  assert (Hg : grown_cap (cap v) (len v + n) = cap v)
    by (unfold grown_cap; destruct (Z.leb_spec (len v + n) (cap v)); lia).
  destruct (Hblk ltac:(lia)) as (b & bs & _ & _ & _ & Hfit).
  destruct (vec_insert_n_spec junk moves v h elems n pos es new)
    as (v' & h' & b' & E & _ & _ & _ & _ & _ & _ & Hes' & _);
    try assumption; try lia.
  destruct (vec_insert_n_fits junk moves v elems n pos h v' h') as [Hp Hc];
    try assumption; try lia.
  exists v', h'. now split_and!.
Qed.

(** X14: [vec_reserve] does not look at what the allocator returns: when
    the request is for more bytes than an object can have, the array is
    left with the null pointer for its buffer and the capacity that the
    growth policy gives, in a heap where the old buffer is as it was. *)
Theorem reserve_records_failed_allocation v h n :
  is_array h v -> 0 < size v -> cap v < n ->
  PTRDIFF_MAX < grown_cap (cap v) n * size v <= SIZE_MAX ->
  vec_reserve junk moves v n h
  = Some (mkVec NULL (grown_cap (cap v) n) (len v) (size v), h) /\
  ~ is_array h (mkVec NULL (grown_cap (cap v) n) (len v) (size v)).
Proof.
  intros Ha Hs Hn Hbig. split; [now apply vec_reserve_fails|].
  intros (_ & _ & _ & Hblk). simpl in Hblk.
  pose proof (grown_cap_ge (cap v) n) as Hg. destruct Ha as (_ & Hl & _).
  destruct Hblk as (b & bs & [=] & _). lia.
Qed.

(** X15: an insertion of [n >= 1] elements within the length whose
    allocation fails is undefined behaviour: the elements are written
    through the null pointer. *)
Theorem insert_after_failed_allocation v h elems n pos :
  is_array h v -> 0 < size v -> 0 <= pos <= len v -> 1 <= n ->
  PTRDIFF_MAX < grown_cap (cap v) (len v + n) * size v <= SIZE_MAX ->
  vec_insert_n junk moves v elems n pos h = None.
Proof.
  intros Ha Hs Hpos Hn Hbig. pose proof Ha as (Hsz & Hl & Hcap & Hblk).
  pose proof (grown_cap_ge (cap v) (len v + n) ltac:(lia)) as [Hg1 Hg2].
  assert (Hlt : cap v < len v + n).
  { destruct (Z.le_gt_cases (len v + n) (cap v)) as [Hle|]; [|assumption].
    exfalso.
    assert (Eg : grown_cap (cap v) (len v + n) = cap v)
      by (unfold grown_cap; destruct (Z.leb_spec (len v + n) (cap v)); lia).
    rewrite Eg in Hbig.
    destruct (Z.eq_dec (cap v) 0) as [E|E];
      [rewrite E in Hbig; unfold PTRDIFF_MAX in Hbig; lia|].
    destruct (Hblk E) as (b & bs & _ & _ & _ & Hfit). lia. }
  assert (Hsum : len v + n <= SIZE_MAX) by nia.
  unfold vec_insert_n. destruct (Z.leb_spec pos (len v)); [|lia].
  rewrite (wrap_small (len v + n)) by lia.
  rewrite (bind_step _ _ _ _ _ (vec_reserve_fails junk moves v h (len v + n) Ha Hs Hlt Hbig)).
  cbn [len size ptr cap].
  set (v1 := mkVec NULL (grown_cap (cap v) (len v + n)) (len v) (size v)).
  assert (Hns : 0 < n * size v <= SIZE_MAX).
  { assert (n * size v <= grown_cap (cap v) (len v + n) * size v) by nia. nia. }
  assert (Hcpy : v_cpy v1 pos elems n h = None).
  { unfold v_cpy, memcpy, memmove, v1. cbn [size].
    rewrite wrap_small by lia.
    destruct (load elems (n * size v) h) as [l|] eqn:El; [|reflexivity].
    apply load_length in El; [|lia].
    unfold store. destruct l; [simpl in El; lia|]. reflexivity. }
  destruct (Z.eq_dec pos (len v)) as [->|Hne].
  - rewrite (bind_step _ _ h tt h).
    + unfold bind. now rewrite Hcpy.
    + unfold v_move, memmove, v1. cbn [size]. rewrite Z.sub_diag. reflexivity.
  - unfold bind at 1. unfold v_move, memmove, v1. cbn [size].
    rewrite (wrap_small (len v - pos)) by lia.
    assert ((len v - pos) * size v <= grown_cap (cap v) (len v + n) * size v) by nia.
    rewrite wrap_small by nia.
    unfold load. destruct (Z.eqb_spec ((len v - pos) * size v) 0); [nia|].
    reflexivity.
Qed.

(** X16: [vec_init(v, size, n)] as the code has it, with [n > 0] and
    [size > 0]: when [n <= max(size, 2)] it gives a well-formed array of
    capacity [max(size, 2)] that holds [n] elements of [n] zero bytes
    each, in a fresh block; when [n > max(size, 2)] it writes beyond the
    block it allocated, which is undefined behaviour. *)
Theorem init_zeroes_count_by_count v size' n h :
  0 < n -> 0 < size' -> Z.max size' 2 * n <= PTRDIFF_MAX ->
  (n <= Z.max size' 2 ->
   exists v' h',
     vec_init junk moves v size' n h = Some (v', h') /\ is_array h' v' /\
     ptr v' = mkptr (Some (length h)) 0 /\ size v' = n /\
     vec_capacity v' = Z.max size' 2 /\ vec_len v' = n /\
     vec_elems h' v' = Some (replicate (Z.to_nat n) (replicate (Z.to_nat n) x00))) /\
  (Z.max size' 2 < n -> n * n <= SIZE_MAX ->
   vec_init junk moves v size' n h = None).
Proof.
  intros Hn Hs Hfit.
  destruct (vec_init_spec junk moves v size' n h Hn Hs Hfit) as [Hok Hub].
  split; [|exact Hub].
  intros Hle. destruct (Hok Hle) as (h' & E & Ha & Hes).
  eexists _, h'. split; [exact E|]. now split_and!.
Qed.

(** X17: [vec_new_with] gives, whatever the array held, a well-formed
    array with no element: unallocated when [n = 0], and with a fresh
    buffer of [max(n, 2)] slots otherwise; the blocks of the heap are as
    they were. *)
Theorem new_with_allocates v size' n h :
  0 < size' <= SIZE_MAX -> 0 <= n -> Z.max n 2 * size' <= PTRDIFF_MAX ->
  exists v' h',
    vec_new_with junk moves v size' n h = Some (v', h') /\ is_array h' v' /\
    size v' = size' /\ vec_len v' = 0 /\ vec_elems h' v' = Some [] /\
    vec_capacity v' = (if n =? 0 then 0 else Z.max n 2) /\
    (forall b0, (b0 < length h)%nat -> h' !! b0 = h !! b0).
Proof.
  intros Hs Hn Hfit. unfold vec_new_with.
  destruct (Z.eqb_spec n 0) as [->|Hn0].
  - exists (vec_new v size'), h. rewrite vec_reserve_noop by (simpl; lia).
    split_and!; try reflexivity. unfold vec_new. apply empty_is_array. lia.
  - destruct (vec_reserve_alloc junk moves (vec_new v size') h n) as (sl & E & R);
      try reflexivity; try assumption; try lia.
    eexists _, _. split; [exact E|]. split_and!; try reflexivity.
    + eapply rep_is_array; exact R.
    + intros b0 Hb0. now apply lookup_app_l.
Qed.

(** X18: [vec_swap] of two positions within the length, done twice,
    leaves the elements as they were. *)
Theorem swap_twice_restores v h tmp es pos1 pos2 :
  is_array h v -> 0 < size v -> is_buffer h v tmp (size v) ->
  vec_elems h v = Some es -> 0 <= pos1 < len v -> 0 <= pos2 < len v ->
  exists h1 h2,
    vec_swap v pos1 pos2 tmp h = Some (tt, h1) /\
    vec_swap v pos1 pos2 tmp h1 = Some (tt, h2) /\
    is_array h2 v /\ vec_elems h2 v = Some es.
Proof.
  intros Ha Hs Hbuf Hes Hp1 Hp2. pose proof Ha as (Hsz & Hl & Hcap & _).
  destruct (is_array_rep _ _ Ha Hs) as (b & sl & R); [lia|].
  pose proof R as (Hptr & Hlive & Hlsl & Hu & _ & _ & Hfit).
  destruct (is_buffer_outside _ _ _ _ Hbuf) as (bt & bst & Hpt & Hlt & Hot & Hrt & Hout).
  assert (Hne : bt <> b).
  { destruct Hout as [_ H]. rewrite Hptr in H. intros ->. apply H; [lia|reflexivity]. }
  destruct (lookup_lt_is_Some_2 sl (Z.to_nat pos1)) as [s1 Hs1]; [lia|].
  destruct (lookup_lt_is_Some_2 sl (Z.to_nat pos2)) as [s2 Hs2]; [lia|].
  destruct (vec_swap_rep h v b sl pos1 pos2 tmp s1 s2 bt bst R)
    as (bst' & Hl' & E1); try assumption; try lia.
  set (sl1 := <[Z.to_nat pos2 := s1]> (<[Z.to_nat pos1 := s2]> sl)) in *.
  set (h0 := <[bt := Some bst']> h) in *.
  set (h1 := <[b := Some (concat sl1)]> h0) in *.
  assert (R0 : rep h0 v b sl).
  { apply (rep_frame h); [assumption|]. unfold h0. now apply list_lookup_insert_ne. }
  assert (R1 : rep h1 v b sl1).
  { apply (rep_update h0 v b sl); [assumption|unfold sl1; now rewrite !length_insert|].
    unfold sl1. repeat apply Forall_insert; try assumption;
      eapply (Forall_lookup_1 _ _ _ _ Hu); eauto. }
  assert (Hbt1 : live h1 bt = Some bst').
  { unfold h1. rewrite live_insert_ne by congruence.
    unfold h0. apply live_insert_eq. eapply live_lt; eauto. }
  assert (Hs2' : sl1 !! Z.to_nat pos2 = Some s1).
  { unfold sl1. apply list_lookup_insert_eq. rewrite length_insert. lia. }
  assert (Hs1' : exists s, sl1 !! Z.to_nat pos1 = Some s /\
                 <[Z.to_nat pos2 := s]> (<[Z.to_nat pos1 := s1]> sl1) = sl).
  { destruct (decide (Z.to_nat pos1 = Z.to_nat pos2)) as [Eq|Nq].
    - exists s1. split; [now rewrite Eq|].
      assert (s2 = s1) by (rewrite Eq in Hs1; congruence). subst s2.
      unfold sl1. rewrite <- Eq. rewrite !list_insert_insert_eq.
      now apply list_insert_id.
    - exists s2. split.
      + unfold sl1. rewrite list_lookup_insert_ne by congruence.
        apply list_lookup_insert_eq. lia.
      + unfold sl1. now apply exchange_twice. }
  destruct Hs1' as (s & Hs1' & Hback).
  destruct (vec_swap_rep h1 v b sl1 pos1 pos2 tmp s s1 bt bst' R1)
    as (bst'' & Hl'' & E2); try assumption; try lia.
  rewrite Hback in E2.
  eexists _, _. split; [exact E1|]. split; [exact E2|].
  set (h2 := <[bt := Some bst'']> h1).
  assert (R2 : rep (<[b := Some (concat sl)]> h2) v b sl).
  { apply (rep_update h2 v b sl1).
    - apply (rep_frame h1); [assumption|]. unfold h2. now apply list_lookup_insert_ne.
    - unfold sl1. now rewrite !length_insert.
    - assumption. }
  split; [eapply rep_is_array; exact R2|].
  rewrite (rep_elems _ _ _ _ R2). rewrite (rep_elems _ _ _ _ R) in Hes. exact Hes.
Qed.

(** X19: [vec_sort] with the order value 0 exchanges nothing: on an
    array of at most [INT_MAX] elements it returns with the elements in
    the order they had. *)
Theorem sort_with_order_zero v h es :
  is_array h v -> 0 < size v -> len v <= INT_MAX -> vec_elems h v = Some es ->
  exists h', vec_sort junk v 0 h = Some (tt, h') /\ vec_elems h' v = Some es.
Proof.
  intros Ha Hs Hlen Hes.
  destruct (vec_sort_spec junk v h es 0 Ha Hs Hlen) as (h' & E & _ & Hes');
    [unfold INT_MAX; lia|assumption|].
  exists h'. split; [exact E|]. rewrite Hes'. f_equal.
  apply exchange_sort_never. intros a b. unfold sort_gt. now rewrite Z.mul_0_r.
Qed.

(** X20: [vec_reserve] does not check the product of the count and the
    stride: when it exceeds [SIZE_MAX], an unallocated array gets a block
    of the product modulo [2^64] bytes, fewer than its capacity times its
    stride, and the capacity asked for. *)
Theorem reserve_wraps_byte_count v h n :
  cap v = 0 -> 0 < size v <= SIZE_MAX -> 2 < n <= SIZE_MAX ->
  SIZE_MAX < n * size v -> wrap (n * size v) <= PTRDIFF_MAX ->
  vec_reserve junk moves v n h
  = Some (mkVec (mkptr (Some (length h)) 0) n (len v) (size v),
          h ++ [Some (fresh_bytes junk (length h) 0
                        (Z.to_nat (wrap (n * size v))))]) /\
  wrap (n * size v) < n * size v.
Proof.
  intros Hc Hs Hn Hbig Hfit. split.
  - unfold vec_reserve. rewrite Hc. destruct (Z.ltb_spec 0 n); [|lia].
    unfold v_resize. rewrite Hc. cbn [Z.eqb negb]. unfold GROWTH_FACTOR.
    destruct (Z.ltb_spec 2 n); [|lia].
    unfold v_alloc, bind, malloc.
    destruct (Z.ltb_spec PTRDIFF_MAX (wrap (n * size v))); [lia|]. reflexivity.
  - pose proof (wrap_range (n * size v)). lia.
Qed.

(** X21: the cursor of [vec_iter] belongs to no array.  From a cursor at
    [i] the loop of a caller reads the elements from position [i] on, in
    order, and leaves the cursor at the length, or where it was when it
    was beyond the length already: a loop that follows another one with
    no reset in between reads nothing.  After a call with the null
    pointer, which resets the cursor, the loop reads all the elements. *)
Theorem iter_reads_from_cursor v h elem es i :
  is_array h v -> 0 < size v -> vec_elems h v = Some es ->
  is_buffer h v elem (size v) -> 0 <= i ->
  (exists h',
     iter_loop (S (length es)) v elem (i, h)
     = Some (drop (Z.to_nat i) es, (Z.max i (len v), h')) /\
     vec_elems h' v = Some es /\
     iter_loop (S (length es)) v elem (Z.max i (len v), h')
     = Some ([], (Z.max i (len v), h'))) /\
  (exists h',
     (vec_iter None elem ;;; iter_loop (S (length es)) v elem) (i, h)
     = Some (es, (len v, h'))).
Proof.
  intros Ha Hs Hes Hbuf Hi. pose proof Ha as (_ & Hlen & _).
  assert (Hl : length es = Z.to_nat (len v))
    by (apply (vec_elems_length h); [lia|exact Hes]).
  split.
  - destruct (iter_loop_spec v elem es (Z.to_nat (len v - i)) (S (length es)) i h)
      as (h' & E & Ha' & Hes' & Hbuf'); try assumption; try lia.
    exists h'. split_and!; try assumption.
    destruct (iter_loop_spec v elem es 0 (S (length es)) (Z.max i (len v)) h')
      as (h'' & E' & _); try assumption; try lia.
    cbn [iter_loop] in *. unfold bind, vec_iter, YES, NO in *. cbn [fst snd] in *.
    destruct (Z.ltb_spec (Z.max i (len v)) (len v)); [lia|]. reflexivity.
  - destruct (iter_loop_spec v elem es (Z.to_nat (len v)) (S (length es)) 0 h)
      as (h' & E & _); try assumption; try lia.
    exists h'. unfold bind at 1. unfold vec_iter, YES, NO. cbn [fst snd].
    rewrite E. rewrite drop_0, Z.max_r by lia. reflexivity.
Qed.

(** X22: an insertion and a removal of no element, at any position,
    return with the array and the heap exactly as they were. *)
Theorem zero_elements_change_nothing v h elems pos :
  is_array h v -> 0 < size v -> 0 <= pos <= SIZE_MAX ->
  vec_insert_n junk moves v elems 0 pos h = Some (v, h) /\
  vec_remove_n v pos elems 0 h = Some (v, h).
Proof.
  intros Ha Hs Hpos. pose proof Ha as (Hsz & Hlen & Hcap & _).
  assert (Hload0 : forall p, load p 0 h = Some []) by reflexivity.
  assert (Hmove : 0 <= pos <= len v ->
                  v_move v pos (v_at v pos) (len v - pos) h = Some (tt, h)).
  { intros Hp. destruct (Z.eq_dec (cap v) 0) as [Hc|Hc].
    - assert (len v = 0) by lia. assert (pos = 0) by lia. subst pos.
      unfold v_move, memmove. replace (len v - 0) with 0 by lia.
      rewrite Z.mul_0_l. reflexivity.
    - destruct (is_array_rep _ _ Ha Hs Hc) as (b & sl & R).
      now apply (v_move_self h v b sl). }
  assert (Hcpy0 : forall p q, memcpy p q (wrap (0 * size v)) h = Some (tt, h))
    by reflexivity.
  split.
  - unfold vec_insert_n. destruct (Z.leb_spec pos (len v)); [|reflexivity].
    rewrite Z.add_0_r, (wrap_small (len v)) by lia.
    rewrite (bind_step _ _ _ _ _ (vec_reserve_noop junk moves v h (len v) ltac:(lia))).
    rewrite Z.add_0_r, (wrap_small pos), (wrap_small (len v - pos)) by lia.
    rewrite (bind_step _ _ _ _ _ (Hmove ltac:(lia))).
    unfold v_cpy. rewrite (bind_step _ _ _ _ _ (Hcpy0 _ _)).
    unfold ret. rewrite Z.add_0_r, (wrap_small (len v)) by lia.
    now rewrite vec_eta.
  - unfold vec_remove_n. rewrite Z.add_0_r.
    destruct (Z.ltb_spec (wrap (pos - 1)) (len v)) as [Hlt|]; [|reflexivity].
    assert (Hp : 1 <= pos <= len v).
    { destruct (Z.eq_dec pos 0) as [->|]; [|rewrite wrap_small in Hlt by lia; lia].
      change (wrap (0 - 1)) with SIZE_MAX in Hlt. lia. }
    rewrite (bind_step _ _ h tt h).
    2:{ destruct (is_null elems); [reflexivity|]. cbn [negb]. apply Hcpy0. }
    rewrite (wrap_small pos), (wrap_small (len v - pos)), Z.sub_0_r,
      (wrap_small (len v)) by lia.
    rewrite (bind_step _ _ h tt h).
    2:{ destruct (Z.ltb_spec pos (len v)); [apply Hmove; lia|reflexivity]. }
    unfold ret. now rewrite vec_eta.
Qed.

(** X23: [vec_sort] on an array of at most [INT_MAX] elements writes
    the buffer of the array only, and leaves no block behind: the blocks
    of the heap other than the buffer are as they were, and the scratch
    element, an automatic array for a stride below 256 and a block from
    [malloc] otherwise, is no longer live on return. *)
Theorem sort_leaves_no_block v h order :
  is_array h v -> 0 < size v -> len v <= INT_MAX ->
  Z.abs order * 255 <= INT_MAX ->
  exists h',
    vec_sort junk v order h = Some (tt, h') /\
    (forall b0, outside h v b0 -> h' !! b0 = h !! b0) /\
    (forall b0, (length h <= b0)%nat -> live h' b0 = None).
Proof.
  intros Ha Hs Hlen Horder.
  assert (Hnew : forall h1 : Heap,
            length h1 = S (length h) ->
            (forall b0, outside h v b0 -> h1 !! b0 = h !! b0) ->
            (forall b0, outside h v b0 -> <[length h := None]> h1 !! b0 = h !! b0) /\
            (forall b0, (length h <= b0)%nat ->
                        live (<[length h := None]> h1) b0 = None)).
  { intros h1 Hl1 Hfr. destruct (released_last h h1 Hl1) as [Hdead Hsame].
    split; [|exact Hdead].
    intros b0 Hb0. rewrite Hsame by apply Hb0. now apply Hfr. }
  assert (Hold : forall b0, (length h <= b0)%nat -> live h b0 = None).
  { intros b0 Hb0. unfold live. now rewrite lookup_ge_None_2. }
  destruct (Z.eq_dec (cap v) 0) as [Hc|Hc].
  - pose proof Ha as (Hsz & Hl & Hcap & _).
    assert (Hl0 : len v = 0) by lia.
    assert (Hloop : forall p h0, sort_outer (S (Z.to_nat (len v))) v order p 0 h0
                                 = Some (tt, h0)).
    { intros p h0. cbn [sort_outer]. rewrite Hl0. reflexivity. }
    assert (Happ : forall x : list byte,
              length (h ++ [Some x]) = S (length h) /\
              (forall b0, outside h v b0 -> (h ++ [Some x]) !! b0 = h !! b0)).
    { intros x. split; [rewrite length_app; simpl; lia|].
      intros b0 [Hb0 _]. now apply lookup_app_l. }
    unfold vec_sort. destruct (size v <? 256).
    + eexists. split.
      * unfold bind, stack_alloc. rewrite Hloop. reflexivity.
      * cbn [pbase]. apply Hnew; apply Happ.
    + unfold bind, malloc. destruct (PTRDIFF_MAX <? size v).
      * exists h. rewrite Hloop. split; [reflexivity|]. now split.
      * eexists. split.
        -- rewrite Hloop. unfold free. cbn [is_null ptr_eqb pbase poff NULL].
           rewrite live_app_new. reflexivity.
        -- apply Hnew; apply Happ.
  - destruct (is_array_rep _ _ Ha Hs Hc) as (b & sl & R).
    pose proof R as (Hptr & Hb & Hl & Hu & Hsz & Hlc & Hfit).
    set (es' := take (Z.to_nat (len v)) sl).
    set (rest := drop (Z.to_nat (len v)) sl).
    assert (Hsl : sl = es' ++ rest) by (symmetry; apply take_drop).
    assert (Hles : Z.of_nat (length es') = len v)
      by (unfold es'; rewrite length_take; lia).
    assert (Hblt : (b < length h)%nat) by (eapply live_lt; eauto).
    assert (Hrun : forall bytes,
      size v <= Z.of_nat (length bytes) ->
      exists h' bst',
        sort_outer (S (Z.to_nat (len v))) v order (mkptr (Some (length h)) 0) 0
                   (h ++ [Some bytes]) = Some (tt, h') /\
        live h' (length h) = Some bst' /\ length h' = S (length h) /\
        (forall b0, outside h v b0 -> h' !! b0 = h !! b0)).
    { intros bytes Hbytes.
      destruct (sort_outer_rep v b rest order (mkptr (Some (length h)) 0) (length h)
                  Horder eq_refl ltac:(lia) ltac:(simpl; lia)
                  (Z.to_nat (len v)) (S (Z.to_nat (len v))) (h ++ [Some bytes]) es' 0 bytes)
        as (h' & bst' & E & _ & Hlive' & _ & Hlh & Hfr); try lia.
      - rewrite <- Hsl. apply (rep_frame h); [assumption|]. now apply lookup_app_l.
      - apply live_app_new.
      - simpl. lia.
      - exists h', bst'. split_and!; try assumption.
        + rewrite Hlh, length_app. simpl. lia.
        + intros b0 [Hb0 Hne]. rewrite Hfr; [now apply lookup_app_l| |lia].
          intros ->. rewrite Hptr in Hne. now apply Hne. }
    unfold vec_sort. destruct (Z.ltb_spec (size v) 256).
    + destruct (Hrun (fresh_bytes junk (length h) 0 (Z.to_nat 256)))
        as (h' & bst' & E & Hlive' & Hlh & Hfr).
      { rewrite length_fresh_bytes. lia. }
      exists (<[length h := None]> h'). split.
      * unfold bind, stack_alloc. rewrite E. reflexivity.
      * now apply Hnew.
    + assert (size v <= PTRDIFF_MAX) by nia.
      destruct (Hrun (fresh_bytes junk (length h) 0 (Z.to_nat (size v))))
        as (h' & bst' & E & Hlive' & Hlh & Hfr).
      { rewrite length_fresh_bytes. lia. }
      exists (<[length h := None]> h'). split.
      * unfold bind, malloc. destruct (Z.ltb_spec PTRDIFF_MAX (size v)); [lia|].
        rewrite E. unfold free. cbn [is_null ptr_eqb pbase poff NULL].
        rewrite Hlive'. reflexivity.
      * now apply Hnew.
Qed.

End FurtherVector.

Section FurtherArena.

Variable junk : block -> nat -> byte.
Variable moves : block -> Z -> bool.

(** X24: [arena_alloc] of a size that, with the link, fits an object
    makes a fresh block the first node of the list, before the nodes the
    arena had, and returns the address of its payload, of the size asked
    for; the blocks of the heap are as they were. *)
Theorem arena_alloc_links_at_head arena bytes (h : AHeap) l :
  arena_nodes h (head arena) l ->
  0 <= bytes -> sizeof_ArenaNode + bytes <= PTRDIFF_MAX ->
  exists arena' h' b nd,
    arena_alloc junk arena bytes h
    = Some ((arena', ptr_add (head arena') sizeof_ArenaNode), h') /\
    head arena' = mkptr (Some b) 0 /\ (b ∉ l) /\ live h b = None /\
    live h' b = Some nd /\ Z.of_nat (length (payload nd)) = bytes /\
    arena_nodes h' (head arena') (b :: l) /\
    (forall a, (a < length h)%nat -> h' !! a = h !! a).
Proof.
  intros Hl Hb Hfit.
  pose proof (arena_alloc_spec junk arena bytes h Hb Hfit) as E.
  set (nd := mkNode (sizeof_ArenaNode + bytes) (Some (head arena))
               (fresh_bytes junk (length h) 0 (Z.to_nat bytes))) in *.
  destruct (arena_alloc_nodes arena h l nd Hl) as [Hnodes Hnin];
    [simpl; unfold sizeof_ArenaNode; lia|reflexivity|].
  exists (mkArena (mkptr (Some (length h)) 0)), (h ++ [Some nd]), (length h), nd.
  split_and!; try assumption; try reflexivity.
  - unfold live. now rewrite lookup_ge_None_2.
  - apply live_app_new.
  - simpl. rewrite length_fresh_bytes. lia.
  - intros a Ha. now apply lookup_app_l.
Qed.

(** X25: [arena_alloc] checks neither the sum of the link and the size
    nor what [malloc] returns: for a size that, with the link, is more
    than an object can have, it writes the link through the null pointer
    or beyond the block, which is undefined behaviour. *)
Theorem arena_alloc_too_large arena bytes (h : AHeap) :
  0 <= bytes <= SIZE_MAX -> PTRDIFF_MAX < sizeof_ArenaNode + bytes ->
  arena_alloc junk arena bytes h = None.
Proof.
  intros Hb Hbig. pose proof PTRDIFF_lt_SIZE.
  unfold arena_alloc, bind, node_malloc. unfold sizeof_ArenaNode in *.
  destruct (Z.ltb_spec PTRDIFF_MAX (wrap (8 + bytes))); [reflexivity|].
  assert (Hw : wrap (8 + bytes) < 8).
  { destruct (Z.le_gt_cases (8 + bytes) SIZE_MAX).
    - rewrite wrap_small in * by lia. lia.
    - unfold wrap, SIZE_MAX in *.
      replace (8 + bytes) with (8 + bytes - 2 ^ 64 + 1 * 2 ^ 64) by lia.
      rewrite Z.mod_add by lia. rewrite Z.mod_small; lia. }
  unfold set_next. cbn [pbase poff]. rewrite live_app_new. cbn [bsize].
  destruct (Z.leb_spec sizeof_ArenaNode (wrap (8 + bytes)));
    [unfold sizeof_ArenaNode in *; lia|].
  reflexivity.
Qed.

(** X26: [arena_free] releases every node of the list, leaves every
    other block as it was, and leaves the arena as [arena_init] does; a
    second [arena_free] releases nothing. *)
Theorem arena_free_releases_all arena (h : AHeap) l :
  arena_nodes h (head arena) l ->
  exists h',
    arena_free arena h = Some (arena_init arena, h') /\
    (forall b, b ∈ l -> live h' b = None) /\
    (forall b, b ∉ l -> h' !! b = h !! b) /\
    arena_free (arena_init arena) h' = Some (arena_init arena, h').
Proof.
  intros Hl. destruct (arena_free_spec arena h l Hl) as (h' & E & _ & Hrel & Hfr).
  exists h'. now split_and!.
Qed.

(** X27: after [arena_free] an allocation is as on a new arena: its node
    is the only node of the list. *)
Theorem arena_alloc_after_free arena bytes (h : AHeap) l :
  arena_nodes h (head arena) l ->
  0 <= bytes -> sizeof_ArenaNode + bytes <= PTRDIFF_MAX ->
  exists arena1 h1 arena2 p h2 b,
    arena_free arena h = Some (arena1, h1) /\
    arena_alloc junk arena1 bytes h1 = Some ((arena2, p), h2) /\
    p = mkptr (Some b) sizeof_ArenaNode /\ arena_nodes h2 (head arena2) [b].
Proof.
  intros Hl Hb Hfit. destruct (arena_free_spec arena h l Hl) as (h1 & E1 & _).
  pose proof (arena_alloc_spec junk (mkArena NULL) bytes h1 Hb Hfit) as E2.
  eexists _, h1, _, _, _, (length h1). split; [exact E1|]. split; [exact E2|].
  split; [reflexivity|].
  apply (arena_alloc_nodes (mkArena NULL) h1 []); [constructor| |reflexivity].
  simpl. unfold sizeof_ArenaNode. lia.
Qed.

(** X28: [arena_realloc] of the payload of a node of the list, to a size
    that with the link fits an object, resizes the block of that node,
    in place or in a fresh block, keeps the payload as far as the new
    size reaches and the node at its place in the list, and leaves the
    payloads of the other nodes as they were.  What it returns is the
    address [sizeof(ArenaNode)] bytes after the link of the node: the
    payload of the next node, not of the resized one. *)
Theorem arena_realloc_keeps_place arena bytes (h : AHeap) l1 l2 b nd q :
  arena_nodes h (head arena) (l1 ++ b :: l2) ->
  live h b = Some nd -> next nd = Some q ->
  0 <= bytes -> sizeof_ArenaNode + bytes <= PTRDIFF_MAX ->
  exists arena' h' b' nd',
    arena_realloc junk moves arena bytes (mkptr (Some b) sizeof_ArenaNode) h
    = Some ((arena', ptr_add q sizeof_ArenaNode), h') /\
    arena_nodes h' (head arena') (l1 ++ b' :: l2) /\
    (b' = b \/ (b' = length h /\ live h' b = None)) /\
    live h' b' = Some nd' /\ bsize nd' = sizeof_ArenaNode + bytes /\
    Z.of_nat (length (payload nd')) = bytes /\
    take (Z.to_nat bytes `min` length (payload nd)) (payload nd')
    = take (Z.to_nat bytes `min` length (payload nd)) (payload nd) /\
    (forall a, a ∈ l1 ++ l2 ->
       exists x x', live h a = Some x /\ live h' a = Some x' /\
                    payload x' = payload x).
Proof.
  intros Hl Hb Hq Hbytes Hfit.
  destruct (arena_realloc_hit junk moves arena bytes h l1 l2 b nd q)
    as (arena' & h' & b' & E & Hnodes & Hb' & Hmv & Hothers); try assumption.
  eexists arena', h', b', _. split; [exact E|].
  split_and!; try eassumption; try reflexivity.
  - cbn [payload]. unfold resized.
    rewrite length_app, length_take, length_fresh_bytes. lia.
  - cbn [payload]. unfold resized.
    rewrite take_app_le by (rewrite length_take; lia).
    rewrite take_take. f_equal. lia.
  - intros a Ha. destruct (Hothers a Ha) as (x & x' & H1 & H2 & H3 & _). eauto.
Qed.

End FurtherArena.

(** ** The properties at a sample state *)

Lemma one_of_two_is_array : is_array two_bytes_heap one_of_two.
Proof.
  unfold is_array. split_and!; try (vm_compute; congruence).
  intros _. exists 0%nat, [x07; x03]. split_and!; try reflexivity.
  vm_compute; congruence.
Qed.

Lemma one_of_two_buffer b x :
  (b = 1%nat /\ x = x09) \/ (b = 2%nat /\ x = x00) ->
  is_buffer two_bytes_heap one_of_two (at_block b) 1.
Proof.
  intros [[-> ->]|[-> ->]]; eexists _, _; (split_and!; [reflexivity..| ]);
    simpl; try lia; intros _; discriminate.
Qed.

Lemma two_nodes_list : arena_nodes two_nodes_heap (head two_nodes) [1%nat; 0%nat].
Proof.
  eapply (nodes_cons _ 1%nat); [reflexivity| |reflexivity|].
  - simpl. unfold sizeof_ArenaNode. lia.
  - eapply (nodes_cons _ 0%nat); [reflexivity| |reflexivity|constructor].
    simpl. unfold sizeof_ArenaNode. lia.
Qed.



(** The element 7 removed from [7; 3]. *)
Lemma remove_returns_span_witness :
  exists v' h',
    vec_remove_n two_bytes 0 (at_block 2) 1 two_bytes_heap = Some (v', h') /\
    vec_elems h' v' = Some [[x03]] /\
    elems_at h' (at_block 2) 1 1 = Some [[x07]].
Proof.
  destruct (remove_returns_span two_bytes two_bytes_heap (at_block 2) 1 0
              [[x07]; [x03]])
    as (v' & h' & E & _ & _ & _ & _ & Hes & Hout).
  - exact two_bytes_is_array.
  - simpl. lia.
  - reflexivity.
  - lia.
  - lia.
  - simpl. lia.
  - apply (two_bytes_buffer 2 x00). now right.
  - exists v', h'. split_and!; assumption.
Defined.

(** The element 7 removed from [7; 3], with no buffer. *)
Lemma remove_without_buffer_witness :
  exists v' h',
    vec_remove two_bytes 0 NULL two_bytes_heap = Some (v', h') /\
    vec_elems h' v' = Some [[x03]].
Proof.
  destruct (remove_without_buffer two_bytes two_bytes_heap 0 [[x07]; [x03]])
    as [_ Hone].
  - exact two_bytes_is_array.
  - simpl. lia.
  - reflexivity.
  - lia.
  - destruct Hone as (v' & h' & E & Hes & _); [simpl; lia|].
    exists v', h'. split; assumption.
Defined.

(** The element 3 popped from [7; 3]. *)
Lemma pop_returns_last_witness :
  exists v' h',
    vec_pop two_bytes (at_block 2) two_bytes_heap = Some (v', h') /\
    vec_elems h' v' = Some [[x07]] /\
    elems_at h' (at_block 2) 1 1 = Some [[x03]].
Proof.
  destruct (pop_returns_last two_bytes two_bytes_heap (at_block 2) [[x07]] [x03])
    as (v' & h' & E & _ & _ & Hes & Hout).
  - exact two_bytes_is_array.
  - simpl. lia.
  - reflexivity.
  - apply (two_bytes_buffer 2 x00). now right.
  - exists v', h'. split_and!; assumption.
Defined.

(** The element at position 1 of [7; 3] read. *)
Lemma get_copies_element_witness :
  exists h',
    vec_get two_bytes 1 (at_block 2) two_bytes_heap = Some (tt, h') /\
    elems_at h' (at_block 2) 1 1 = Some [[x03]].
Proof.
  destruct (get_copies_element two_bytes two_bytes_heap (at_block 2) 1
              [[x07]; [x03]] [x03])
    as (h' & E & Hout & _).
  - exact two_bytes_is_array.
  - simpl. lia.
  - reflexivity.
  - lia.
  - reflexivity.
  - apply (two_bytes_buffer 2 x00). now right.
  - exists h'. split; assumption.
Defined.

(** The element at position 0 of [7; 3] set to 9. *)
Lemma set_overwrites_element_witness :
  exists h',
    vec_set two_bytes (at_block 1) 0 two_bytes_heap = Some (tt, h') /\
    vec_elems h' two_bytes = Some [[x09]; [x03]].
Proof.
  destruct (set_overwrites_element two_bytes two_bytes_heap (at_block 1) 0
              [[x07]; [x03]] [x09])
    as (h' & E & _ & Hes & _).
  - exact two_bytes_is_array.
  - simpl. lia.
  - reflexivity.
  - simpl. lia.
  - apply (two_bytes_buffer 1 x09). now left.
  - reflexivity.
  - exists h'. split; assumption.
Defined.

(** The element at position 0 of [7; 3] set to 9, and read. *)
Lemma set_then_get_witness :
  exists h1 h2,
    vec_set two_bytes (at_block 1) 0 two_bytes_heap = Some (tt, h1) /\
    vec_get two_bytes 0 (at_block 2) h1 = Some (tt, h2) /\
    elems_at h2 (at_block 2) 1 1 = Some [[x09]].
Proof.
  apply (set_then_get two_bytes two_bytes_heap (at_block 1) (at_block 2) 0
           [[x07]; [x03]] [x09]).
  - exact two_bytes_is_array.
  - simpl. lia.
  - reflexivity.
  - simpl. lia.
  - apply (two_bytes_buffer 1 x09). now left.
  - reflexivity.
  - apply (two_bytes_buffer 2 x00). now right.
Defined.

(** The addresses of the positions 1 and 2 of [7; 3]. *)
Lemma at_points_to_element_witness :
  load (vec_at two_bytes 1) 1 two_bytes_heap = Some [x03] /\
  vec_at two_bytes 2 = NULL.
Proof.
  destruct (at_points_to_element two_bytes two_bytes_heap [[x07]; [x03]])
    as (Hin & Hout & _).
  - exact two_bytes_is_array.
  - simpl. lia.
  - reflexivity.
  - split.
    + apply (Hin 1 [x03]); [lia|reflexivity].
    + apply Hout. simpl. lia.
Defined.

(** An array of capacity 2 that holds one element, shrunk. *)
Lemma shrink_to_fit_exact_witness :
  exists v' h',
    vec_shrink_to_fit junk_aa realloc_moves one_of_two two_bytes_heap
    = Some (v', h') /\
    vec_capacity v' = 1 /\ vec_elems h' v' = Some [[x07]].
Proof.
  destruct (shrink_to_fit_exact junk_aa realloc_moves one_of_two two_bytes_heap
              [[x07]])
    as (v' & h' & E & _ & Hc & _ & Hes & _).
  - exact one_of_two_is_array.
  - simpl. lia.
  - reflexivity.
  - simpl. lia.
  - exists v', h'. split_and!; assumption.
Defined.

(** The array [7; 3] cleared. *)
Lemma clear_releases_buffer_witness :
  exists v' h',
    vec_clear two_bytes two_bytes_heap = Some (v', h') /\
    vec_capacity v' = 0 /\ live h' 0%nat = None.
Proof.
  destruct (clear_releases_buffer two_bytes two_bytes_heap two_bytes_is_array)
    as (v' & h' & E & Hc & _ & _ & _ & Hrel & _).
  exists v', h'. split_and!; try assumption.
  apply Hrel; [simpl; lia|reflexivity].
Defined.

(** Room for 3 elements reserved for [7; 3]. *)
Lemma reserve_keeps_elements_witness :
  exists v' h',
    vec_reserve junk_aa realloc_moves two_bytes 3 two_bytes_heap = Some (v', h') /\
    vec_elems h' v' = Some [[x07]; [x03]].
Proof.
  destruct (reserve_keeps_elements junk_aa realloc_moves two_bytes two_bytes_heap 3
              [[x07]; [x03]])
    as (v' & h' & E & _ & _ & Hes & _).
  - exact two_bytes_is_array.
  - simpl. lia.
  - lia.
  - reflexivity.
  - vm_compute. congruence.
  - exists v', h'. split; assumption.
Defined.

(** The element 9 appended to an array of capacity 2 that holds one
    element. *)
Lemma insert_with_room_keeps_buffer_witness :
  exists v' h',
    vec_insert_n junk_aa realloc_moves one_of_two (at_block 1) 1 1 two_bytes_heap
    = Some (v', h') /\
    ptr v' = at_block 0 /\ vec_capacity v' = 2 /\
    vec_elems h' v' = Some [[x07]; [x09]].
Proof.
  apply (insert_with_room_keeps_buffer junk_aa realloc_moves one_of_two
           two_bytes_heap (at_block 1) 1 1 [[x07]] [[x09]]).
  - exact one_of_two_is_array.
  - simpl. lia.
  - reflexivity.
  - simpl. lia.
  - lia.
  - simpl. lia.
  - apply (one_of_two_buffer 1 x09). now left.
  - reflexivity.
Defined.

(** Room for [2^63] one-byte elements asked for. *)
Lemma reserve_records_failed_allocation_witness :
  vec_reserve junk_aa realloc_moves two_bytes (2 ^ 63) two_bytes_heap
  = Some (mkVec NULL (2 ^ 63) 2 1, two_bytes_heap).
Proof.
  apply (reserve_records_failed_allocation junk_aa realloc_moves two_bytes
           two_bytes_heap (2 ^ 63)).
  - exact two_bytes_is_array.
  - simpl. lia.
  - simpl. lia.
  - vm_compute. split; congruence.
Defined.

(** One element of [2^62] bytes inserted in a new array. *)
Lemma insert_after_failed_allocation_witness :
  vec_insert_n junk_aa realloc_moves huge_stride NULL 1 0 [] = None.
Proof.
  apply (insert_after_failed_allocation junk_aa realloc_moves huge_stride []
           NULL 1 0).
  - apply empty_is_array. unfold SIZE_MAX. lia.
  - simpl. lia.
  - simpl. lia.
  - lia.
  - vm_compute. split; congruence.
Defined.

(** [vec_init(v, 3, 3)]. *)
Lemma init_zeroes_count_by_count_witness :
  exists v' h',
    vec_init junk_aa realloc_moves no_vec 3 3 [] = Some (v', h') /\
    vec_elems h' v' = Some [[x00; x00; x00]; [x00; x00; x00]; [x00; x00; x00]].
Proof.
  destruct (init_zeroes_count_by_count junk_aa realloc_moves no_vec 3 3 [])
    as [Hok _]; try lia.
  - vm_compute. congruence.
  - destruct Hok as (v' & h' & E & _ & _ & _ & _ & _ & Hes); [lia|].
    exists v', h'. split; assumption.
Defined.

(** A new array with room for 3 one-byte elements. *)
Lemma new_with_allocates_witness :
  exists v' h',
    vec_new_with junk_aa realloc_moves no_vec 1 3 [] = Some (v', h') /\
    vec_capacity v' = 3 /\ vec_elems h' v' = Some [].
Proof.
  destruct (new_with_allocates junk_aa realloc_moves no_vec 1 3 [])
    as (v' & h' & E & _ & _ & _ & Hes & Hc & _).
  - unfold SIZE_MAX. lia.
  - lia.
  - vm_compute. congruence.
  - exists v', h'. split_and!; assumption.
Defined.

(** The two elements of [7; 3] exchanged twice. *)
Lemma swap_twice_restores_witness :
  exists h1 h2,
    vec_swap two_bytes 0 1 (at_block 2) two_bytes_heap = Some (tt, h1) /\
    vec_swap two_bytes 0 1 (at_block 2) h1 = Some (tt, h2) /\
    is_array h2 two_bytes /\ vec_elems h2 two_bytes = Some [[x07]; [x03]].
Proof.
  apply (swap_twice_restores two_bytes two_bytes_heap (at_block 2)
           [[x07]; [x03]] 0 1).
  - exact two_bytes_is_array.
  - simpl. lia.
  - apply (two_bytes_buffer 2 x00). now right.
  - reflexivity.
  - simpl. lia.
  - simpl. lia.
Defined.

(** [7; 3] sorted with the order value 0. *)
Lemma sort_with_order_zero_witness :
  exists h',
    vec_sort junk_aa two_bytes 0 two_bytes_heap = Some (tt, h') /\
    vec_elems h' two_bytes = Some [[x07]; [x03]].
Proof.
  apply (sort_with_order_zero junk_aa two_bytes two_bytes_heap [[x07]; [x03]]).
  - exact two_bytes_is_array.
  - simpl. lia.
  - vm_compute. congruence.
  - reflexivity.
Defined.

(** Room for [2^32] elements of [2^32] bytes asked for: the block has no
    byte. *)
Lemma reserve_wraps_byte_count_witness :
  vec_reserve junk_aa realloc_moves (mkVec NULL 0 0 (2 ^ 32)) (2 ^ 32) []
  = Some (mkVec (at_block 0) (2 ^ 32) 0 (2 ^ 32), [Some []]).
Proof.
  apply (reserve_wraps_byte_count junk_aa realloc_moves
           (mkVec NULL 0 0 (2 ^ 32)) [] (2 ^ 32)).
  - reflexivity.
  - vm_compute. split; congruence.
  - vm_compute. split; congruence.
  - vm_compute. reflexivity.
  - vm_compute. congruence.
Defined.

(** The loop over [7; 3] from position 1, and after a reset. *)
Lemma iter_reads_from_cursor_witness :
  (exists h',
     iter_loop 3 two_bytes (at_block 2) (1, two_bytes_heap)
     = Some ([[x03]], (2, h'))) /\
  (exists h',
     (vec_iter None (at_block 2) ;;; iter_loop 3 two_bytes (at_block 2))
       (1, two_bytes_heap)
     = Some ([[x07]; [x03]], (2, h'))).
Proof.
  destruct (iter_reads_from_cursor two_bytes two_bytes_heap (at_block 2)
              [[x07]; [x03]] 1)
    as [(h' & E & _) Hreset].
  - exact two_bytes_is_array.
  - simpl. lia.
  - reflexivity.
  - apply (two_bytes_buffer 2 x00). now right.
  - lia.
  - split; [exists h'; exact E|exact Hreset].
Defined.

(** 16 bytes allocated in a new arena. *)
Lemma arena_alloc_links_at_head_witness :
  exists arena' h' b,
    arena_alloc junk_aa (arena_init (mkArena NULL)) 16 []
    = Some ((arena', ptr_add (head arena') sizeof_ArenaNode), h') /\
    arena_nodes h' (head arena') [b].
Proof.
  destruct (arena_alloc_links_at_head junk_aa (arena_init (mkArena NULL)) 16 [] [])
    as (arena' & h' & b & nd & E & _ & _ & _ & _ & _ & Hl & _).
  - constructor.
  - lia.
  - vm_compute. congruence.
  - exists arena', h', b. split; assumption.
Defined.

(** [SIZE_MAX] bytes asked of a new arena. *)
Lemma arena_alloc_too_large_witness :
  arena_alloc junk_aa (mkArena NULL) SIZE_MAX [] = None.
Proof.
  apply (arena_alloc_too_large junk_aa (mkArena NULL) SIZE_MAX []).
  - unfold SIZE_MAX. lia.
  - vm_compute. reflexivity.
Defined.

(** An arena of two nodes released. *)
Lemma arena_free_releases_all_witness :
  exists h',
    arena_free two_nodes two_nodes_heap = Some (mkArena NULL, h') /\
    live h' 0%nat = None /\ live h' 1%nat = None.
Proof.
  destruct (arena_free_releases_all two_nodes two_nodes_heap [1%nat; 0%nat]
              two_nodes_list)
    as (h' & E & Hrel & _).
  exists h'. split_and!; [exact E| |]; apply Hrel.
  - apply elem_of_cons. right. apply elem_of_cons. now left.
  - apply elem_of_cons. now left.
Defined.

(** An arena of two nodes released, and 4 bytes allocated. *)
Lemma arena_alloc_after_free_witness :
  exists arena1 h1 arena2 p h2 b,
    arena_free two_nodes two_nodes_heap = Some (arena1, h1) /\
    arena_alloc junk_aa arena1 4 h1 = Some ((arena2, p), h2) /\
    p = mkptr (Some b) sizeof_ArenaNode /\ arena_nodes h2 (head arena2) [b].
Proof.
  apply (arena_alloc_after_free junk_aa two_nodes 4 two_nodes_heap [1%nat; 0%nat]).
  - exact two_nodes_list.
  - lia.
  - vm_compute. congruence.
Defined.

(** The last node of an arena of two nodes resized to 4 bytes. *)
Lemma arena_realloc_keeps_place_witness :
  exists arena' h' b',
    arena_realloc junk_aa realloc_moves two_nodes 4
      (mkptr (Some 0%nat) sizeof_ArenaNode) two_nodes_heap
    = Some ((arena', ptr_add NULL sizeof_ArenaNode), h') /\
    arena_nodes h' (head arena') [1%nat; b'].
Proof.
  destruct (arena_realloc_keeps_place junk_aa realloc_moves two_nodes 4
              two_nodes_heap [1%nat] [] 0%nat (mkNode 9 (Some NULL) [x01]) NULL)
    as (arena' & h' & b' & nd' & E & Hl & _).
  - exact two_nodes_list.
  - reflexivity.
  - reflexivity.
  - lia.
  - vm_compute. congruence.
  - exists arena', h', b'. split; assumption.
Defined.

(** No element inserted in [7; 3] and removed from it, at position 1. *)
Lemma zero_elements_change_nothing_witness :
  vec_insert_n junk_aa realloc_moves two_bytes NULL 0 1 two_bytes_heap
  = Some (two_bytes, two_bytes_heap) /\
  vec_remove_n two_bytes 1 NULL 0 two_bytes_heap
  = Some (two_bytes, two_bytes_heap).
Proof.
  apply (zero_elements_change_nothing junk_aa realloc_moves two_bytes
           two_bytes_heap NULL 1).
  - exact two_bytes_is_array.
  - simpl. lia.
  - unfold SIZE_MAX. lia.
Defined.

(** [7; 3] sorted in descending order, beside the buffer that holds 9. *)
Lemma sort_leaves_no_block_witness :
  exists h',
    vec_sort junk_aa two_bytes VEC_SORT_DESC two_bytes_heap = Some (tt, h') /\
    h' !! 1%nat = Some (Some [x09]) /\ live h' 3%nat = None.
Proof.
  destruct (sort_leaves_no_block junk_aa two_bytes two_bytes_heap VEC_SORT_DESC)
    as (h' & E & Hfr & Hdead).
  - exact two_bytes_is_array.
  - simpl. lia.
  - vm_compute. congruence.
  - vm_compute. congruence.
  - exists h'. split_and!; [exact E| |].
    + apply (Hfr 1%nat). split; [simpl; lia|]. intros _. discriminate.
    + apply Hdead. simpl. lia.
Defined.
